(** * NanoClaw: scheduler failure handling, IPC transport, plugin ordering
      and message splitting, embedded from the TypeScript sources.

    Conventions of the embedding.
    - A JavaScript string is a [list ascii] ([str]): the characters of a
      string of ASCII characters, and the UTF-8 encoding of any other.  The
      tests for keywords, ['/'], line feeds and digits are the same on
      both.  [toLowerCase], [trim], [trimStart] and the lengths of [slice]
      are those of the code on strings of ASCII characters ([ascii_text]);
      a property that rests on them beyond that is stated for such strings.
    - Where the code measures, cuts and trims a text of any characters
      (the messages of the Discord channel), the text is the list of its
      UTF-16 code units ([Units.ustr]).
    - JavaScript numbers that hold counters, indices and delays are [Z].
    - Database tables and the file system are finite maps ([gmap]); the
      effects of a function are the difference between the state it takes
      and the state it returns.
    - [Date.now()], [Math.random()] and [new Date().toISOString()] are
      inputs of the functions that call them. *)

From Stdlib Require Import Ascii String ZArith List Lia.
From stdpp Require Import gmap strings list sorting relations.

Local Open Scope Z_scope.

#[local] Set Warnings "-register-all,-clear-no-such-hyp".

(** ** JavaScript string primitives *)

Module JS.

Abbreviation str := (list ascii).

(** A source literal. *)
Definition lit (s : string) : str := list_ascii_of_string s.

Definition code (c : ascii) : Z := Z.of_N (N_of_ascii c).

(** A string of ASCII characters. *)
Definition ascii_text (s : list ascii) : Prop := Forall (fun c => code c < 128) s.

(** [String.prototype.toLowerCase] on a string of ASCII characters: the
    letters [A] to [Z] go to [a] to [z]. *)
Definition lower_char (c : ascii) : ascii :=
  if (65 <=? code c) && (code c <=? 90)
  then ascii_of_N (N_of_ascii c + 32) else c.

Definition toLowerCase (s : str) : str := map lower_char s.

(** The white space [trim] and [trimStart] remove from a string of ASCII
    characters: TAB, LF, VT, FF, CR, SP. *)
Definition is_space (c : ascii) : bool :=
  ((9 <=? code c) && (code c <=? 13)) || (code c =? 32).

Fixpoint trimStart (s : str) : str :=
  match s with
  | c :: s' => if is_space c then trimStart s' else s
  | [] => []
  end.

Definition trimEnd (s : str) : str := rev (trimStart (rev s)).

Definition trim (s : str) : str := trimEnd (trimStart s).

Definition ascii_eqb (a b : ascii) : bool := Ascii.eqb a b.

Arguments ascii_eqb : simpl never.

(** The characters the sources name by escapes: line feed, double quote. *)
Definition LF : ascii := ascii_of_N 10.
Definition DQUOTE : ascii := ascii_of_N 34.

Fixpoint str_eqb (a b : str) : bool :=
  match a, b with
  | [], [] => true
  | x :: a', y :: b' => ascii_eqb x y && str_eqb a' b'
  | _, _ => false
  end.

(** [s.startsWith(p)]. *)
Fixpoint startsWith (s p : str) : bool :=
  match p, s with
  | [], _ => true
  | x :: p', y :: s' => ascii_eqb x y && startsWith s' p'
  | _ :: _, [] => false
  end.

(** [s.endsWith(p)]. *)
Definition endsWith (s p : str) : bool := startsWith (rev s) (rev p).

(** [s.includes(p)]. *)
Fixpoint includes (s p : str) : bool :=
  startsWith s p ||
  match s with
  | [] => false
  | _ :: s' => includes s' p
  end.

(** [s.slice(0, n)] and [s.slice(n)] for [0 <= n]. *)
Definition slice_to (n : nat) (s : str) : str := take n s.
Definition slice_from (n : nat) (s : str) : str := drop n s.

(** Order of [Array.prototype.sort()] without a comparator: by code units. *)
Fixpoint str_ltb (a b : str) : bool :=
  match a, b with
  | _, [] => false
  | [], _ :: _ => true
  | x :: a', y :: b' =>
      if code x <? code y then true
      else if code y <? code x then false
      else str_ltb a' b'
  end.

Definition str_le (a b : str) : Prop := str_ltb b a = false.

#[global] Instance str_le_dec : RelDecision str_le :=
  fun a b => decide (str_ltb b a = false).

(** Decimal rendering of a non-negative integer, as template literals and
    [Number.prototype.toString] produce it. *)
Definition digit (d : Z) : ascii := ascii_of_N (48 + Z.to_N d).

Fixpoint dec_aux (fuel : nat) (n : Z) : str :=
  match fuel with
  | O => []
  | S fuel' =>
      if n <? 10 then [digit n]
      else dec_aux fuel' (n / 10) ++ [digit (n mod 10)]
  end.

Definition dec (n : Z) : str := dec_aux (S (Z.to_nat (Z.log2 n))) n.

(** JavaScript truthiness of a string and of a number. *)
Definition truthy_str (s : str) : bool :=
  match s with [] => false | _ => true end.

Definition join (sep : str) (l : list str) : str :=
  match l with
  | [] => []
  | x :: l' => x ++ concat (map (fun y => sep ++ y) l')
  end.

End JS.

(** ** Texts by code units

    Where the code measures, cuts and trims a text of any characters, the
    text is the list of its UTF-16 code units: [length], [slice] and
    [lastIndexOf] count them, and the white space of [trimStart] is a set
    of them. *)

Module Units.

Local Open Scope N_scope.

Abbreviation ustr := (list N).

(** The code units of a literal of ASCII characters. *)
Definition units (s : JS.str) : ustr := map N_of_ascii s.

(** ['\n']. *)
Definition LF : N := 10.

(** The white space and the line terminators of ECMAScript, which
    [trimStart] removes: TAB, LF, VT, FF, CR, SP, U+00A0, U+1680, U+2000 to
    U+200A, U+2028, U+2029, U+202F, U+205F, U+3000 and U+FEFF. *)
Definition is_space (u : N) : bool :=
  ((9 <=? u) && (u <=? 13)) || (u =? 32) || (u =? 160) || (u =? 5760)
  || ((8192 <=? u) && (u <=? 8202)) || (u =? 8232) || (u =? 8233) || (u =? 8239)
  || (u =? 8287) || (u =? 12288) || (u =? 65279).

Fixpoint trimStart (s : ustr) : ustr :=
  match s with
  | u :: s' => if is_space u then trimStart s' else s
  | [] => []
  end.

(** [s.slice(0, n)] and [s.slice(n)] for [0 <= n]. *)
Definition slice_to (n : nat) (s : ustr) : ustr := take n s.
Definition slice_from (n : nat) (s : ustr) : ustr := drop n s.

(** [s.lastIndexOf(c, from)] for a [c] of one code unit and [0 <= from]:
    the largest index [i <= from] with [s[i] = c], or [-1]. *)
Fixpoint lastIndexOf_aux (s : ustr) (c : N) (i : nat) (fuel : nat) (best : Z) : Z :=
  match fuel, s with
  | S fuel', x :: s' =>
      lastIndexOf_aux s' c (S i) fuel' (if x =? c then Z.of_nat i else best)
  | _, _ => best
  end.

Definition lastIndexOf (s : ustr) (c : N) (from : nat) : Z :=
  lastIndexOf_aux s c 0 (S from) (-1)%Z.

End Units.

Import JS.

(** ** Failure diagnosis (src/task-diagnostics.ts) *)

Module Diagnostics.

Inductive TaskStatus := active | paused | error | completed.

Inductive RunStatus := run_success | run_error.

(** [ScheduledTask] (the fields the scheduler reads or writes). *)
Record ScheduledTask := {
  id : str;
  group_folder : str;
  chat_jid : str;
  prompt : str;
  status : TaskStatus;
  retry_count : Z;
  last_error : option str;
  max_retries : Z;
}.

(** [TaskRunLog]; [result] and [error] are [string | null]. *)
Record TaskRunLog := {
  task_id : str;
  run_at : str;
  duration_ms : Z;
  run_status : RunStatus;
  result : option str;
  run_err : option str;
}.

Inductive Pattern :=
  persistent | timeout | orphaned | rate_limited | transient | unknown.

Inductive Recommendation :=
  retry | pause | deactivate | notify | increase_timeout.

Record TaskDiagnosis := {
  pattern : Pattern;
  description : str;
  recommendation : Recommendation;
  details : option str;
}.

Definition RunStatus_eqb (a b : RunStatus) : bool :=
  match a, b with
  | run_success, run_success | run_error, run_error => true
  | _, _ => false
  end.

(** [const normalize = (e) => e.slice(0, 100).toLowerCase().trim()], for
    an error of ASCII characters. *)
Definition normalize (e : str) : str := trim (toLowerCase (slice_to 100 e)).

(** The error of a run that passes the filter
    [(r) => r.status === 'error' && r.error]: a [null] and an empty error
    are both falsy. *)
Definition failedWith (r : TaskRunLog) : option str :=
  if RunStatus_eqb (run_status r) run_error
  then match run_err r with
       | Some e => if truthy_str e then Some e else None
       | None => None
       end
  else None.

(** [recentRuns.filter((r) => r.status === 'error' && r.error).map((r) => r.error!)]. *)
Definition recentErrors (recentRuns : list TaskRunLog) : list str :=
  omap failedWith recentRuns.

Definition is_orphaned (lowerError : str) : bool :=
  (includes lowerError (lit "group not found") || includes lowerError (lit "not found"))
  && (includes lowerError (lit "group not found") || includes lowerError (lit "chat not found")).

Definition is_rate_limited (lowerError : str) : bool :=
  includes lowerError (lit "rate limit")
  || includes lowerError (lit "429")
  || includes lowerError (lit "too many requests")
  || includes lowerError (lit "api error").

Definition is_timeout (lowerError : str) : bool :=
  includes lowerError (lit "timeout")
  || includes lowerError (lit "timed out")
  || includes lowerError (lit "idle timeout").

Definition diagnoseTaskFailure
  (_task : ScheduledTask) (recentRuns : list TaskRunLog) (currentError : str)
  : TaskDiagnosis :=
  let lowerError := toLowerCase currentError in
  if is_orphaned lowerError then
    {| pattern := orphaned;
       description := lit "Gruppe oder Chat nicht mehr erreichbar";
       recommendation := deactivate;
       details := Some currentError |}
  else if is_rate_limited lowerError then
    {| pattern := rate_limited;
       description := lit "API Rate-Limit erreicht";
       recommendation := retry;
       details := Some currentError |}
  else if is_timeout lowerError then
    {| pattern := timeout;
       description := lit "Container-Timeout überschritten";
       recommendation := increase_timeout;
       details := Some currentError |}
  else
    let errs := recentErrors recentRuns in
    if 2 <=? Z.of_nat (length errs) then
      let currentNorm := normalize currentError in
      let sameErrorCount :=
        Z.of_nat (length (filter (fun e => str_eqb (normalize e) currentNorm = true) errs)) in
      if 2 <=? sameErrorCount then
        {| pattern := persistent;
           description :=
             lit "Persistenter Fehler (" ++ dec (sameErrorCount + 1) ++ lit "x wiederholt)";
           recommendation := pause;
           details := Some currentError |}
      else
        {| pattern := transient;
           description := lit "Unterschiedliche Fehler — möglicherweise vorübergehend";
           recommendation := retry;
           details := Some currentError |}
    else
      {| pattern := unknown;
         description := lit "Unbekannter Fehler";
         recommendation := retry;
         details := Some currentError |}.

Definition RECOMMENDATION_LABELS (r : Recommendation) : str :=
  match r with
  | retry => lit "Erneut versuchen"
  | pause => lit "Task pausieren"
  | deactivate => lit "Task deaktivieren"
  | notify => lit "Owner benachrichtigen"
  | increase_timeout => lit "Timeout erhöhen"
  end.

(** [ACTION_LABELS[action] || action], for the three actions the scheduler
    passes. *)
Definition action_name (s : TaskStatus) : str :=
  match s with
  | active => lit "active"
  | paused => lit "paused"
  | error => lit "error"
  | completed => lit "completed"
  end.

Definition ACTION_LABELS (action : TaskStatus) : str :=
  match action with
  | paused => lit "pausiert"
  | completed => lit "deaktiviert"
  | error => lit "auf Fehler-Status gesetzt"
  | active => action_name active
  end.

Definition formatFailureNotification
  (task : ScheduledTask) (diagnosis : TaskDiagnosis) (err : str) (action : TaskStatus)
  : str :=
  let promptPreview :=
    if 60 <? Z.of_nat (length (prompt task))
    then slice_to 57 (prompt task) ++ lit "..."
    else prompt task in
  let actionLabel := ACTION_LABELS action in
  join [LF] [
    lit "⚠️ Task " ++ [DQUOTE] ++ promptPreview ++ [DQUOTE] ++ lit " fehlgeschlagen";
    [];
    lit "Diagnose: " ++ description diagnosis;
    lit "Empfehlung: " ++ RECOMMENDATION_LABELS (recommendation diagnosis);
    lit "Fehler: " ++ err;
    [];
    lit "Task wurde " ++ actionLabel ++ lit ". Nutze resume_task/schedule_task um fortzufahren."
  ].

End Diagnostics.

(** ** Failure handling of the scheduler (src/task-scheduler.ts) *)

Module Scheduler.

Import Diagnostics.

(** Retry delays in milliseconds: 30s, 2min, 10min. *)
Definition RETRY_DELAYS : list Z := [30000; 120000; 600000].

(** [a[i]] for a number [i]: [undefined] ([None]) outside the array. *)
Definition index {A} (a : list A) (i : Z) : option A :=
  if i <? 0 then None else a !! Z.to_nat i.

(** What the scheduler acts on: the task table and the run log of the
    database, the calls made to [deps.sendMessage] (oldest first) and the
    timers set by [scheduleRetry] (oldest first; the delay is the second
    argument of [setTimeout]). *)
Record World := {
  db_tasks : gmap str ScheduledTask;
  db_runs : list TaskRunLog;
  sent : list (str * str);
  timers : list (str * option Z);
}.

Definition with_tasks (t : gmap str ScheduledTask) (w : World) : World :=
  {| db_tasks := t; db_runs := db_runs w; sent := sent w; timers := timers w |}.

Definition set_status (s : TaskStatus) (t : ScheduledTask) : ScheduledTask :=
  {| id := id t; group_folder := group_folder t; chat_jid := chat_jid t;
     prompt := prompt t; status := s; retry_count := retry_count t;
     last_error := last_error t; max_retries := max_retries t |}.

Definition bump_retry (e : str) (t : ScheduledTask) : ScheduledTask :=
  {| id := id t; group_folder := group_folder t; chat_jid := chat_jid t;
     prompt := prompt t; status := status t; retry_count := retry_count t + 1;
     last_error := Some e; max_retries := max_retries t |}.

Definition clear_retry (t : ScheduledTask) : ScheduledTask :=
  {| id := id t; group_folder := group_folder t; chat_jid := chat_jid t;
     prompt := prompt t; status := status t; retry_count := 0;
     last_error := None; max_retries := max_retries t |}.

(** Modelled from the spec: [updateTaskStatus] of db.js, which is not among
    the sources.  "All status/retry/next-run updates are single-row writes":
    the row of the task gets the status, no other row changes. *)
Definition updateTaskStatus (tid : str) (s : TaskStatus) (w : World) : World :=
  with_tasks (alter (set_status s) tid (db_tasks w)) w.

(** Modelled from the spec: [incrementTaskRetryCount] of db.js, which is not
    among the sources.  A single-row write that adds one to [retryCount] and
    records [lastError]; the call returns the new count (0 when the task has
    no row). *)
Definition incrementTaskRetryCount (tid : str) (e : str) (w : World) : Z * World :=
  let w' := with_tasks (alter (bump_retry e) tid (db_tasks w)) w in
  (match db_tasks w' !! tid with Some t => retry_count t | None => 0 end, w').

(** Modelled from the spec: [resetTaskRetryCount] of db.js.  "On success:
    reset retryCount=0, clear lastError". *)
Definition resetTaskRetryCount (tid : str) (w : World) : World :=
  with_tasks (alter clear_retry tid (db_tasks w)) w.

(** Modelled from the spec: [logTaskRun] of db.js.  The run log is
    "append-only"; it is kept newest first. *)
Definition logTaskRun (r : TaskRunLog) (w : World) : World :=
  {| db_tasks := db_tasks w; db_runs := r :: db_runs w;
     sent := sent w; timers := timers w |}.

(** Modelled from the spec: [getRecentTaskRuns] of db.js, "the last N run
    logs" of the task. *)
Definition getRecentTaskRuns (tid : str) (limit : nat) (w : World) : list TaskRunLog :=
  take limit (filter (fun r => str_eqb (task_id r) tid = true) (db_runs w)).

(** [await deps.sendMessage(jid, msg).catch(...)]: one call, whose failure
    is logged and goes no further. *)
Definition sendMessage (jid msg : str) (w : World) : World :=
  {| db_tasks := db_tasks w; db_runs := db_runs w;
     sent := sent w ++ [(jid, msg)]; timers := timers w |}.

(** [scheduleRetry]: one [setTimeout(..., delayMs)]. *)
Definition scheduleRetry (task : ScheduledTask) (delayMs : option Z) (w : World) : World :=
  {| db_tasks := db_tasks w; db_runs := db_runs w;
     sent := sent w; timers := timers w ++ [(id task, delayMs)] |}.

(** [task.max_retries || 3]. *)
Definition maxRetries (task : ScheduledTask) : Z :=
  if max_retries task =? 0 then 3 else max_retries task.

Definition notifyStatus
  (task : ScheduledTask) (diagnosis : TaskDiagnosis) (err : str) (s : TaskStatus)
  (w : World) : World :=
  let w1 := updateTaskStatus (id task) s w in
  let msg := formatFailureNotification task diagnosis err s in
  sendMessage (chat_jid task) msg w1.

(** [RETRY_DELAYS[RETRY_DELAYS.length - 1]]. *)
Definition rateLimitDelay : option Z :=
  index RETRY_DELAYS (Z.of_nat (length RETRY_DELAYS) - 1).

(** [RETRY_DELAYS[Math.min(retryCount - 1, RETRY_DELAYS.length - 1)]]. *)
Definition standardDelay (retryCount : Z) : option Z :=
  let delayIndex := Z.min (retryCount - 1) (Z.of_nat (length RETRY_DELAYS) - 1) in
  index RETRY_DELAYS delayIndex.

Definition handleTaskFailure (task : ScheduledTask) (err : str) (w : World) : World :=
  let '(retryCount, w1) := incrementTaskRetryCount (id task) err w in
  let recentRuns := getRecentTaskRuns (id task) 10 w1 in
  let diagnosis := diagnoseTaskFailure task recentRuns err in
  match pattern diagnosis with
  | orphaned => notifyStatus task diagnosis err completed w1
  | persistent => notifyStatus task diagnosis err paused w1
  | rate_limited =>
      if retryCount <=? maxRetries task
      then scheduleRetry task rateLimitDelay w1
      else notifyStatus task diagnosis err error w1
  | _ =>
      if retryCount <=? maxRetries task
      then scheduleRetry task (standardDelay retryCount) w1
      else notifyStatus task diagnosis err error w1
  end.

(** One failed run: when it started, how long it took, its error. *)
Record Failure := {
  at_time : str;
  took : Z;
  failure : str;
}.

(** The failure branch of [runTask]: the run is logged with status
    ['error'], then handed to [handleTaskFailure]. *)
Definition failedRun (task : ScheduledTask) (f : Failure) (w : World) : World :=
  handleTaskFailure task (failure f)
    (logTaskRun {| task_id := id task; run_at := at_time f; duration_ms := took f;
                   run_status := run_error; result := None; run_err := Some (failure f) |} w).

(** Consecutive failed runs of the task stored under [tid]; each run
    starts from the row as it is then ([getTaskById]). *)
Fixpoint failedRuns (tid : str) (fs : list Failure) (w : World) : World :=
  match fs with
  | [] => w
  | f :: rest =>
      match db_tasks w !! tid with
      | Some task => failedRuns tid rest (failedRun task f w)
      | None => w
      end
  end.

(** *** Vocabulary of the properties *)

(** The diagnosis [handleTaskFailure] computes for a failure. *)
Definition diagnosisOf (task : ScheduledTask) (err : str) (w : World) : TaskDiagnosis :=
  diagnoseTaskFailure task
    (getRecentTaskRuns (id task) 10 (incrementTaskRetryCount (id task) err w).2) err.

(** The failure is handled by the standard retry path. *)
Definition standardPath (task : ScheduledTask) (err : str) (w : World) : Prop :=
  pattern (diagnosisOf task err w) <> orphaned /\
  pattern (diagnosisOf task err w) <> persistent /\
  pattern (diagnosisOf task err w) <> rate_limited.

(** Every one of the consecutive failed runs is handled by the standard
    retry path. *)
Fixpoint allStandard (tid : str) (fs : list Failure) (w : World) : Prop :=
  match fs with
  | [] => True
  | f :: rest =>
      match db_tasks w !! tid with
      | Some task =>
          standardPath task (failure f)
            (logTaskRun {| task_id := id task; run_at := at_time f; duration_ms := took f;
                           run_status := run_error; result := None;
                           run_err := Some (failure f) |} w)
          /\ allStandard tid rest (failedRun task f w)
      | None => False
      end
  end.


(** The same, for a run whose error is not the empty string. *)
Definition sameNonEmptyError (currentError : str) (r : TaskRunLog) : Prop :=
  run_status r = run_error /\
  exists e, run_err r = Some e /\ e <> [] /\ normalize e = normalize currentError.


(** The errors of the runs are of ASCII characters. *)
Definition asciiErrors (runs : list TaskRunLog) : Prop :=
  Forall (fun r => forall e, run_err r = Some e -> ascii_text e) runs.

(** Two entries of [runs], at different places, satisfy [P]. *)
Definition atLeastTwo (P : TaskRunLog -> Prop) (runs : list TaskRunLog) : Prop :=
  exists i j r1 r2,
    i <> j /\ runs !! i = Some r1 /\ runs !! j = Some r2 /\ P r1 /\ P r2.

(** The current error matches none of the keyword patterns. *)
Definition noKeyword (currentError : str) : Prop :=
  is_orphaned (toLowerCase currentError) = false /\
  is_rate_limited (toLowerCase currentError) = false /\
  is_timeout (toLowerCase currentError) = false.

(** [t'] is the row [t] after [n] more failures were counted: the count
    and the last error apart, its fields are those of [t]. *)
Definition advanced (n : Z) (t t' : ScheduledTask) : Prop :=
  id t' = id t /\ chat_jid t' = chat_jid t /\ prompt t' = prompt t /\
  max_retries t' = max_retries t /\ status t' = status t /\
  retry_count t' = retry_count t + n.

(** The timers set by [n] retries of the task [tid] that follow a count of
    [c]: retry [k] waits [RETRY_DELAYS[min(k - 1, 2)]]. *)
Definition rungs (tid : str) (c : Z) (n : nat) : list (str * option Z) :=
  map (fun k => (tid, standardDelay k)) (seqZ (c + 1) (Z.of_nat n)).

(** The status of the task stored under [tid]. *)
Definition statusOf (tid : str) (w : World) : option TaskStatus :=
  status <$> db_tasks w !! tid.

End Scheduler.

(** ** Node's [path.posix] functions, by segments *)

Module Path.

Definition SLASH : ascii := ascii_of_N 47.

Definition isAbsolute (p : str) : bool :=
  match p with
  | c :: _ => ascii_eqb c SLASH
  | [] => false
  end.

Definition trailingSeparator (p : str) : bool := isAbsolute (rev p).

(** The pieces of a path between its separators (empty pieces included). *)
Fixpoint split (p : str) : list str :=
  match p with
  | [] => [[]]
  | c :: p' =>
      if ascii_eqb c SLASH then [] :: split p'
      else match split p' with
           | h :: t => (c :: h) :: t
           | [] => [[c]]
           end
  end.

(** One segment of [normalizeString]; the segments kept so far are held
    last first.  Empty segments and ["."] are dropped, [".."] removes the
    segment before it, and is kept only above the root of a relative path. *)
Definition norm_step (allowAboveRoot : bool) (kept : list str) (seg : str) : list str :=
  if str_eqb seg [] || str_eqb seg (lit ".") then kept
  else if str_eqb seg (lit "..") then
    match kept with
    | top :: rest =>
        if str_eqb top (lit "..")
        then (if allowAboveRoot then seg :: kept else kept)
        else rest
    | [] => if allowAboveRoot then [seg] else []
    end
  else seg :: kept.

Definition norm_segs (allowAboveRoot : bool) (segs : list str) : list str :=
  rev (fold_left (norm_step allowAboveRoot) segs []).

Definition normalizeString (p : str) (allowAboveRoot : bool) : str :=
  join [SLASH] (norm_segs allowAboveRoot (split p)).

(** [path.normalize(p)]. *)
Definition normalize (p : str) : str :=
  match p with
  | [] => lit "."
  | _ =>
      let path := normalizeString p (negb (isAbsolute p)) in
      match path with
      | [] => if isAbsolute p then [SLASH]
              else if trailingSeparator p then lit "./" else lit "."
      | _ =>
          let path := if trailingSeparator p then path ++ [SLASH] else path in
          if isAbsolute p then SLASH :: path else path
      end
  end.

(** [path.join(a, b)]: empty arguments are skipped. *)
Definition join (a b : str) : str :=
  match a, b with
  | [], [] => lit "."
  | [], _ => normalize b
  | _, [] => normalize a
  | _, _ => normalize (a ++ SLASH :: b)
  end.

(** One round of the loop of [path.resolve]: a non-empty argument is put,
    with a separator, in front of what is resolved so far. *)
Definition prepend (arg resolvedPath : str) : str :=
  match arg with
  | [] => resolvedPath
  | _ => arg ++ SLASH :: resolvedPath
  end.

(** [path.resolve(p)] in a process whose working directory is [cwd]: the
    loop takes [p], then, unless [p] is absolute, [process.cwd()]. *)
Definition resolve (cwd p : str) : str :=
  let '(resolvedPath, resolvedAbsolute) :=
    if isAbsolute p then (prepend p [], true)
    else (prepend cwd (prepend p []), isAbsolute cwd) in
  let resolvedPath := normalizeString resolvedPath (negb resolvedAbsolute) in
  if resolvedAbsolute then SLASH :: resolvedPath
  else match resolvedPath with [] => lit "." | _ => resolvedPath end.

Arguments resolve : simpl never.
Arguments join : simpl never.
Arguments normalize : simpl never.

(** [path.resolve(a, b)]: the arguments are taken from the right until the
    path is absolute. *)
Definition resolve2 (cwd a b : str) : str :=
  match a, b with
  | _, [] => resolve cwd a
  | [], _ => resolve cwd b
  | _, _ => if isAbsolute b then resolve cwd b else resolve cwd (a ++ SLASH :: b)
  end.

(** *** Vocabulary of the properties *)

(** A segment without a separator. *)
Definition slashless (s : str) : Prop := Forall (fun c => c <> SLASH) s.

(** A segment that [normalizeString] keeps as it is. *)
Definition clean (s : str) : Prop :=
  slashless s /\ s <> [] /\ s <> lit "." /\ s <> lit "..".

(** A segment that [normalizeString] may keep: [".."] is kept above the
    root of a relative path. *)
Definition keepable (s : str) : Prop := slashless s /\ s <> [] /\ s <> lit ".".

End Path.

(** ** The file-drop transport: writer (container/agent-runner,
       ipc-mcp-stdio) and drain (agent runner) *)

Module Ipc.

(** A parsed JSON document. *)
Inductive json :=
| JNull
| JBool (b : bool)
| JNum (n : Z)
| JStr (s : str)
| JArr (l : list json)
| JObj (fields : list (str * json)).

(** The text of a file, up to [JSON.parse]: [Doc v] is a text that parses
    to [v] (what [JSON.stringify(v, null, 2)] writes), [Raw s] a text on
    which [JSON.parse] throws. *)
Inductive content :=
| Doc (v : json)
| Raw (s : str).

(** The files (by absolute path), the directories made, and the working
    directory of the process. *)
Record Fs := {
  files : gmap str content;
  dirs : gset str;
  cwd : str;
}.

Definition with_files (f : gmap str content) (fs : Fs) : Fs :=
  {| files := f; dirs := dirs fs; cwd := cwd fs |}.

(** [fs.mkdirSync(dir, { recursive: true })]. *)
Definition mkdirSync (dir : str) (fs : Fs) : Fs :=
  {| files := files fs; dirs := {[ Path.resolve (cwd fs) dir ]} ∪ dirs fs; cwd := cwd fs |}.

(** [fs.writeFileSync(p, text)]. *)
Definition writeFileSync (p : str) (c : content) (fs : Fs) : Fs :=
  with_files (<[ Path.resolve (cwd fs) p := c ]> (files fs)) fs.

(** [fs.renameSync(a, b)]; [a] exists wherever the transport calls it. *)
Definition renameSync (a b : str) (fs : Fs) : Fs :=
  match files fs !! Path.resolve (cwd fs) a with
  | Some c =>
      with_files (<[ Path.resolve (cwd fs) b := c ]>
                    (delete (Path.resolve (cwd fs) a) (files fs))) fs
  | None => fs
  end.

(** [fs.unlinkSync(p)], its error for a missing file ignored as in the
    drain. *)
Definition unlinkSync (p : str) (fs : Fs) : Fs :=
  with_files (delete (Path.resolve (cwd fs) p) (files fs)) fs.

Definition readFileSync (p : str) (fs : Fs) : option content :=
  files fs !! Path.resolve (cwd fs) p.

Definition has_slash (s : str) : bool := existsb (fun c => ascii_eqb c Path.SLASH) s.

(** The name of [p] inside the directory [d], when [p] lies directly in it. *)
Fixpoint strip_prefix (d p : str) : option str :=
  match d, p with
  | [], _ => Some p
  | x :: d', y :: p' => if ascii_eqb x y then strip_prefix d' p' else None
  | _ :: _, [] => None
  end.

Definition entry_name (d p : str) : option str :=
  match strip_prefix (d ++ [Path.SLASH]) p with
  | Some n => if has_slash n || str_eqb n [] then None else Some n
  | None => None
  end.

(** [fs.readdirSync(dir)] for a directory that holds regular files only:
    the names of the files directly in [dir]. *)
Definition readdirSync (dir : str) (fs : Fs) : list str :=
  omap (fun kv => entry_name (Path.resolve (cwd fs) dir) kv.1) (map_to_list (files fs)).

Definition IPC_DIR : str := lit "/workspace/ipc".
Definition MESSAGES_DIR : str := Path.join IPC_DIR (lit "messages").
Definition TASKS_DIR : str := Path.join IPC_DIR (lit "tasks").
Definition IPC_INPUT_DIR : str := lit "/workspace/ipc/input".

(** [Math.random()] is given by the digits of its base-36 expansion after
    the point; [toString(36)] renders it. *)
Definition digit36 (d : nat) : ascii :=
  let d := (d mod 36)%nat in
  if (d <? 10)%nat then ascii_of_nat (48 + d) else ascii_of_nat (87 + d).

Definition toString36 (random : list nat) : str :=
  match random with
  | [] => lit "0"
  | _ => lit "0." ++ map digit36 random
  end.

(** [`${Date.now()}-${Math.random().toString(36).slice(2, 8)}.json`]. *)
Definition ipcFilename (now : Z) (random : list nat) : str :=
  dec now ++ lit "-" ++ take 6 (drop 2 (toString36 random)) ++ lit ".json".

Arguments ipcFilename : simpl never.

Inductive Thrown :=
| IpcWriteDenied (dir : str).

(** The message of the error. *)
Definition thrownMessage (t : Thrown) : str :=
  match t with
  | IpcWriteDenied dir => lit "IPC write denied: path escapes IPC directory: " ++ dir
  end.

(** The resolved directory is the IPC root or lies under it. *)
Definition underIpcRoot (resolvedDir : str) : bool :=
  startsWith resolvedDir (IPC_DIR ++ [Path.SLASH]) || str_eqb resolvedDir IPC_DIR.

(** [writeIpcFile] of the MCP server: the directory is checked against the
    IPC root before anything is written. *)
Definition writeIpcFile (now : Z) (random : list nat) (dir : str) (data : json) (fs : Fs)
  : Fs * (Thrown + str) :=
  let resolvedDir := Path.resolve (cwd fs) dir in
  if negb (startsWith resolvedDir (IPC_DIR ++ [Path.SLASH])) && negb (str_eqb resolvedDir IPC_DIR)
  then (fs, inl (IpcWriteDenied dir))
  else
    let fs := mkdirSync resolvedDir fs in
    let filename := ipcFilename now random in
    let filepath := Path.join dir filename in
    let tempPath := filepath ++ lit ".tmp" in
    let fs := writeFileSync tempPath (Doc data) fs in
    let fs := renameSync tempPath filepath fs in
    (fs, inr filename).

(** [writeIpcFile] of the tasks and groups plugins: no check; the plugins
    call it with [TASKS_DIR] only. *)
Definition pluginWriteIpcFile (now : Z) (random : list nat) (dir : str) (data : json) (fs : Fs)
  : Fs * str :=
  let fs := mkdirSync dir fs in
  let filename := ipcFilename now random in
  let filepath := Path.join dir filename in
  let tempPath := filepath ++ lit ".tmp" in
  let fs := writeFileSync tempPath (Doc data) fs in
  let fs := renameSync tempPath filepath fs in
  (fs, filename).

(** The document [{type: "message", text: x}]. *)
Definition message_doc (x : str) : json :=
  JObj [(lit "type", JStr (lit "message")); (lit "text", JStr x)].

(** [data.k] for a parsed document: [None] is a [TypeError] (on [null]),
    [Some None] is [undefined]. *)
Fixpoint assoc (k : str) (fields : list (str * json)) : option json :=
  match fields with
  | [] => None
  | (k', v) :: rest => if str_eqb k' k then Some v else assoc k rest
  end.

Definition property (data : json) (k : str) : option (option json) :=
  match data with
  | JNull => None
  | JObj fields => Some (assoc k fields)
  | _ => Some None
  end.

Definition truthy (v : option json) : bool :=
  match v with
  | None | Some JNull => false
  | Some (JBool b) => b
  | Some (JNum n) => negb (n =? 0)
  | Some (JStr s) => truthy_str s
  | Some (JArr _) | Some (JObj _) => true
  end.

Definition is_message (v : option json) : bool :=
  match v with
  | Some (JStr s) => str_eqb s (lit "message")
  | _ => false
  end.

(** What the drain has done so far: the messages collected, the lines
    logged and the file system. *)
Record Drain := {
  messages : list json;
  logged : list str;
  drained : Fs;
}.

(** The body of the loop of [drainIpcInput] for one file name. *)
Definition drainFile (file : str) (d : Drain) : Drain :=
  let filePath := Path.join IPC_INPUT_DIR file in
  let failed (fs : Fs) :=
    {| messages := messages d;
       logged := logged d ++ [lit "Failed to process input file " ++ file];
       drained := unlinkSync filePath fs |} in
  match readFileSync filePath (drained d) with
  | Some (Doc data) =>
      let fs := unlinkSync filePath (drained d) in
      match property data (lit "type"), property data (lit "text") with
      | Some ty, Some text =>
          if is_message ty && truthy text
          then {| messages := messages d ++ match text with Some t => [t] | None => [] end;
                  logged := logged d; drained := fs |}
          else {| messages := messages d; logged := logged d; drained := fs |}
      | _, _ => failed fs
      end
  | _ => failed (drained d)
  end.

(** [fs.readdirSync(IPC_INPUT_DIR).filter(f => f.endsWith('.json')).sort()]. *)
Definition inputFiles (fs : Fs) : list str :=
  merge_sort str_le
    (filter (fun f => endsWith f (lit ".json") = true) (readdirSync IPC_INPUT_DIR fs)).

(** [drainIpcInput()], for an inbox that is a directory of regular files:
    there [mkdirSync] and [readdirSync] do not throw, and the outer [catch]
    is not reached. *)
Definition drainIpcInput (fs : Fs) : Drain :=
  let fs := mkdirSync IPC_INPUT_DIR fs in
  fold_left (fun d file => drainFile file d) (inputFiles fs)
    {| messages := []; logged := []; drained := fs |}.

(** *** Vocabulary of the properties *)

(** One write into the inbox: what [Date.now()] and [Math.random()] gave
    to the call, and the text. *)
Record Write := {
  w_now : Z;
  w_random : list nat;
  w_text : str;
}.

Definition writeName (w : Write) : str := ipcFilename (w_now w) (w_random w).

(** [writeIpcFile(IPC_INPUT_DIR, {type: "message", text})]. *)
Definition writeMessage (w : Write) (fs : Fs) : Fs :=
  (writeIpcFile (w_now w) (w_random w) IPC_INPUT_DIR (message_doc (w_text w)) fs).1.

(** Writes one after the other. *)
Definition writeMessages (ws : list Write) (fs : Fs) : Fs :=
  fold_left (fun fs w => writeMessage w fs) ws fs.

(** The path of the file named [f] in the inbox. *)
Definition inboxPath (f : str) : str := IPC_INPUT_DIR ++ Path.SLASH :: f.

(** What the drain collects from a file that holds [c] ([None]: no such
    file). *)
Definition yieldOf (c : option content) : list json :=
  match c with
  | Some (Doc data) =>
      match property data (lit "type"), property data (lit "text") with
      | Some ty, Some (Some t) => if is_message ty && truthy (Some t) then [t] else []
      | _, _ => []
      end
  | _ => []
  end.

(** What the drain logs for the file [f] that holds [c]. *)
Definition logOf (f : str) (c : option content) : list str :=
  match c with
  | Some (Doc data) =>
      match property data (lit "type"), property data (lit "text") with
      | Some _, Some _ => []
      | _, _ => [lit "Failed to process input file " ++ f]
      end
  | _ => [lit "Failed to process input file " ++ f]
  end.

(** The clock rises from write to write, and its numerals keep their
    length (13 digits from 2001 to 2286). *)
Definition risingClock (ws : list Write) : Prop :=
  StronglySorted
    (fun w1 w2 => 0 <= w_now w1 < w_now w2 /\
                  length (dec (w_now w1)) = length (dec (w_now w2))) ws.

(** Every [.json] file of the inbox is one on which [JSON.parse] throws. *)
Definition unparseableInbox (fs : Fs) : Prop :=
  forall f c,
    endsWith f (lit ".json") = true -> files fs !! inboxPath f = Some c ->
    exists s, c = Raw s.

End Ipc.

(** ** Tools of the tasks and groups plugins (container/plugins) *)

Module Tools.

Import Ipc.

(** [ToolContext]: the fields the handlers read. *)
Record ToolContext := {
  chatJid : str;
  groupFolder : str;
  isMain : bool;
}.

(** [ToolResult]. *)
Record ToolResult := {
  text : str;
  isError : bool;
}.

(** The arguments of [schedule_task]; [context_mode] and
    [target_group_jid] may be absent. *)
Record ScheduleArgs := {
  arg_prompt : str;
  schedule_type : str;
  schedule_value : str;
  context_mode : option str;
  target_group_jid : option str;
}.

(** The arguments of [register_group]. *)
Record RegisterArgs := {
  arg_jid : str;
  arg_name : str;
  arg_folder : str;
  arg_trigger : str;
}.

(** What one invocation reads from its environment: [Date.now()],
    [Math.random()] and [new Date().toISOString()]. *)
Record Clock := {
  now : Z;
  random : list nat;
  iso : str;
}.

Definition is_digit (c : ascii) : bool := (48 <=? code c) && (code c <=? 57).

Fixpoint digits_value (acc : Z) (s : str) : Z :=
  match s with
  | c :: s' => if is_digit c then digits_value (10 * acc + (code c - 48)) s' else acc
  | [] => acc
  end.

(** [parseInt(s, 10)]: [None] is [NaN]. *)
Definition parseInt (s : str) : option Z :=
  let s := trimStart s in
  let '(neg, s) :=
    match s with
    | c :: s' =>
        if ascii_eqb c (ascii_of_N 45) then (true, s')
        else if ascii_eqb c (ascii_of_N 43) then (false, s')
        else (false, s)
    | [] => (false, s)
    end in
  match s with
  | c :: _ =>
      if is_digit c
      then Some (if neg then - digits_value 0 s else digits_value 0 s)
      else None
  | [] => None
  end.

Section Handlers.

(** [CronExpressionParser.parse(v)] returns, and [new Date(v).getTime()] is
    a number. *)
Variable cronValid : str -> bool.
Variable dateValid : str -> bool.

Definition error_result (t : str) : ToolResult := {| text := t; isError := true |}.
Definition ok_result (t : str) : ToolResult := {| text := t; isError := false |}.

(** The validation at the head of the [schedule_task] handler: the error
    text, if any. *)
Definition validateSchedule (scheduleType scheduleValue : str) : option str :=
  if str_eqb scheduleType (lit "cron") then
    if cronValid scheduleValue then None
    else Some (lit "Invalid cron: " ++ [DQUOTE] ++ scheduleValue ++ [DQUOTE] ++ lit ".")
  else if str_eqb scheduleType (lit "interval") then
    match parseInt scheduleValue with
    | Some ms =>
        if ms <=? 0
        then Some (lit "Invalid interval: " ++ [DQUOTE] ++ scheduleValue ++ [DQUOTE] ++ lit ".")
        else None
    | None => Some (lit "Invalid interval: " ++ [DQUOTE] ++ scheduleValue ++ [DQUOTE] ++ lit ".")
    end
  else if str_eqb scheduleType (lit "once") then
    if dateValid scheduleValue then None
    else Some (lit "Invalid timestamp: " ++ [DQUOTE] ++ scheduleValue ++ [DQUOTE] ++ lit ".")
  else None.

(** [ctx.isMain && args.target_group_jid ? args.target_group_jid : ctx.chatJid]. *)
Definition targetJid (args : ScheduleArgs) (ctx : ToolContext) : str :=
  match target_group_jid args with
  | Some j => if isMain ctx && truthy_str j then j else chatJid ctx
  | None => chatJid ctx
  end.

Definition scheduleTaskDoc (args : ScheduleArgs) (ctx : ToolContext) (clk : Clock) : json :=
  JObj [
    (lit "type", JStr (lit "schedule_task"));
    (lit "prompt", JStr (arg_prompt args));
    (lit "schedule_type", JStr (schedule_type args));
    (lit "schedule_value", JStr (schedule_value args));
    (lit "context_mode",
      JStr (match context_mode args with
            | Some m => if truthy_str m then m else lit "group"
            | None => lit "group"
            end));
    (lit "targetJid", JStr (targetJid args ctx));
    (lit "createdBy", JStr (groupFolder ctx));
    (lit "timestamp", JStr (iso clk))
  ].

(** The handler of [schedule_task]. *)
Definition scheduleTask (args : ScheduleArgs) (ctx : ToolContext) (clk : Clock) (fs : Fs)
  : Fs * ToolResult :=
  let scheduleType := schedule_type args in
  let scheduleValue := schedule_value args in
  match validateSchedule scheduleType scheduleValue with
  | Some msg => (fs, error_result msg)
  | None =>
      let '(fs, filename) :=
        pluginWriteIpcFile (now clk) (random clk) TASKS_DIR (scheduleTaskDoc args ctx clk) fs in
      (fs, ok_result (lit "Task scheduled (" ++ filename ++ lit "): "
                        ++ scheduleType ++ lit " - " ++ scheduleValue))
  end.

Definition registerGroupDoc (args : RegisterArgs) (clk : Clock) : json :=
  JObj [
    (lit "type", JStr (lit "register_group"));
    (lit "jid", JStr (arg_jid args));
    (lit "name", JStr (arg_name args));
    (lit "folder", JStr (arg_folder args));
    (lit "trigger", JStr (arg_trigger args));
    (lit "timestamp", JStr (iso clk))
  ].

(** The handler of [register_group]. *)
Definition registerGroup (args : RegisterArgs) (ctx : ToolContext) (clk : Clock) (fs : Fs)
  : Fs * ToolResult :=
  if negb (isMain ctx) then
    (fs, error_result (lit "Only the main group can register new groups."))
  else
    let '(fs, _) :=
      pluginWriteIpcFile (now clk) (random clk) TASKS_DIR (registerGroupDoc args clk) fs in
    (fs, ok_result (lit "Group " ++ [DQUOTE] ++ arg_name args ++ [DQUOTE]
                      ++ lit " registered. It will start receiving messages immediately.")).

(** [taskActionTool(action, ...)]: the handlers of [pause_task],
    [resume_task] and [cancel_task]. *)
Definition taskAction (action : str) (task_id : str) (ctx : ToolContext) (clk : Clock) (fs : Fs)
  : Fs * ToolResult :=
  let '(fs, _) :=
    pluginWriteIpcFile (now clk) (random clk) TASKS_DIR
      (JObj [
         (lit "type", JStr (action ++ lit "_task"));
         (lit "taskId", JStr task_id);
         (lit "groupFolder", JStr (groupFolder ctx));
         (lit "isMain", JBool (isMain ctx));
         (lit "timestamp", JStr (iso clk))
       ]) fs in
  (fs, ok_result (lit "Task " ++ task_id ++ lit " " ++ action ++ lit " requested.")).

End Handlers.

(** *** Vocabulary of the properties *)

(** The arguments [args] with [target_group_jid] replaced. *)
Definition withTarget (t : option str) (args : ScheduleArgs) : ScheduleArgs :=
  {| arg_prompt := arg_prompt args; schedule_type := schedule_type args;
     schedule_value := schedule_value args; context_mode := context_mode args;
     target_group_jid := t |}.

(** The file holds a document whose field [k] is the string [v]. *)
Definition holdsField (c : content) (k v : str) : Prop :=
  exists doc : json, c = Doc doc /\ property doc k = Some (Some (JStr v)).

End Tools.

(** ** Dependency order of plugins (src/plugins/registry.ts) *)

Module Registry.

Inductive Target := host | container | both.

(** [PluginManifest]. *)
Record PluginManifest := {
  name : str;
  version : str;
  target : Target;
  dependencies : list str;
  main : str;
}.

(** An element of the array [discover()] returns. *)
Record Discovered := {
  manifest : PluginManifest;
  dir : str;
}.

Inductive Outcome (A : Type) :=
| Done (a : A)
| Throw (msg : str)
| OutOfFuel.

Arguments Done {A} a.
Arguments Throw {A} msg.
Arguments OutOfFuel {A}.

(** The text of the error raised on a back edge. *)
Definition circular (n : str) : str :=
  lit "Circular plugin dependency detected involving " ++ [DQUOTE] ++ n ++ [DQUOTE].

(** The three locals of [topologicalSort] that [visit] updates. *)
Record Dfs := {
  visited : gset str;
  visiting : gset str;
  sorted : list Discovered;
}.

(** [new Map(plugins.map((p) => [p.manifest.name, p]))]: of two plugins of
    one name the later is kept. *)
Definition mkByName (plugins : list Discovered) : gmap str Discovered :=
  fold_left (fun m p => <[ name (manifest p) := p ]> m) plugins ∅.

(** A [for ... of] loop over names that stops at the first throw. *)
Fixpoint forEach (body : str -> Dfs -> Outcome Dfs) (l : list str) (st : Dfs)
  : Outcome Dfs :=
  match l with
  | [] => Done st
  | n :: rest =>
      match body n st with
      | Done st' => forEach body rest st'
      | other => other
      end
  end.

(** The closure [visit].  Its recursion follows the dependency graph, so it
    runs on fuel: one unit per nested call. *)
Fixpoint visit (byName : gmap str Discovered) (fuel : nat) (n : str) (st : Dfs)
  : Outcome Dfs :=
  match fuel with
  | O => OutOfFuel
  | S fuel' =>
      if decide (n ∈ visited st) then Done st
      else if decide (n ∈ visiting st) then Throw (circular n)
      else match byName !! n with
           | None => Done st
           | Some entry =>
               let st1 := {| visited := visited st;
                             visiting := {[ n ]} ∪ visiting st;
                             sorted := sorted st |} in
               match forEach (visit byName fuel') (dependencies (manifest entry)) st1 with
               | Done st2 =>
                   Done {| visited := {[ n ]} ∪ visited st2;
                           visiting := visiting st2 ∖ {[ n ]};
                           sorted := sorted st2 ++ [entry] |}
               | other => other
               end
           end
  end.

(** The names of a list of plugins, in order. *)
Definition names (l : list Discovered) : list str := map (fun p => name (manifest p)) l.

(** [visited], [visiting] and [sorted] as [topologicalSort] makes them. *)
Definition start : Dfs := {| visited := ∅; visiting := ∅; sorted := [] |}.

(** [topologicalSort(plugins)]: [for (const p of plugins) visit(p.manifest.name)].
    A nested call of [visit] puts a new name into [visiting], so one unit
    of fuel per plugin and one more suffice. *)
Definition topologicalSort (plugins : list Discovered) : Outcome (list Discovered) :=
  match forEach (visit (mkByName plugins) (S (length plugins))) (names plugins) start with
  | Done st => Done (sorted st)
  | Throw msg => Throw msg
  | OutOfFuel => OutOfFuel
  end.

(** What [await import(entryPoint)] and the read of [mod.default] give: the
    import throws (with the message given), the module has no default
    export, or its default export. *)
Inductive Imported (Plugin : Type) :=
| ImportThrows (msg : str)
| NoDefault
| Default (plugin : Plugin).

Arguments ImportThrows {Plugin} msg.
Arguments NoDefault {Plugin}.
Arguments Default {Plugin} plugin.

(** What [plugin.onLoad(ctx)], raced against its timeout, does: it
    resolves in time (also when the plugin has no [onLoad]), it throws or
    rejects (with the message given), or the timeout comes first. *)
Inductive LoadResult :=
| LoadResolves
| LoadFails (msg : str)
| LoadTimesOut.

(** [`Plugin "${manifest.name}"`], the head of the errors of [loadPlugin]. *)
Definition pluginLabel (n : str) : str := lit "Plugin " ++ [DQUOTE] ++ n ++ [DQUOTE].

Section Loading.

(** A loaded module's default export, opaque here. *)
Variable Plugin : Type.

Variable importModule : str -> Imported Plugin.

Variable onLoad : Plugin -> LoadResult.

(** The registry: [plugins], [loadOrder] and the ['plugin:loaded'] events
    emitted. *)
Record Loaded := {
  plugins : gmap str (Plugin * Discovered);
  loadOrder : list str;
  emitted : list str;
}.

(** [fs.existsSync(p)] for a resolved path: a file, or a directory that
    was made. *)
Definition exists_at (p : str) (fs : Ipc.Fs) : bool :=
  bool_decide (is_Some (Ipc.files fs !! p)) || bool_decide (p ∈ Ipc.dirs fs).

(** [loadPlugin(manifest, dir)] against the files [fs]. *)
Definition loadPlugin (fs : Ipc.Fs) (p : Discovered) (r : Loaded) : Outcome Loaded :=
  let m := manifest p in
  if decide (is_Some (plugins r !! name m)) then Done r
  else
    let base := Path.resolve (Ipc.cwd fs) (dir p) in
    let entryPoint := Path.resolve2 (Ipc.cwd fs) (dir p) (main m) in
    if negb (startsWith entryPoint (base ++ [Path.SLASH])) && negb (str_eqb entryPoint base)
    then Throw (pluginLabel (name m) ++ lit ": entry point escapes plugin directory: " ++ main m)
    else if negb (exists_at entryPoint fs)
    then Throw (pluginLabel (name m) ++ lit ": entry point not found: " ++ main m)
    else match importModule entryPoint with
         | ImportThrows msg => Throw msg
         | NoDefault => Throw (pluginLabel (name m) ++ lit ": no default export")
         | Default plugin =>
             match onLoad plugin with
             | LoadResolves =>
                 Done {| plugins := <[ name m := (plugin, p) ]> (plugins r);
                         loadOrder := loadOrder r ++ [name m];
                         emitted := emitted r ++ [name m] |}
             | LoadFails msg => Throw msg
             | LoadTimesOut =>
                 Throw (pluginLabel (name m) ++ lit " onLoad() timed out after 30000ms")
             end
         end.

Fixpoint loadEach (fs : Ipc.Fs) (l : list Discovered) (r : Loaded) : Outcome Loaded :=
  match l with
  | [] => Done r
  | p :: rest =>
      match loadPlugin fs p r with
      | Done r' => loadEach fs rest r'
      | other => other
      end
  end.

(** [loadAll()], given what [discover()] found.  The registry after the
    call is returned next to the outcome: a throw leaves what was loaded
    before it. *)
Fixpoint loadEachState (fs : Ipc.Fs) (l : list Discovered) (r : Loaded) : Loaded :=
  match l with
  | [] => r
  | p :: rest =>
      match loadPlugin fs p r with
      | Done r' => loadEachState fs rest r'
      | _ => r
      end
  end.

Definition loadAll (fs : Ipc.Fs) (discovered : list Discovered) (r : Loaded)
  : Loaded * Outcome unit :=
  match topologicalSort discovered with
  | Done sorted =>
      (loadEachState fs sorted r,
       match loadEach fs sorted r with
       | Done _ => Done tt
       | Throw msg => Throw msg
       | OutOfFuel => OutOfFuel
       end)
  | Throw msg => (r, Throw msg)
  | OutOfFuel => (r, OutOfFuel)
  end.

End Loading.

(** *** Vocabulary of the properties *)

(** The plugin [a] of the batch lists [b] among its dependencies. *)
Definition dependsOn (byName : gmap str Discovered) (a b : str) : Prop :=
  exists e, byName !! a = Some e /\ b ∈ dependencies (manifest e).

(** [n] lies on a cycle of the dependency graph. *)
Definition onCycle (byName : gmap str Discovered) (n : str) : Prop :=
  tc (dependsOn byName) n n.

(** Every plugin of [l] comes after those of its dependencies that name a
    plugin of the batch. *)
Definition dependenciesFirst (byName : gmap str Discovered) (l : list Discovered) : Prop :=
  forall (i : nat) (e : Discovered) (d : str),
    l !! i = Some e -> d ∈ dependencies (manifest e) -> is_Some (byName !! d) ->
    exists (j : nat) (e' : Discovered),
      (j < i)%nat /\ l !! j = Some e' /\ name (manifest e') = d.

(** What holds of the locals of [topologicalSort] between calls of
    [visit]: [sorted] holds plugins of the batch, [visited] is the set of
    their names, no name comes twice, dependencies come first, and nothing
    visited is being visited. *)
Record Inv (byName : gmap str Discovered) (st : Dfs) : Prop := {
  inv_entries : forall e, e ∈ sorted st -> byName !! name (manifest e) = Some e;
  inv_visited : forall n, n ∈ visited st <-> n ∈ names (sorted st);
  inv_nodup : NoDup (names (sorted st));
  inv_order : dependenciesFirst byName (sorted st);
  inv_disjoint : forall n, n ∈ visited st -> n ∉ visiting st;
}.

(** What a call that returns has done, for a loop body [body]: it kept
    the invariant, left [visiting] as it was, appended to [sorted], and its
    argument is visited or names no plugin of the batch. *)
Definition Returns (byName : gmap str Discovered) (body : str -> Dfs -> Outcome Dfs)
  : Prop :=
  forall n st st',
    Inv byName st -> body n st = Done st' ->
    Inv byName st' /\ visiting st' = visiting st /\
    (exists ext, sorted st' = sorted st ++ ext) /\
    (n ∈ visited st' \/ byName !! n = None).

End Registry.

(** ** The Discord channel (src/channels/discord.ts) *)

Module Discord.

Import Units.

(** The [while] loop of [splitMessage]; [chunks] is the array built so
    far.  The loop runs on fuel, one unit per iteration that cuts a chunk:
    [None] means the fuel ran out before the loop ended. *)
Fixpoint splitLoop (fuel : nat) (maxLength : nat) (remaining : ustr) (chunks : list ustr)
  : option (list ustr) :=
  match remaining with
  | [] => Some chunks
  | _ =>
      if (length remaining <=? maxLength)%nat then Some (chunks ++ [remaining])
      else
        match fuel with
        | O => None
        | S fuel' =>
            let splitAt := lastIndexOf remaining LF maxLength in
            let splitAt := if splitAt <=? 0 then Z.of_nat maxLength else splitAt in
            splitLoop fuel' maxLength
              (trimStart (slice_from (Z.to_nat splitAt) remaining))
              (chunks ++ [slice_to (Z.to_nat splitAt) remaining])
        end
  end.

(** [splitMessage(text, maxLength)] for a non-negative [maxLength]; every
    cut removes a code unit when [maxLength >= 1], so [text.length] units
    of fuel are given. *)
Definition splitMessage (text : ustr) (maxLength : nat) : option (list ustr) :=
  if (length text <=? maxLength)%nat then Some [text]
  else splitLoop (length text) maxLength text [].

(** [jid.match(/^discord:(\d+)$/)]: the digits after the prefix. *)
Definition jidToChannelId (jid : str) : option str :=
  match Ipc.strip_prefix (lit "discord:") jid with
  | Some rest =>
      match rest with
      | [] => None
      | _ => if forallb Tools.is_digit rest then Some rest else None
      end
  | None => None
  end.

(** What [client.channels.fetch(id)] gives. *)
Inductive Fetched :=
| FetchThrows
| NoChannel
| Channel (isTextBased : bool).

Section Sending.

Variable fetch : str -> Fetched.

(** [channel.send(chunk)] resolves. *)
Variable sendOk : str -> ustr -> bool.

(** The chunks delivered (channel id and text, oldest first) and the
    warnings and errors logged. *)
Record Client := {
  delivered : list (str * ustr);
  warned : list str;
}.

Definition warn (msg : str) (c : Client) : Client :=
  {| delivered := delivered c; warned := warned c ++ [msg] |}.

(** [for (const chunk of chunks) await channel.send(chunk)], inside the
    [try]: a send that throws ends the loop and is logged. *)
Fixpoint sendChunks (channelId : str) (chunks : list ustr) (c : Client) : Client :=
  match chunks with
  | [] => c
  | chunk :: rest =>
      if sendOk channelId chunk
      then sendChunks channelId rest
             {| delivered := delivered c ++ [(channelId, chunk)]; warned := warned c |}
      else warn (lit "Failed to send Discord message") c
  end.

(** [sendMessage(jid, text)]; [None] only if [splitMessage] ran out of
    fuel. *)
Definition sendMessage (jid : str) (text : ustr) (c : Client) : option Client :=
  match jidToChannelId jid with
  | None => Some (warn (lit "Cannot resolve JID to Discord channel") c)
  | Some channelId =>
      match fetch channelId with
      | FetchThrows => Some (warn (lit "Failed to send Discord message") c)
      | NoChannel | Channel false =>
          Some (warn (lit "Channel not found or not text-based") c)
      | Channel true =>
          match splitMessage text 2000 with
          | Some chunks => Some (sendChunks channelId chunks c)
          | None => None
          end
      end
  end.

End Sending.

(** *** Vocabulary of the properties *)

(** A text of white space only. *)
Definition blank (s : ustr) : Prop := Forall (fun u => is_space u = true) s.

(** The chunks, each followed by the text cut out after it. *)
Definition refill (chunks gaps : list ustr) : ustr := concat (zip_with app chunks gaps).

(** [text] is the chunks in order, with white space cut out after chunks. *)
Definition rebuilds (text : ustr) (chunks : list ustr) : Prop :=
  exists gaps : list ustr,
    length gaps = length chunks /\ Forall blank gaps /\ text = refill chunks gaps.

(** The same, with nothing cut out after the last chunk: white space is
    missing only in front of the chunks after the first. *)
Definition rebuildsInside (text : ustr) (chunks : list ustr) : Prop :=
  exists gaps : list ustr,
    length gaps = length chunks /\ Forall blank gaps /\ last gaps = Some [] /\
    text = refill chunks gaps.

End Discord.

(** ** Sample data *)

Module Samples.

Import Diagnostics Scheduler.

(** The task of the test-suite of the diagnosis. *)
Definition task1 : ScheduledTask :=
  {| id := lit "task-1"; group_folder := lit "main"; chat_jid := lit "group@g.us";
     prompt := lit "Check Wetter"; status := active; retry_count := 0;
     last_error := None; max_retries := 3 |}.

Definition errorRun (e : option str) : TaskRunLog :=
  {| task_id := lit "task-1"; run_at := lit "2024-01-01T09:00:00.000Z";
     duration_ms := 5000; run_status := run_error; result := None; run_err := e |}.

Definition worldWith (runs : list TaskRunLog) : World :=
  {| db_tasks := {[ lit "task-1" := task1 ]}; db_runs := runs; sent := []; timers := [] |}.

Definition emptyFs : Ipc.Fs :=
  {| Ipc.files := ∅; Ipc.dirs := ∅; Ipc.cwd := lit "/workspace/group" |}.

Definition otherGroup : Tools.ToolContext :=
  {| Tools.chatJid := lit "discord:42"; Tools.groupFolder := lit "family";
     Tools.isMain := false |}.

Definition noon : Tools.Clock :=
  {| Tools.now := 1700000000000; Tools.random := [1; 2; 3; 10; 35; 20; 7; 8]%nat;
     Tools.iso := lit "2023-11-14T22:13:20.000Z" |}.

Definition daily (target : option str) : Tools.ScheduleArgs :=
  {| Tools.arg_prompt := lit "Check Wetter"; Tools.schedule_type := lit "interval";
     Tools.schedule_value := lit "300000"; Tools.context_mode := None;
     Tools.target_group_jid := target |}.

Definition plugin (n : string) (deps : list string) : Registry.Discovered :=
  {| Registry.manifest :=
       {| Registry.name := lit n; Registry.version := lit "1.0.0";
          Registry.target := Registry.both; Registry.dependencies := map lit deps;
          Registry.main := lit "index.ts" |};
     Registry.dir := lit "/plugins/" ++ lit n |}.

Definition hello (at_ms : Z) (random : list nat) (text : string) : Ipc.Write :=
  {| Ipc.w_now := at_ms; Ipc.w_random := random; Ipc.w_text := lit text |}.

(** An inbox that holds one file, cut short by a crash of its writer. *)
Definition brokenInbox : Ipc.Fs :=
  {| Ipc.files := {[ Ipc.inboxPath (lit "1699999999999-zzzzzz.json") := Ipc.Raw (lit "{") ]};
     Ipc.dirs := ∅; Ipc.cwd := lit "/workspace/group" |}.

Definition timedOut : Failure :=
  {| at_time := lit "2024-01-01T09:00:00.000Z"; took := 300000;
     failure := lit "Container timed out after 300s" |}.

End Samples.


(** ** Running a task (src/task-scheduler.ts): [runTask], the callback of
       [scheduleRetry] and the body of the scheduler loop *)

Module SchedulerRun.

Import JS Diagnostics Scheduler.

(** Modelled from the spec: [getTaskById] of db.js, which is not among the
    sources.  The row stored under the id, [undefined] when there is none. *)
Definition getTaskById (tid : str) (w : World) : option ScheduledTask :=
  db_tasks w !! tid.

(** One call [deps.queue.enqueueTask(jid, id, () => runTask(task, deps))]:
    its first two arguments and the row the closure holds. *)
Record Enqueued := {
  q_jid : str;
  q_id : str;
  q_task : ScheduledTask;
}.

Definition enqueueTask (currentTask : ScheduledTask) : Enqueued :=
  {| q_jid := chat_jid currentTask; q_id := id currentTask; q_task := currentTask |}.

(** The callback [scheduleRetry] hands to [setTimeout], when it fires in
    the state [w]: what it enqueues. *)
Definition retryFired (task : ScheduledTask) (w : World) : list Enqueued :=
  match getTaskById (id task) w with
  | Some currentTask =>
      match status currentTask with
      | active | error => [enqueueTask currentTask]
      | _ => []
      end
  | None => []
  end.

(** The [for] loop of the scheduler loop over what [getDueTasks()]
    returned. *)
Definition enqueueDue (dueTasks : list ScheduledTask) (w : World) : list Enqueued :=
  flat_map
    (fun task =>
       match getTaskById (id task) w with
       | Some currentTask =>
           match status currentTask with
           | active => [enqueueTask currentTask]
           | _ => []
           end
       | None => []
       end)
    dueTasks.

(** [RegisteredGroup]: [runTask] reads its [folder]. *)
Record RegisteredGroup := {
  group_name : str;
  folder : str;
}.

(** [ContainerOutput]. *)
Record ContainerOutput := {
  out_status : RunStatus;
  out_result : option str;
  out_error : option str;
}.

(** What [runContainerAgent] did: the outputs it streamed to the callback,
    then the output it resolved with or the message of the error it
    rejected with. *)
Inductive ContainerRun :=
| Resolved (streamed : list ContainerOutput) (output : ContainerOutput)
| Rejected (streamed : list ContainerOutput) (message : str).

(** The schedule of the task: [schedule_type] and [schedule_value]. *)
Record Schedule := {
  schedule_type : str;
  schedule_value : str;
}.

(** What one run reads from the clock: [Date.now()] at its start, when
    the run is logged and when the next run is computed, and
    [new Date().toISOString()] when the run is logged. *)
Record RunClock := {
  startTime : Z;
  endTime : Z;
  endIso : str;
  scheduleTime : Z;
}.

(** The database and the calls of [updateTaskAfterRun] (task id, next run,
    summary), oldest first. *)
Record Host := {
  db : World;
  afterRun : list (str * option str * str);
}.

(** The locals [result] and [error] of [runTask], and the database. *)
Record Running := {
  r_result : option str;
  r_error : option str;
  r_world : World;
}.

(** [x || 'Unknown error'] for an optional string. *)
Definition orUnknown (x : option str) : str :=
  match x with
  | Some e => if truthy_str e then e else lit "Unknown error"
  | None => lit "Unknown error"
  end.

(** Truthiness of a [string | null]. *)
Definition truthy_opt (x : option str) : bool :=
  match x with
  | Some s => truthy_str s
  | None => false
  end.

(** The callback [runTask] gives to [runContainerAgent], for one streamed
    output; [deps.sendMessage] is taken to resolve. *)
Definition onOutput (task : ScheduledTask) (streamedOutput : ContainerOutput) (r : Running)
  : Running :=
  let r1 :=
    match out_result streamedOutput with
    | Some text =>
        if truthy_str text
        then {| r_result := Some text;
                r_error := r_error r;
                r_world := sendMessage (chat_jid task) text (r_world r) |}
        else r
    | None => r
    end in
  match out_status streamedOutput with
  | run_error =>
      {| r_result := r_result r1;
         r_error := Some (orUnknown (out_error streamedOutput));
         r_world := r_world r1 |}
  | run_success => r1
  end.

(** The [try] of [runTask] around [runContainerAgent]. *)
Definition contained (task : ScheduledTask) (run : ContainerRun) (w : World) : Running :=
  let start := {| r_result := None; r_error := None; r_world := w |} in
  match run with
  | Resolved streamed output =>
      let r := fold_left (fun r o => onOutput task o r) streamed start in
      match out_status output with
      | run_error =>
          {| r_result := r_result r;
             r_error := Some (orUnknown (out_error output));
             r_world := r_world r |}
      | run_success =>
          if truthy_opt (out_result output)
          then {| r_result := out_result output; r_error := r_error r;
                  r_world := r_world r |}
          else r
      end
  | Rejected streamed message =>
      let r := fold_left (fun r o => onOutput task o r) streamed start in
      {| r_result := r_result r; r_error := Some message; r_world := r_world r |}
  end.

(** What the computation of the next run may throw: the error of the cron
    parser, and the [RangeError] of [toISOString] on an invalid date. *)
Inductive Raised := CronParseError | RangeError.

Section Running.

(** [CronExpressionParser.parse(v, { tz }).next().toISOString()]; [None]
    when the parser throws. *)
Variable cronNext : str -> option str.

(** [new Date(t).toISOString()]; [None] when it throws a [RangeError]. *)
Variable toISOString : Z -> option str.

(** The next run of the regular schedule: [inl] is what is thrown,
    [inr None] is [null] (a task that runs once). *)
Definition nextRunOf (sched : Schedule) (now : Z) : Raised + option str :=
  if str_eqb (schedule_type sched) (lit "cron") then
    match cronNext (schedule_value sched) with
    | Some iso => inr (Some iso)
    | None => inl CronParseError
    end
  else if str_eqb (schedule_type sched) (lit "interval") then
    match Tools.parseInt (schedule_value sched) with
    | Some ms =>
        match toISOString (now + ms) with
        | Some iso => inr (Some iso)
        | None => inl RangeError
        end
    | None => inl RangeError
    end
  else inr None.

(** [error ? `Error: ${error}` : result ? result.slice(0, 200) : 'Completed']. *)
Definition resultSummary (result error : option str) : str :=
  if truthy_opt error then lit "Error: " ++ default [] error
  else if truthy_opt result then slice_to 200 (default [] result)
  else lit "Completed".

(** [runTask(task, deps)] for a task whose schedule is [sched], with the
    groups [deps.registeredGroups()] returns, the run of the container
    [run], and the clock.  The second component is what the function
    throws, if it does.  The snapshot of the tasks written for the
    container, the directory made for the group and the idle timer act on
    nothing the result holds. *)
Definition runTask (task : ScheduledTask) (sched : Schedule)
  (groups : list RegisteredGroup) (run : ContainerRun) (clk : RunClock) (h : Host)
  : Host * option Raised :=
  match find (fun g => str_eqb (folder g) (group_folder task)) groups with
  | None =>
      let err := lit "Group not found: " ++ group_folder task in
      let w := logTaskRun {| task_id := id task; run_at := endIso clk;
                             duration_ms := endTime clk - startTime clk;
                             run_status := run_error; result := None;
                             run_err := Some err |} (db h) in
      ({| db := handleTaskFailure task err w; afterRun := afterRun h |}, None)
  | Some group =>
      let r := contained task run (db h) in
      let w := logTaskRun {| task_id := id task; run_at := endIso clk;
                             duration_ms := endTime clk - startTime clk;
                             run_status :=
                               if truthy_opt (r_error r) then run_error else run_success;
                             result := r_result r;
                             run_err := r_error r |} (r_world r) in
      let w := match r_error r with
               | Some e =>
                   if truthy_str e then handleTaskFailure task e w
                   else resetTaskRetryCount (id task) w
               | None => resetTaskRetryCount (id task) w
               end in
      match nextRunOf sched (scheduleTime clk) with
      | inl thrown => ({| db := w; afterRun := afterRun h |}, Some thrown)
      | inr nextRun =>
          ({| db := w;
              afterRun := afterRun h
                ++ [(id task, nextRun, resultSummary (r_result r) (r_error r))] |}, None)
      end
  end.

End Running.

(** *** Vocabulary of the properties *)

(** The error the callback leaves after the streamed outputs: that of the
    last output with status ['error']. *)
Definition lastStreamedError (streamed : list ContainerOutput) : option str :=
  match find (fun o => RunStatus_eqb (out_status o) run_error) (rev streamed) with
  | Some o => Some (orUnknown (out_error o))
  | None => None
  end.

End SchedulerRun.

(** ** The agent runner (container/agent-runner): the close sentinel, one
       poll of the inbox, and the start of [main] *)

Module Runner.

Import JS Ipc.

Definition IPC_INPUT_CLOSE_SENTINEL : str := Path.join IPC_INPUT_DIR (lit "_close").

(** [fs.existsSync(p)]: [p] names a file, or a directory that was made. *)
Definition existsSync (p : str) (fs : Fs) : bool :=
  bool_decide (is_Some (files fs !! Path.resolve (cwd fs) p))
  || bool_decide (Path.resolve (cwd fs) p ∈ dirs fs).

(** [shouldClose()]: the answer and the file system after it.  The error
    of [unlinkSync] (the sentinel is a directory) is ignored. *)
Definition shouldClose (fs : Fs) : bool * Fs :=
  if existsSync IPC_INPUT_CLOSE_SENTINEL fs
  then (true, unlinkSync IPC_INPUT_CLOSE_SENTINEL fs)
  else (false, fs).

(** What one round of [poll] in [waitForIpcMessage] does: it resolves with
    [null], resolves with the joined messages, or sets the timer for the
    next round. *)
Inductive Polled :=
| Closed
| Message (text : str)
| Again.

(** The outcome of a round, the lines logged and the file system. *)
Record Round := {
  outcome : Polled;
  lines : list str;
  after : Fs;
}.

(** [ContainerInput], as [main] parsed it from stdin: the fields read
    before the first query and by the hooks.  [trustConfig] is the
    [ownerId] it holds, if it is there. *)
Record ContainerInput := {
  prompt : str;
  isScheduledTask : bool;
  senderIds : option (list str);
  trustConfig : option str;
}.


Section Joining.

(** The string [Array.prototype.join] makes of a message that is not
    [null] or [undefined]. *)
Variable toText : json -> str.

(** [poll], one round. *)
Definition poll (fs : Fs) : Round :=
  let '(close, fs) := shouldClose fs in
  if close then {| outcome := Closed; lines := []; after := fs |}
  else
    let d := drainIpcInput fs in
    match messages d with
    | [] => {| outcome := Again; lines := logged d; after := drained d |}
    | ms => {| outcome := Message (join [LF] (map toText ms));
               lines := logged d; after := drained d |}
    end.


End Joining.

(** *** Vocabulary of the properties *)


(** [k] is the path of a [.json] file directly in the inbox. *)
Definition inboxJson (k : str) : Prop :=
  exists f, k = inboxPath f /\ endsWith f (lit ".json") = true /\ Path.slashless f.

End Runner.

(** ** Archive names (container/agent-runner): [sanitizeFilename],
       [generateFallbackName] and the path the pre-compact hook writes *)

Module Archive.

Import JS.

Definition DASH : ascii := ascii_of_N 45.

(** The class [[a-z0-9]]. *)
Definition is_az09 (c : ascii) : bool :=
  ((97 <=? code c) && (code c <=? 122)) || ((48 <=? code c) && (code c <=? 57)).

(** [s.replace(/[^a-z0-9]+/g, '-')]: every maximal run of characters
    outside the class becomes one dash.  [inRun] says that the character
    before [s] belongs to such a run. *)
Fixpoint dashRuns (inRun : bool) (s : str) : str :=
  match s with
  | [] => []
  | c :: s' =>
      if is_az09 c then c :: dashRuns false s'
      else if inRun then dashRuns true s'
      else DASH :: dashRuns true s'
  end.

Fixpoint dropDashes (s : str) : str :=
  match s with
  | c :: s' => if ascii_eqb c DASH then dropDashes s' else s
  | [] => []
  end.

(** [s.replace(/^-+|-+$/g, '')]: the dashes at the start and at the end
    go. *)
Definition trimDashes (s : str) : str := rev (dropDashes (rev (dropDashes s))).

(** [sanitizeFilename(summary)].  Lower-casing is the ASCII one; every byte
    of a character outside ASCII is outside the class, as the character is
    in the source, and a run of them gives one dash either way.  (Of the
    characters outside ASCII only U+212A and U+0130 lower-case to an ASCII
    letter; summaries that hold them are not modelled.) *)
Definition sanitizeFilename (summary : str) : str :=
  slice_to 50 (trimDashes (dashRuns false (toLowerCase summary))).

(** [s.padStart(2, '0')]. *)
Definition padStart2 (s : str) : str :=
  repeat (ascii_of_N 48) (2 - length s) ++ s.

(** [generateFallbackName()], for what [getHours()] and [getMinutes()]
    give. *)
Definition generateFallbackName (hours minutes : Z) : str :=
  lit "conversation-" ++ padStart2 (dec hours) ++ padStart2 (dec minutes).

(** [iso.split('T')[0]]. *)
Fixpoint beforeT (iso : str) : str :=
  match iso with
  | c :: s' => if ascii_eqb c (ascii_of_N 84) then [] else c :: beforeT s'
  | [] => []
  end.

Definition conversationsDir : str := lit "/workspace/group/conversations".

(** The name and the path of the file the pre-compact hook writes the
    archive to: [summary] is what [getSessionSummary] returned, [iso] is
    [new Date().toISOString()]. *)
Definition archiveName (summary : option str) (iso : str) (hours minutes : Z) : str :=
  let name :=
    match summary with
    | Some s => if truthy_str s then sanitizeFilename s
                else generateFallbackName hours minutes
    | None => generateFallbackName hours minutes
    end in
  beforeT iso ++ lit "-" ++ name ++ lit ".md".

Definition archivePath (summary : option str) (iso : str) (hours minutes : Z) : str :=
  Path.join conversationsDir (archiveName summary iso hours minutes).

(** *** Vocabulary of the properties *)

(** An ASCII letter or digit. *)
Definition alnum (c : ascii) : Prop := is_az09 (lower_char c) = true.

End Archive.

(** ** Delegated trust and the guards of the tools (container/agent-runner):
       [loadTrustedUsers], [getTrustLevel] and the pre-tool-use hooks *)

Module Trust.

Import JS Runner.

(** [TrustedUser]: the fields that are read.  [level] is the string the
    file holds. *)
Record TrustedUser := {
  userId : str;
  userName : str;
  level : str;
  expiresAt : option str;
}.

(** What a hook returns: [{}], or an output whose decision is ['block']. *)
Inductive Verdict :=
| Pass
| Block (reason : str).

(** [levels], and [levels.indexOf(x)]. *)
Definition levels : list str :=
  [lit "owner"; lit "admin"; lit "operate"; lit "read"; lit "none"].

Fixpoint indexFrom (i : Z) (l : list str) (x : str) : Z :=
  match l with
  | [] => -1
  | y :: l' => if str_eqb y x then i else indexFrom (i + 1) l' x
  end.

Definition indexOf (l : list str) (x : str) : Z := indexFrom 0 l x.

Definition blockedPrefixes : list str :=
  [lit "/workspace/config/"; lit "/workspace/global/"; lit "/home/node/.claude/"].

Section Levels.

(** [new Date(s).getTime()]; [None] is [NaN]. *)
Variable dateValue : str -> option Z.

(** The users of the file [TRUSTED_USERS_PATH] as [JSON.parse] gives them;
    [None] when the file is missing, cannot be parsed or holds no users. *)
Variable config : option (list TrustedUser).

(** [new Date()], as a number.  [getTrustLevel] reads the file and the
    clock anew at every call; the file and the clock are taken not to
    change between the calls of one run of a hook. *)
Variable now : Z.

(** The filter of [loadTrustedUsers]. *)
Definition unexpired (u : TrustedUser) : bool :=
  match expiresAt u with
  | Some e =>
      if truthy_str e
      then match dateValue e with
           | Some t => now <? t
           | None => false
           end
      else true
  | None => true
  end.

Definition loadTrustedUsers : list TrustedUser :=
  match config with
  | Some users => List.filter unexpired users
  | None => []
  end.

Definition getTrustLevel (user ownerId : str) : str :=
  if str_eqb user ownerId then lit "owner"
  else match find (fun u => str_eqb (userId u) user) loadTrustedUsers with
       | Some entry => level entry
       | None => lit "none"
       end.

(** [effectiveLevel] of the two guards: the lowest level among the
    senders, ['none'] without senders. *)
Definition effectiveLevel (senders : option (list str)) (ownerId : str) : str :=
  match senders with
  | Some ids =>
      match ids with
      | [] => lit "none"
      | _ :: _ =>
          fold_left
            (fun lowest id =>
               let level := getTrustLevel id ownerId in
               if indexOf levels lowest <? indexOf levels level then level else lowest)
            ids (lit "owner")
      end
  | None => lit "none"
  end.

(** Whether some pattern of [OWNER_ONLY_PATTERNS], [READ_SAFE_PATTERNS],
    [OPERATE_PATTERNS] and [DESTRUCTIVE_PATTERNS] matches the command. *)
Variable ownerOnly : str -> bool.
Variable readSafe : str -> bool.
Variable operateOk : str -> bool.
Variable destructive : str -> bool.

(** The hook [createOwnerGuardHook(containerInput)] makes, for the command
    of a Bash call. *)
Definition ownerGuard (input : ContainerInput) (command : option str) : Verdict :=
  match command with
  | None => Pass
  | Some command =>
      if negb (truthy_str command) then Pass
      else match trustConfig input with
      | None => Pass
      | Some ownerId =>
          if isScheduledTask input then Pass
          else
            let effective := effectiveLevel (senderIds input) ownerId in
            if str_eqb effective (lit "owner") then Pass
            else if ownerOnly command then
              Block (lit "🚫 Blocked: Dieser Befehl ist ausschließlich dem Owner vorbehalten (Usermanagement, Firewall, Secrets). Keine Delegation möglich.")
            else if str_eqb effective (lit "admin") then Pass
            else if str_eqb effective (lit "operate") then
              if operateOk command || readSafe command then Pass
              else if destructive command then
                Block (lit "🚫 Blocked: Dein Trust-Level (operate) erlaubt diesen destructive Befehl nicht. Frag Christian um Freigabe.")
              else Pass
            else if str_eqb effective (lit "read") then
              if readSafe command then Pass
              else Block (lit "🚫 Blocked: Dein Trust-Level (read) erlaubt nur lesende Befehle. Frag Christian um erweiterte Rechte.")
            else if destructive command then
              Block (lit "🚫 Blocked: Dieser Befehl erfordert Owner-Berechtigung (Discord ID: "
                     ++ ownerId
                     ++ lit "). Nur Christian kann destructive/sensitive Befehle freigeben.")
            else Pass
      end
  end.

(** The hook [createFileGuardHook(containerInput)] makes, for the
    [file_path] of a Write or Edit call, in a process whose working
    directory is [cwd]. *)
Definition fileGuard (cwd : str) (input : ContainerInput) (filePath : option str) : Verdict :=
  match filePath with
  | None => Pass
  | Some filePath =>
      if negb (truthy_str filePath) then Pass
      else match trustConfig input with
      | None => Pass
      | Some ownerId =>
          if isScheduledTask input then Pass
          else
            let effective := effectiveLevel (senderIds input) ownerId in
            if str_eqb effective (lit "owner") || str_eqb effective (lit "admin") then Pass
            else if str_eqb effective (lit "none") || str_eqb effective (lit "read") then
              Block (lit "🚫 Blocked: Dein Trust-Level (" ++ effective
                     ++ lit ") erlaubt keine Dateiänderungen.")
            else
              let resolved := Path.resolve cwd filePath in
              match find (fun prefix => startsWith resolved prefix) blockedPrefixes with
              | Some prefix =>
                  Block (lit "🚫 Blocked: Schreibzugriff auf " ++ prefix
                         ++ lit " erfordert Admin- oder Owner-Berechtigung.")
              | None =>
                  if negb (startsWith resolved (lit "/workspace/group/")) then
                    Block (lit "🚫 Blocked: Operate-Level erlaubt nur Schreibzugriff innerhalb von /workspace/group/.")
                  else Pass
              end
      end
  end.

End Levels.

(** *** Vocabulary of the properties *)

(** The hook blocks the call. *)
Definition blocked (v : Verdict) : Prop := exists reason, v = Block reason.

(** The rank of a level: its place in [levels], and 0 for a string that
    is not in the list. *)
Definition rank (l : str) : Z := Z.max 0 (indexOf levels l).

End Trust.

(** ** The event bus ([PluginEventBus], in src/plugins/registry.ts) *)

Module Events.

Import JS.

Section Bus.

(** Handlers are compared by identity. *)
Context {Handler : Type} `{EqDecision Handler}.

(** [Map<string, Set<Handler>>]: a [Set] holds a handler once and keeps
    the order in which handlers were added. *)
Local Abbreviation Handlers := (gmap str (list Handler)).

(** [set.add(handler)] and [set.delete(handler)]. *)
Definition set_add (handler : Handler) (set : list Handler) : list Handler :=
  if decide (handler ∈ set) then set else set ++ [handler].

Definition set_delete (handler : Handler) (set : list Handler) : list Handler :=
  filter (fun h => h <> handler) set.

Definition on (event : str) (handler : Handler) (handlers : Handlers) : Handlers :=
  match handlers !! event with
  | Some set => <[ event := set_add handler set ]> handlers
  | None => <[ event := set_add handler [] ]> handlers
  end.

Definition off (event : str) (handler : Handler) (handlers : Handlers) : Handlers :=
  match handlers !! event with
  | Some set =>
      let set := set_delete handler set in
      if (length set =? 0)%nat then delete event handlers
      else <[ event := set ]> handlers
  | None => handlers
  end.

Definition clear (handlers : Handlers) : Handlers := ∅.

Definition listenerCount (event : str) (handlers : Handlers) : nat :=
  match handlers !! event with
  | Some set => length set
  | None => 0%nat
  end.

(** What [emit] did: the handlers it called, in order, and those whose
    failure it logged. *)
Record Emitted := {
  called : list Handler;
  failedHandlers : list Handler;
}.

(** [emit(event, data)]; [settles handler] says that the handler returns
    within the timeout: one that throws or times out is logged, and the
    others are called all the same. *)
Definition emit (settles : Handler -> bool) (event : str) (handlers : Handlers) : Emitted :=
  match handlers !! event with
  | None => {| called := []; failedHandlers := [] |}
  | Some set =>
      {| called := set;
         failedHandlers := List.filter (fun h => negb (settles h)) set |}
  end.

(** *** Vocabulary of the properties *)

(** No event is kept with an empty set, and no set holds a handler twice. *)
Definition tidy (handlers : Handlers) : Prop :=
  forall event set, handlers !! event = Some set -> set <> [] /\ NoDup set.

(** The handler is registered for the event. *)
Definition registered (event : str) (handler : Handler) (handlers : Handlers) : Prop :=
  exists set, handlers !! event = Some set /\ handler ∈ set.

(** One call of [on] or [off]. *)
Inductive Call :=
| On (event : str) (handler : Handler)
| Off (event : str) (handler : Handler)
| Clear.

Definition perform (handlers : Handlers) (c : Call) : Handlers :=
  match c with
  | On event handler => on event handler handlers
  | Off event handler => off event handler handlers
  | Clear => clear handlers
  end.

End Bus.

End Events.

(** ** The life of loaded plugins (src/plugins/registry.ts): [unloadPlugin],
       [unloadAll], [get], [getAll] *)

Module Lifecycle.

Import JS Registry.

(** What the call [loaded.plugin.onUnload()] and the race of its result
    against the timeout do.  The call returns a value or a promise that
    resolves in time (so also for a plugin without [onUnload]); it returns
    a promise that rejects (with the message given); the timeout comes
    first; or the call itself throws (with the message given), which
    happens while the argument of [Promise.race] is built, before [.catch]
    is attached. *)
Inductive UnloadResult :=
| UnloadResolves
| UnloadRejects (msg : str)
| UnloadTimesOut
| UnloadThrows (msg : str).

(** The line [logger.warn] gets when the race rejects with [msg]. *)
Definition unloadWarning (n msg : str) : str :=
  pluginLabel n ++ lit " unload error (continuing): " ++ msg.

(** The message of the timeout of [unloadPlugin]. *)
Definition unloadTimeout (n : str) : str :=
  pluginLabel n ++ lit " onUnload() timed out after 10000ms".

Section Unloading.

Variable Plugin : Type.

Variable onUnload : Plugin -> UnloadResult.

(** What unloading has done: the registry, the ['plugin:unloaded'] events
    emitted and the warnings logged, oldest first. *)
Record Unloaded := {
  registry : Loaded Plugin;
  unloadedEvents : list str;
  unloadWarnings : list str;
}.

(** The end of [unloadPlugin(name)], after the race: the plugin goes from
    the map and from [loadOrder], and the event is emitted. *)
Definition removed (n : str) (warnings : list str) (u : Unloaded) : Unloaded :=
  {| registry :=
       {| plugins := delete n (plugins Plugin (registry u));
          loadOrder := filter (fun x => x <> n) (loadOrder Plugin (registry u));
          emitted := emitted Plugin (registry u) |};
     unloadedEvents := unloadedEvents u ++ [n];
     unloadWarnings := unloadWarnings u ++ warnings |}.

(** [unloadPlugin(name)]: the state after the call and, when the call
    rejects, the message of its error. *)
Definition unloadPlugin (n : str) (u : Unloaded) : Unloaded * option str :=
  match plugins Plugin (registry u) !! n with
  | None => (u, None)
  | Some (plugin, _) =>
      match onUnload plugin with
      | UnloadResolves => (removed n [] u, None)
      | UnloadRejects msg => (removed n [unloadWarning n msg] u, None)
      | UnloadTimesOut => (removed n [unloadWarning n (unloadTimeout n)] u, None)
      | UnloadThrows msg => (u, Some msg)
      end
  end.

(** The loop of [unloadAll()]: a call that rejects ends it. *)
Fixpoint unloadEach (l : list str) (u : Unloaded) : Unloaded * option str :=
  match l with
  | [] => (u, None)
  | n :: rest =>
      match unloadPlugin n u with
      | (u', None) => unloadEach rest u'
      | thrown => thrown
      end
  end.

(** [unloadAll()]: over a reversed copy of [loadOrder]. *)
Definition unloadAll (r : Loaded Plugin) : Unloaded * option str :=
  unloadEach (rev (loadOrder Plugin r))
    {| registry := r; unloadedEvents := []; unloadWarnings := [] |}.

(** [get(name)]. *)
Definition get (n : str) (r : Loaded Plugin) : option Plugin :=
  fst <$> plugins Plugin r !! n.

(** [getAll()]: [None] is the [TypeError] of reading [plugin] of
    [undefined]. *)
Definition getAll (r : Loaded Plugin) : option (list Plugin) :=
  mapM (fun n => get n r) (loadOrder Plugin r).

(** *** Vocabulary of the properties *)

Definition emptyRegistry : Loaded Plugin :=
  {| plugins := ∅; loadOrder := []; emitted := [] |}.

(** [loadOrder] names every loaded plugin once, and nothing else. *)
Definition consistent (r : Loaded Plugin) : Prop :=
  NoDup (loadOrder Plugin r) /\
  forall n, n ∈ loadOrder Plugin r <-> is_Some (plugins Plugin r !! n).

(** The call [onUnload()] of the plugin loaded under [n] throws. *)
Definition throwsAt (r : Loaded Plugin) (n : str) (msg : str) : Prop :=
  exists plugin d, plugins Plugin r !! n = Some (plugin, d) /\
                   onUnload plugin = UnloadThrows msg.

(** The warning logged when the plugin loaded under [n] is unloaded, if
    one is. *)
Definition warningAt (r : Loaded Plugin) (n : str) : list str :=
  match plugins Plugin r !! n with
  | Some (plugin, _) =>
      match onUnload plugin with
      | UnloadRejects msg => [unloadWarning n msg]
      | UnloadTimesOut => [unloadWarning n (unloadTimeout n)]
      | _ => []
      end
  | None => []
  end.

(** A call of [loadPlugin] or of [unloadPlugin]; a call that throws or
    rejects leaves the registry as it was. *)
Inductive Step :=
| Load (p : Discovered)
| Unload (n : str).

Variable importModule : str -> Imported Plugin.
Variable onLoad : Plugin -> LoadResult.

Definition step (fs : Ipc.Fs) (r : Loaded Plugin) (s : Step) : Loaded Plugin :=
  match s with
  | Load p =>
      match loadPlugin Plugin importModule onLoad fs p r with
      | Done r' => r'
      | _ => r
      end
  | Unload n =>
      registry
        (unloadPlugin n {| registry := r; unloadedEvents := []; unloadWarnings := [] |}).1
  end.

(** [a] comes before [b] in [l]. *)
Definition before (l : list str) (a b : str) : Prop :=
  exists i j : nat, (i < j)%nat /\ l !! i = Some a /\ l !! j = Some b.

End Unloading.

End Lifecycle.

(** ** Further sample data *)

Module Cases.

Import JS Diagnostics Scheduler SchedulerRun.

Definition mainGroup : RegisteredGroup :=
  {| group_name := lit "Main"; folder := lit "main" |}.

Definition familyGroup : RegisteredGroup :=
  {| group_name := lit "Family"; folder := lit "family" |}.

Definition everyMinute : Schedule :=
  {| schedule_type := lit "interval"; schedule_value := lit "60000" |}.

Definition oneRun : RunClock :=
  {| startTime := 1700000000000; endTime := 1700000005000;
     endIso := lit "2023-11-14T22:13:25.000Z"; scheduleTime := 1700000005001 |}.

(** A cron parser that accepts nothing, and a rendering of dates by their
    milliseconds. *)
Definition noCron (v : str) : option str := None.
Definition isoOfMillis (t : Z) : option str := Some (dec t).

Definition doneOutput : ContainerOutput :=
  {| out_status := run_success; out_result := Some (lit "done"); out_error := None |}.

Definition failedOutput : ContainerOutput :=
  {| out_status := run_error; out_result := None; out_error := Some (lit "tool crashed") |}.

Definition silentRun : ContainerRun := Resolved [] doneOutput.

Definition brokenStream : ContainerRun := Resolved [failedOutput] doneOutput.

(** The text of a message that is a string. *)
Definition jsonText (v : Ipc.json) : str :=
  match v with
  | Ipc.JStr s => s
  | _ => []
  end.


(** The input of a run started by messages of [ids]; the owner is 1001. *)
Definition turnOf (ids : list str) : Runner.ContainerInput :=
  {| Runner.prompt := lit "hello"; Runner.isScheduledTask := false;
     Runner.senderIds := Some ids; Runner.trustConfig := Some (lit "1001") |}.

(** [new Date(s).getTime()] for the two dates of the trust file below,
    which holds no other. *)
Definition dateOfIso (s : str) : option Z :=
  if str_eqb s (lit "2027-01-15T08:00:00.000Z") then Some 1800000000000
  else if str_eqb s (lit "2020-09-13T12:26:40.000Z") then Some 1600000000000
  else None.

(** A trust file: an entry with a misspelt level, a live grant and an
    expired one. *)
Definition trustFile : option (list Trust.TrustedUser) :=
  Some [
    {| Trust.userId := lit "2002"; Trust.userName := lit "Ann";
       Trust.level := lit "superuser"; Trust.expiresAt := None |};
    {| Trust.userId := lit "3003"; Trust.userName := lit "Bob";
       Trust.level := lit "operate";
       Trust.expiresAt := Some (lit "2027-01-15T08:00:00.000Z") |};
    {| Trust.userId := lit "4004"; Trust.userName := lit "Cyd";
       Trust.level := lit "admin";
       Trust.expiresAt := Some (lit "2020-09-13T12:26:40.000Z") |}
  ].

(** An import that gives every module, and the entry points of the
    plugins [a] and [b]. *)
Definition everyModule (entryPoint : str) : Registry.Imported unit := Registry.Default tt.

Definition pluginFiles : Ipc.Fs :=
  {| Ipc.files := {[ lit "/plugins/a/index.ts" := Ipc.Raw (lit "export default {}");
                     lit "/plugins/b/index.ts" := Ipc.Raw (lit "export default {}") ]};
     Ipc.dirs := ∅; Ipc.cwd := lit "/" |}.

(** An inbox that holds the sentinel and one message. *)
Definition closingInbox : Ipc.Fs :=
  {| Ipc.files :=
       {[ Ipc.inboxPath (lit "_close") := Ipc.Raw [];
          Ipc.inboxPath (lit "1700000000000-abc123.json")
            := Ipc.Doc (Ipc.message_doc (lit "one more")) ]};
     Ipc.dirs := ∅; Ipc.cwd := lit "/workspace/group" |}.

End Cases.



(** * Properties *)

(** ** Strings *)

Module JSFacts.

Import JS.

Lemma ascii_eqb_eq (a b : ascii) : ascii_eqb a b = true <-> a = b.
Proof. unfold ascii_eqb. apply Ascii.eqb_eq. Qed.

Lemma str_eqb_eq (a b : str) : str_eqb a b = true <-> a = b.
Proof.
  revert b. induction a as [|x a IH]; intros [|y b]; simpl; try easy.
  rewrite andb_true_iff, ascii_eqb_eq, IH. split.
  - intros [-> ->]. reflexivity.
  - intros [= -> ->]. auto.
Qed.

Lemma str_eqb_refl (a : str) : str_eqb a a = true.
Proof. apply str_eqb_eq. reflexivity. Qed.

Lemma str_eqb_neq (a b : str) : str_eqb a b = false <-> a <> b.
Proof.
  rewrite <- str_eqb_eq. destruct (str_eqb a b); split; congruence.
Qed.

Lemma truthy_str_nonempty (s : str) : truthy_str s = true <-> s <> [].
Proof. destruct s; simpl; split; congruence. Qed.

End JSFacts.

(** ** The scheduler *)

Module SchedulerFacts.

Import JS JSFacts Diagnostics Scheduler.

Section Counting.

Context {A B : Type} (f : A -> option B) (P : B -> Prop) `{!forall x, Decision (P x)}.



End Counting.



(** What [incrementTaskRetryCount] leaves alone. *)
Lemma increment_frame (tid e : str) (w : World) :
  db_runs (incrementTaskRetryCount tid e w).2 = db_runs w /\
  sent (incrementTaskRetryCount tid e w).2 = sent w /\
  timers (incrementTaskRetryCount tid e w).2 = timers w.
Proof. unfold incrementTaskRetryCount. simpl. auto. Qed.

Lemma increment_tasks (tid e : str) (w : World) :
  db_tasks (incrementTaskRetryCount tid e w).2 = alter (bump_retry e) tid (db_tasks w).
Proof. reflexivity. Qed.

Lemma increment_count (tid e : str) (w : World) (t : ScheduledTask) :
  db_tasks w !! tid = Some t ->
  (incrementTaskRetryCount tid e w).1 = retry_count t + 1.
Proof.
  intros H. unfold incrementTaskRetryCount. simpl.
  rewrite lookup_alter_eq, H. reflexivity.
Qed.

(** The effect of a transition that notifies. *)
Lemma notifyStatus_effect (task : ScheduledTask) (d : TaskDiagnosis) (e : str)
  (s : TaskStatus) (w : World) :
  sent (notifyStatus task d e s w)
    = sent w ++ [(chat_jid task, formatFailureNotification task d e s)] /\
  timers (notifyStatus task d e s w) = timers w /\
  db_runs (notifyStatus task d e s w) = db_runs w /\
  db_tasks (notifyStatus task d e s w) = alter (set_status s) (id task) (db_tasks w).
Proof. unfold notifyStatus. simpl. auto. Qed.

Lemma scheduleRetry_effect (task : ScheduledTask) (delay : option Z) (w : World) :
  sent (scheduleRetry task delay w) = sent w /\
  timers (scheduleRetry task delay w) = timers w ++ [(id task, delay)] /\
  db_runs (scheduleRetry task delay w) = db_runs w /\
  db_tasks (scheduleRetry task delay w) = db_tasks w.
Proof. unfold scheduleRetry. simpl. auto. Qed.

(** [handleTaskFailure], by the pattern of its diagnosis. *)
Lemma handleTaskFailure_eq (task : ScheduledTask) (e : str) (w : World) :
  handleTaskFailure task e w =
  let rc := (incrementTaskRetryCount (id task) e w).1 in
  let w1 := (incrementTaskRetryCount (id task) e w).2 in
  let d := diagnosisOf task e w in
  match pattern d with
  | orphaned => notifyStatus task d e completed w1
  | persistent => notifyStatus task d e paused w1
  | rate_limited =>
      if rc <=? maxRetries task then scheduleRetry task rateLimitDelay w1
      else notifyStatus task d e error w1
  | _ =>
      if rc <=? maxRetries task then scheduleRetry task (standardDelay rc) w1
      else notifyStatus task d e error w1
  end.
Proof. reflexivity. Qed.

Lemma recentRuns_after_increment (tid e : str) (n : nat) (w : World) :
  getRecentTaskRuns tid n (incrementTaskRetryCount tid e w).2 = getRecentTaskRuns tid n w.
Proof. reflexivity. Qed.

(** A failure on the standard path, while retries remain: one timer on the
    ladder, no message. *)
Lemma standard_retry (task : ScheduledTask) (e : str) (w : World) :
  standardPath task e w ->
  (incrementTaskRetryCount (id task) e w).1 <= maxRetries task ->
  handleTaskFailure task e w =
    scheduleRetry task (standardDelay (incrementTaskRetryCount (id task) e w).1)
      (incrementTaskRetryCount (id task) e w).2.
Proof.
  intros (Ho & Hp & Hr) Hle. rewrite handleTaskFailure_eq. cbv zeta.
  apply Z.leb_le in Hle. rewrite Hle.
  destruct (pattern (diagnosisOf task e w)); congruence.
Qed.



Lemma rungs_S (tid : str) (c : Z) (n : nat) :
  rungs tid c (S n) = (tid, standardDelay (c + 1)) :: rungs tid (c + 1) n.
Proof.
  unfold rungs. rewrite Nat2Z.inj_succ. rewrite seqZ_cons by lia. simpl.
  replace (Z.succ (c + 1)) with (c + 1 + 1) by lia.
  replace (Z.pred (Z.succ (Z.of_nat n))) with (Z.of_nat n) by lia. reflexivity.
Qed.

(** Consecutive failures on the standard path, while retries remain: one
    timer per failure, up the ladder; nothing is sent; only the count and
    the last error of the row change. *)
Lemma failedRuns_standard (tid : str) (fs : list Failure) :
  forall (w : World) (task : ScheduledTask),
    db_tasks w !! tid = Some task -> id task = tid ->
    allStandard tid fs w ->
    retry_count task + Z.of_nat (length fs) <= maxRetries task ->
    sent (failedRuns tid fs w) = sent w /\
    timers (failedRuns tid fs w) = timers w ++ rungs tid (retry_count task) (length fs) /\
    exists task', db_tasks (failedRuns tid fs w) !! tid = Some task' /\
                  advanced (Z.of_nat (length fs)) task task'.
Proof.
  induction fs as [|f fs IH]; intros w task Hrow Hid Hstd Hle.
  - simpl. unfold rungs. simpl. rewrite app_nil_r. repeat split; try reflexivity.
    exists task. split; [assumption|]. unfold advanced. repeat split; lia.
  - simpl in Hstd |- *. rewrite Hrow in Hstd |- *. destruct Hstd as [Hstep Hrest].
    set (w0 := logTaskRun _ w) in *.
    assert (db_tasks w0 !! id task = Some task) as Hrow0 by (rewrite Hid; exact Hrow).
    pose proof (increment_count (id task) (failure f) w0 task Hrow0) as Hrc.
    assert (failedRun task f w = scheduleRetry task (standardDelay (retry_count task + 1))
              (incrementTaskRetryCount (id task) (failure f) w0).2) as Hrun.
    { unfold failedRun. fold w0. rewrite standard_retry; [rewrite Hrc; reflexivity|exact Hstep|].
      rewrite Hrc. simpl length in Hle. lia. }
    rewrite Hrun in Hrest |- *.
    set (w1 := scheduleRetry _ _ _) in *.
    assert (db_tasks w1 !! tid = Some (bump_retry (failure f) task)) as Hrow1.
    { unfold w1. simpl. rewrite Hid. rewrite lookup_alter_eq.
      change (db_tasks w0) with (db_tasks w). rewrite Hrow. reflexivity. }
    specialize (IH w1 (bump_retry (failure f) task) Hrow1 Hid Hrest).
    simpl retry_count in IH.
    assert (maxRetries (bump_retry (failure f) task) = maxRetries task) as Hmax by reflexivity.
    rewrite Hmax in IH. simpl length in Hle.
    destruct IH as (Hs & Ht & task' & Hrow' & Hadv); [lia|].
    split; [rewrite Hs; reflexivity|]. split.
    + rewrite Ht. unfold w1. simpl. rewrite <- app_assoc. simpl.
      rewrite rungs_S. rewrite Hid. reflexivity.
    + exists task'. split; [assumption|].
      destruct Hadv as (H1 & H2 & H3 & H4 & H5 & H6). simpl in *.
      unfold advanced. repeat split; try assumption. lia.
Qed.




Lemma statusOf_alter (tid : str) (s : TaskStatus) (w w' : World) (row : ScheduledTask) :
  db_tasks w' = alter (set_status s) tid (db_tasks w) ->
  db_tasks w !! tid = Some row ->
  statusOf tid w' = Some s.
Proof.
  intros Hw Hrow. unfold statusOf. rewrite Hw, lookup_alter_eq, Hrow. reflexivity.
Qed.

Lemma standardDelay_ladder (n : Z) :
  1 <= n ->
  standardDelay n = RETRY_DELAYS !! Z.to_nat (Z.min (n - 1) 2).
Proof.
  intros Hn. unfold standardDelay, index.
  change (Z.of_nat (length RETRY_DELAYS) - 1) with 2. cbv zeta.
  destruct (Z.ltb_spec (Z.min (n - 1) 2) 0); [lia | reflexivity].
Qed.

Lemma standardDelay_cases (n : Z) :
  1 <= n ->
  (n = 1 /\ standardDelay n = Some 30000) \/
  (n = 2 /\ standardDelay n = Some 120000) \/
  (3 <= n /\ standardDelay n = Some 600000).
Proof.
  intros Hn. destruct (Z.eq_dec n 1) as [->|]; [left; split; reflexivity|].
  destruct (Z.eq_dec n 2) as [->|]; [right; left; split; reflexivity|].
  right; right. split; [lia|]. rewrite standardDelay_ladder by lia.
  rewrite Z.min_r by lia. reflexivity.
Qed.





(** C4. Consecutive failures of one task on the standard retry path, while
    retries remain: the timer set by retry [n] waits
    [RETRY_DELAYS[min(n - 1, 2)]] of the ladder 30 s, 2 min, 10 min; so the
    delay does not decrease as the count grows, and stays at the last rung
    from the third retry on. *)
Theorem retry_delays_climb_the_ladder (tid : str) (task : ScheduledTask)
  (fs : list Failure) (w : World) :
  db_tasks w !! tid = Some task -> id task = tid ->
  retry_count task = 0 ->
  Z.of_nat (length fs) <= maxRetries task ->
  allStandard tid fs w ->
  timers (failedRuns tid fs w)
    = timers w ++ map (fun n => (tid, RETRY_DELAYS !! Z.to_nat (Z.min (n - 1) 2)))
                      (seqZ 1 (Z.of_nat (length fs))) /\
  (forall n : Z, 1 <= n ->
     exists d, standardDelay n = Some d /\
               RETRY_DELAYS !! Z.to_nat (Z.min (n - 1) 2) = Some d /\
               (n = 1 -> d = 30000) /\ (n = 2 -> d = 120000) /\ (3 <= n -> d = 600000)) /\
  (forall m n d d' : Z,
     1 <= m <= n -> standardDelay m = Some d -> standardDelay n = Some d' -> d <= d').
Proof.
  intros Hrow Hid Hzero Hlen Hstd. split; [|split].
  - destruct (failedRuns_standard tid fs w task Hrow Hid Hstd) as (_ & Ht & _); [lia|].
    rewrite Ht, Hzero. f_equal. unfold rungs. simpl (0 + 1).
    apply map_ext_in. intros n Hn. apply list_elem_of_In, elem_of_seqZ in Hn.
    rewrite standardDelay_ladder by lia. reflexivity.
  - intros n Hn. pose proof (standardDelay_ladder n Hn) as Hl.
    destruct (standardDelay_cases n Hn) as [[-> H]|[[-> H]|[H3 H]]];
      eexists; (split; [exact H|]); (split; [rewrite <- Hl; exact H|]);
      repeat split; intros; lia || reflexivity.
  - intros m n d d' [Hm Hmn] Hd Hd'.
    destruct (standardDelay_cases m Hm) as [[? H]|[[? H]|[? H]]];
      destruct (standardDelay_cases n ltac:(lia)) as [[? H']|[[? H']|[? H']]];
      rewrite H in Hd; rewrite H' in Hd'; injection Hd as <-; injection Hd' as <-; lia.
Qed.

(** C3 (as amended). A failure whose error matches a rate-limit pattern
    ('rate limit', '429', 'too many requests' or 'api error') and not the
    orphaned pattern ('group not found', 'chat not found') is diagnosed
    rate-limited; while the incremented retry count is at most [maxRetries]
    the retry is scheduled at the largest rung of the ladder, 600000 ms,
    whatever the count, and nothing is sent; once the count exceeds
    [maxRetries] the status becomes 'error' and one notification is sent. *)
Theorem rate_limited_waits_longest (task : ScheduledTask) (err : str) (w : World) :
  is_rate_limited (toLowerCase err) = true ->
  is_orphaned (toLowerCase err) = false ->
  let rc := (incrementTaskRetryCount (id task) err w).1 in
  let w' := handleTaskFailure task err w in
  pattern (diagnosisOf task err w) = rate_limited /\
  (rc <= maxRetries task ->
     timers w' = timers w ++ [(id task, Some 600000)] /\
     sent w' = sent w /\
     (forall row, db_tasks w !! id task = Some row ->
        statusOf (id task) w' = Some (status row))) /\
  (maxRetries task < rc ->
     timers w' = timers w /\
     sent w' = sent w ++
       [(chat_jid task,
         formatFailureNotification task (diagnosisOf task err w) err error)] /\
     (forall row, db_tasks w !! id task = Some row ->
        statusOf (id task) w' = Some error)).
Proof.
  intros Hr Ho rc w'.
  assert (pattern (diagnosisOf task err w) = rate_limited) as Hd.
  { unfold diagnosisOf, diagnoseTaskFailure. rewrite Ho, Hr. reflexivity. }
  destruct (increment_frame (id task) err w) as (_ & Hs0 & Ht0).
  split; [exact Hd|]. split.
  - intros Hle.
    assert (w' = scheduleRetry task rateLimitDelay
                   (incrementTaskRetryCount (id task) err w).2) as ->.
    { unfold w'. rewrite handleTaskFailure_eq. cbv zeta. rewrite Hd.
      apply Z.leb_le in Hle. fold rc. rewrite Hle. reflexivity. }
    destruct (scheduleRetry_effect task rateLimitDelay
                (incrementTaskRetryCount (id task) err w).2) as (Hs & Ht & _ & Hdb).
    rewrite Hs, Ht, Hs0, Ht0. repeat split.
    intros row Hrow. unfold statusOf. rewrite Hdb, increment_tasks, lookup_alter_eq, Hrow.
    reflexivity.
  - intros Hlt.
    assert (w' = notifyStatus task (diagnosisOf task err w) err error
                   (incrementTaskRetryCount (id task) err w).2) as ->.
    { unfold w'. rewrite handleTaskFailure_eq. cbv zeta. rewrite Hd.
      apply Z.leb_gt in Hlt. fold rc. rewrite Hlt. reflexivity. }
    destruct (notifyStatus_effect task (diagnosisOf task err w) err error
                (incrementTaskRetryCount (id task) err w).2) as (Hs & Ht & _ & Hdb).
    rewrite Hs, Ht, Hs0, Ht0. repeat split.
    intros row Hrow. eapply statusOf_alter; [exact Hdb|].
    rewrite increment_tasks, lookup_alter_eq, Hrow. reflexivity.
Qed.

(** *** Instances and counterexamples *)

Import Samples.

(** The cases of the test-suite of [diagnoseTaskFailure]. *)
Example diagnosis_test_suite :
  pattern (diagnoseTaskFailure task1 [] (lit "Group not found: test-group")) = orphaned /\
  pattern (diagnoseTaskFailure task1 [] (lit "HTTP 429 Too Many Requests")) = rate_limited /\
  pattern (diagnoseTaskFailure task1 [] (lit "Container timed out after 300s")) = timeout /\
  pattern (diagnoseTaskFailure task1
             [errorRun (Some (lit "ModuleNotFoundError: requests"));
              errorRun (Some (lit "ModuleNotFoundError: requests"))]
             (lit "ModuleNotFoundError: requests")) = persistent /\
  pattern (diagnoseTaskFailure task1
             [errorRun (Some (lit "Connection reset"));
              errorRun (Some (lit "DNS lookup failed"))]
             (lit "Unexpected crash")) = transient /\
  pattern (diagnoseTaskFailure task1 [] (lit "Some weird error")) = unknown /\
  pattern (diagnoseTaskFailure task1
             [{| task_id := lit "task-1"; run_at := lit "2024-01-01T09:02:00.000Z";
                 duration_ms := 5000; run_status := run_success; result := None;
                 run_err := None |};
              errorRun (Some (lit "fail A"))]
             (lit "fail B")) = unknown.
Proof. repeat split; vm_compute; reflexivity. Qed.




Lemma retry_delays_climb_the_ladder_witness :
  let fs := [timedOut; timedOut; timedOut] in
  allStandard (lit "task-1") fs (worldWith []) /\
  timers (failedRuns (lit "task-1") fs (worldWith []))
    = [(lit "task-1", Some 30000); (lit "task-1", Some 120000); (lit "task-1", Some 600000)].
Proof.
  intros fs.
  assert (allStandard (lit "task-1") fs (worldWith [])) as Hstd.
  { vm_compute. repeat split; discriminate. }
  destruct (retry_delays_climb_the_ladder (lit "task-1") task1 fs (worldWith []))
    as (Ht & _); try reflexivity; try exact Hstd.
  split; [exact Hstd|]. rewrite Ht. reflexivity.
Defined.

Lemma rate_limited_waits_longest_witness :
  let err := lit "HTTP 429 Too Many Requests" in
  is_rate_limited (toLowerCase err) = true /\
  is_orphaned (toLowerCase err) = false /\
  timers (handleTaskFailure task1 err (worldWith [])) = [(lit "task-1", Some 600000)].
Proof.
  intros err.
  assert (is_rate_limited (toLowerCase err) = true) as Hr by (vm_compute; reflexivity).
  assert (is_orphaned (toLowerCase err) = false) as Ho by (vm_compute; reflexivity).
  destruct (rate_limited_waits_longest task1 err (worldWith []) Hr Ho) as (_ & Hle & _).
  destruct Hle as (Ht & _); [vm_compute; intros H; discriminate H|].
  split; [exact Hr|]. split; [exact Ho|]. exact Ht.
Defined.

(** C3 as first stated fails on an error that matches a rate-limit pattern
    and the orphaned pattern: the orphaned test comes first, the task is
    completed and no retry is scheduled. *)
Lemma rate_limit_yields_to_orphaned :
  let err := lit "API error: chat not found" in
  is_rate_limited (toLowerCase err) = true /\
  (incrementTaskRetryCount (id task1) err (worldWith [])).1 <= maxRetries task1 /\
  pattern (diagnosisOf task1 err (worldWith [])) = orphaned /\
  timers (handleTaskFailure task1 err (worldWith [])) = [] /\
  statusOf (id task1) (handleTaskFailure task1 err (worldWith [])) = Some completed.
Proof.
  intros err. split; [vm_compute; reflexivity|]. split.
  - vm_compute. intros H. discriminate H.
  - repeat split; vm_compute; reflexivity.
Qed.

End SchedulerFacts.


(** ** The Discord channel *)

Module DiscordFacts.

Import JS Units Discord.

Lemma lastIndexOf_aux_range (c : N) (fuel : nat) :
  forall (s : ustr) (i : nat) (best : Z),
    lastIndexOf_aux s c i fuel best = best \/
    Z.of_nat i <= lastIndexOf_aux s c i fuel best < Z.of_nat i + Z.of_nat fuel.
Proof.
  induction fuel as [|fuel IH]; intros s i best; [destruct s; left; reflexivity|].
  destruct s as [|x s]; [left; reflexivity|]. simpl.
  destruct (IH s (S i) (if (x =? c)%N then Z.of_nat i else best)) as [H|H].
  - rewrite H. destruct (x =? c)%N; [right; lia | left; reflexivity].
  - right. lia.
Qed.

Lemma lastIndexOf_range (s : ustr) (c : N) (from : nat) :
  -1 <= lastIndexOf s c from <= Z.of_nat from.
Proof.
  unfold lastIndexOf.
  destruct (lastIndexOf_aux_range c (S from) s 0 (-1)) as [H|H]; lia.
Qed.

(** [trimStart] removes a blank prefix and nothing else. *)
Lemma trimStart_prefix (s : ustr) :
  exists ws : ustr, blank ws /\ s = ws ++ trimStart s.
Proof.
  induction s as [|c s (ws & Hws & IH)]; [exists []; split; [constructor|reflexivity]|].
  simpl. destruct (is_space c) eqn:Hc.
  - exists (c :: ws). split; [constructor; assumption|]. simpl. f_equal. exact IH.
  - exists []. split; [constructor|reflexivity].
Qed.

Lemma trimStart_length (s : ustr) : (length (trimStart s) <= length s)%nat.
Proof.
  destruct (trimStart_prefix s) as (ws & _ & H). rewrite H at 2. rewrite length_app. lia.
Qed.

(** The loop of [splitMessage] ends within [remaining.length] cuts, and what
    it appends are chunks of [remaining] of at most [maxLength] code units. *)
Lemma splitLoop_spec (maxLength : nat) :
  (1 <= maxLength)%nat ->
  forall (fuel : nat) (remaining : ustr) (chunks : list ustr),
    (length remaining <= fuel)%nat ->
    exists new : list ustr,
      splitLoop fuel maxLength remaining chunks = Some (chunks ++ new) /\
      Forall (fun c => (length c <= maxLength)%nat) new /\
      (remaining <> [] -> new <> []) /\
      rebuilds remaining new.
Proof.
  intros Hmax. induction fuel as [|fuel IH]; intros remaining chunks Hfuel.
  - destruct remaining; [|simpl in Hfuel; lia].
    exists []. simpl. rewrite app_nil_r. repeat split; try constructor; try congruence.
    exists []. repeat split. constructor.
  - destruct remaining as [|r0 rem'] eqn:Hrem.
    { exists []. simpl. rewrite app_nil_r. repeat split; try constructor; try congruence.
      exists []. repeat split. constructor. }
    rewrite <- Hrem in *. assert (remaining <> []) as Hne by (rewrite Hrem; discriminate).
    assert (splitLoop (S fuel) maxLength remaining chunks =
            if (length remaining <=? maxLength)%nat then Some (chunks ++ [remaining])
            else
              let splitAt := lastIndexOf remaining LF maxLength in
              let splitAt := if splitAt <=? 0 then Z.of_nat maxLength else splitAt in
              splitLoop fuel maxLength
                (trimStart (slice_from (Z.to_nat splitAt) remaining))
                (chunks ++ [slice_to (Z.to_nat splitAt) remaining])) as ->.
    { rewrite Hrem. reflexivity. }
    destruct (Nat.leb_spec (length remaining) maxLength) as [Hle|Hgt].
    + exists [remaining]. repeat split; [repeat constructor; assumption | discriminate |].
      exists [[]]. repeat split; [repeat constructor|].
      unfold refill. simpl. rewrite !app_nil_r. reflexivity.
    + cbv zeta.
      pose proof (lastIndexOf_range remaining LF maxLength) as Hrange.
      set (k := Z.to_nat (if lastIndexOf remaining LF maxLength <=? 0
                          then Z.of_nat maxLength
                          else lastIndexOf remaining LF maxLength)).
      assert (1 <= k <= maxLength)%nat as Hk.
      { unfold k. destruct (Z.leb_spec (lastIndexOf remaining LF maxLength) 0); lia. }
      destruct (trimStart_prefix (slice_from k remaining)) as (ws & Hws & Hcut).
      pose proof (trimStart_length (slice_from k remaining)) as Hlen.
      unfold slice_from in Hlen, Hcut. rewrite length_drop in Hlen.
      destruct (IH (trimStart (slice_from k remaining)) (chunks ++ [slice_to k remaining]))
        as (new & Hrun & Hall & _ & gaps & Hgl & Hgb & Hre).
      { unfold slice_from. lia. }
      exists (slice_to k remaining :: new). split; [|split; [|split]].
      * rewrite Hrun, <- app_assoc. reflexivity.
      * constructor; [|exact Hall]. unfold slice_to. rewrite length_take. lia.
      * discriminate.
      * exists (ws :: gaps). split; [simpl; congruence|]. split; [constructor; assumption|].
        unfold refill in *. simpl. rewrite <- Hre. unfold slice_from, slice_to.
        rewrite <- app_assoc, <- Hcut. symmetry. apply take_drop.
Qed.

Lemma splitMessage_spec (text : ustr) (maxLength : nat) :
  (1 <= maxLength)%nat ->
  exists chunks : list ustr,
    splitMessage text maxLength = Some chunks /\
    chunks <> [] /\
    Forall (fun c => (length c <= maxLength)%nat) chunks /\
    rebuilds text chunks.
Proof.
  intros Hmax. unfold splitMessage.
  destruct (Nat.leb_spec (length text) maxLength) as [Hle|Hgt].
  - exists [text]. repeat split; [discriminate | repeat constructor; assumption |].
    exists [[]]. repeat split; [repeat constructor|].
    unfold refill. simpl. rewrite !app_nil_r. reflexivity.
  - destruct (splitLoop_spec maxLength Hmax (length text) text [] (le_n _))
      as (new & Hrun & Hall & Hne & Hre).
    exists new. repeat split; try assumption.
    apply Hne. intros ->. simpl in Hgt. lia.
Qed.

Section Sending.

Variable fetch : str -> Fetched.
Variable sendOk : str -> ustr -> bool.

(** The chunks go out one after the other, in order, up to the first send
    that fails. *)
Lemma sendChunks_delivered (channelId : str) (chunks : list ustr) :
  forall c : Client,
    exists k : nat,
      delivered (sendChunks sendOk channelId chunks c)
        = delivered c ++ map (pair channelId) (take k chunks) /\
      (Forall (fun chunk => sendOk channelId chunk = true) chunks -> k = length chunks).
Proof.
  induction chunks as [|chunk rest IH]; intros c; simpl.
  - exists 0%nat. rewrite app_nil_r. auto.
  - destruct (sendOk channelId chunk) eqn:Hok.
    + destruct (IH {| delivered := delivered c ++ [(channelId, chunk)];
                      warned := warned c |}) as (k & Hk & Hall).
      exists (S k). split.
      * rewrite Hk. simpl. rewrite <- app_assoc. reflexivity.
      * intros H. inversion H; subst. f_equal. auto.
    + exists 0%nat. simpl. rewrite app_nil_r. split; [reflexivity|].
      intros H. inversion H; subst. congruence.
Qed.

End Sending.

(** C10 (as amended). For every text (a string of any UTF-16 code units)
    and every [maxLength >= 1], [splitMessage] terminates and returns a
    non-empty list of chunks, each of length at most [maxLength], in the
    order of the text, whose concatenation is the text except for white
    space removed after a cut: in front of each chunk after the first and,
    when only white space is left after the last cut, at the end of the
    text.  [sendMessage] splits at 2000 and sends the chunks to the channel
    one after the other, in order, until a send fails. *)
Theorem split_message_chunks (text : ustr) :
  (forall maxLength : nat,
     (1 <= maxLength)%nat ->
     exists chunks : list ustr,
       splitMessage text maxLength = Some chunks /\
       chunks <> [] /\
       Forall (fun c => (length c <= maxLength)%nat) chunks /\
       rebuilds text chunks) /\
  (forall (fetch : str -> Fetched) (sendOk : str -> ustr -> bool)
          (jid channelId : str) (c : Client),
     jidToChannelId jid = Some channelId ->
     fetch channelId = Channel true ->
     exists (chunks : list ustr) (c' : Client) (k : nat),
       splitMessage text 2000 = Some chunks /\
       sendMessage fetch sendOk jid text c = Some c' /\
       delivered c' = delivered c ++ map (pair channelId) (take k chunks) /\
       (Forall (fun chunk => sendOk channelId chunk = true) chunks -> k = length chunks)).
Proof.
  split; [intros maxLength; apply splitMessage_spec|].
  intros fetch sendOk jid channelId c Hjid Hfetch.
  destruct (splitMessage_spec text 2000 ltac:(lia)) as (chunks & Hsplit & _).
  destruct (sendChunks_delivered sendOk channelId chunks c) as (k & Hk & Hall).
  exists chunks, (sendChunks sendOk channelId chunks c), k.
  split; [exact Hsplit|]. split; [|split; assumption].
  unfold sendMessage. rewrite Hjid, Hfetch, Hsplit. reflexivity.
Qed.

(** Two texts: one cut at a line feed and then twice at the limit, and
    one with a no-break space (U+00A0) behind the cut, which goes as white
    space. *)
Lemma split_message_chunks_witness :
  (1 <= 7)%nat /\
  (exists chunks : list ustr,
     splitMessage (units (lit "hello" ++ [JS.LF] ++ lit "world foo bar")) 7 = Some chunks /\
     chunks <> [] /\
     Forall (fun c => (length c <= 7)%nat) chunks /\
     rebuilds (units (lit "hello" ++ [JS.LF] ++ lit "world foo bar")) chunks) /\
  splitMessage (units (lit "hello" ++ [JS.LF] ++ lit "world foo bar")) 7
    = Some [units (lit "hello"); units (lit "world f"); units (lit "oo bar")] /\
  splitMessage (units (lit "abc") ++ [160%N] ++ units (lit "de")) 3
    = Some [units (lit "abc"); units (lit "de")].
Proof.
  split; [lia|]. split; [|split; reflexivity].
  apply (proj1 (split_message_chunks
                  (units (lit "hello" ++ [JS.LF] ++ lit "world foo bar"))) 7%nat).
  lia.
Defined.

(** C10 as first stated fails on a text that ends in white space after its
    last cut: the line feed of ["ab\n"], split at 2, is in no chunk, and it
    is not in front of a chunk either. *)
Lemma split_drops_trailing_space :
  splitMessage (units (lit "ab") ++ [LF]) 2 = Some [units (lit "ab")] /\
  ~ rebuildsInside (units (lit "ab") ++ [LF]) [units (lit "ab")].
Proof.
  split; [reflexivity|].
  intros (gaps & Hlen & _ & Hlast & Htext).
  destruct gaps as [|g [|g' gaps]]; simpl in Hlen; try discriminate.
  simpl in Hlast. injection Hlast as ->.
  vm_compute in Htext. discriminate Htext.
Qed.

End DiscordFacts.


(** ** Paths *)

Module PathFacts.

Import JS JSFacts Path.

Lemma split_nonempty (p : str) : split p <> [].
Proof.
  induction p as [|c p IH]; simpl; [discriminate|].
  destruct (ascii_eqb c SLASH); [discriminate|].
  destruct (split p); [contradiction | discriminate].
Qed.

Lemma split_app (a b : str) : split (a ++ SLASH :: b) = split a ++ split b.
Proof.
  induction a as [|c a IH]; simpl.
  - reflexivity.
  - destruct (ascii_eqb c SLASH); [rewrite IH; reflexivity|].
    rewrite IH. pose proof (split_nonempty a) as Hne.
    destruct (split a); [contradiction | reflexivity].
Qed.

Lemma split_slashless (s : str) : slashless s -> split s = [s].
Proof.
  induction 1 as [|c s Hc _ IH]; simpl; [reflexivity|].
  destruct (ascii_eqb c SLASH) eqn:E; [apply ascii_eqb_eq in E; contradiction|].
  rewrite IH. reflexivity.
Qed.

Lemma split_pieces_slashless (p : str) : Forall slashless (split p).
Proof.
  induction p as [|c p IH]; simpl; [repeat constructor|].
  destruct (ascii_eqb c SLASH) eqn:E; [constructor; [constructor | exact IH]|].
  destruct (split p) as [|h t]; [repeat constructor|].
  - intros ->. rewrite (proj2 (ascii_eqb_eq _ _) eq_refl) in E. discriminate.
  - inversion IH; subst. constructor; [|assumption]. constructor; [|assumption].
    intros ->. rewrite (proj2 (ascii_eqb_eq _ _) eq_refl) in E. discriminate.
Qed.

Lemma join_cons (sep x y : str) (l : list str) :
  JS.join sep (x :: y :: l) = x ++ sep ++ JS.join sep (y :: l).
Proof. simpl. rewrite <- app_assoc. reflexivity. Qed.

Lemma join_snoc (sep f : str) (l : list str) :
  l <> [] -> JS.join sep (l ++ [f]) = JS.join sep l ++ sep ++ f.
Proof.
  induction l as [|x l IH]; [congruence|]. intros _.
  destruct l as [|y l].
  - simpl. rewrite !app_nil_r. reflexivity.
  - change ((x :: y :: l) ++ [f]) with (x :: y :: (l ++ [f])).
    rewrite !join_cons. change (y :: l ++ [f]) with ((y :: l) ++ [f]).
    rewrite IH by discriminate. rewrite <- !app_assoc. reflexivity.
Qed.

Lemma split_join (l : list str) :
  l <> [] -> Forall slashless l -> split (JS.join [SLASH] l) = l.
Proof.
  induction l as [|x l IH]; [congruence|]. intros _ Hall.
  inversion Hall as [|? ? Hx Hl]; subst. destruct l as [|y l].
  - simpl. rewrite app_nil_r. apply split_slashless. assumption.
  - rewrite join_cons.
    change (x ++ [SLASH] ++ JS.join [SLASH] (y :: l))
      with (x ++ SLASH :: JS.join [SLASH] (y :: l)).
    rewrite split_app, IH by (discriminate || assumption).
    rewrite split_slashless by assumption. reflexivity.
Qed.

(** The first character of a joined list of segments is not a separator. *)
Lemma join_not_absolute (l : list str) :
  Forall (fun s => slashless s /\ s <> []) l -> isAbsolute (JS.join [SLASH] l) = false.
Proof.
  intros Hall. destruct l as [|x l]; [reflexivity|].
  inversion Hall as [|? ? [Hx Hne] _]; subst.
  destruct x as [|c x]; [congruence|]. simpl.
  inversion Hx; subst. destruct (ascii_eqb c SLASH) eqn:E; [|reflexivity].
  apply ascii_eqb_eq in E. contradiction.
Qed.

Lemma norm_step_skip (allow : bool) (kept : list str) (seg : str) :
  seg = [] \/ seg = lit "." -> norm_step allow kept seg = kept.
Proof. intros [->| ->]; reflexivity. Qed.

Lemma norm_step_push (allow : bool) (kept : list str) (seg : str) :
  seg <> [] -> seg <> lit "." -> seg <> lit ".." ->
  norm_step allow kept seg = seg :: kept.
Proof.
  intros H1 H2 H3. unfold norm_step.
  apply str_eqb_neq in H1, H2, H3. rewrite H1, H2, H3. reflexivity.
Qed.

Lemma norm_step_up (allow : bool) (kept : list str) :
  norm_step allow kept (lit "..") =
  match kept with
  | top :: rest =>
      if str_eqb top (lit "..")
      then (if allow then lit ".." :: kept else kept)
      else rest
  | [] => if allow then [lit ".."] else []
  end.
Proof. reflexivity. Qed.

Lemma norm_step_cases (allow : bool) (kept : list str) (seg : str) :
  (seg = [] \/ seg = lit ".") \/ seg = lit ".." \/
  (seg <> [] /\ seg <> lit "." /\ seg <> lit "..").
Proof.
  destruct (decide (seg = [])); [auto|].
  destruct (decide (seg = lit ".")); [auto|].
  destruct (decide (seg = lit "..")); auto.
Qed.

(** What is kept is never empty nor ["."], and has no separator. *)
Lemma norm_step_keepable (allow : bool) (kept : list str) (seg : str) :
  slashless seg -> Forall keepable kept -> Forall keepable (norm_step allow kept seg).
Proof.
  intros Hs Hk.
  destruct (norm_step_cases allow kept seg) as [H|[->|(H1 & H2 & H3)]].
  - rewrite norm_step_skip by assumption. assumption.
  - rewrite norm_step_up.
    destruct kept as [|top rest].
    + destruct allow; repeat constructor; try assumption; discriminate.
    + inversion Hk; subst.
      destruct (str_eqb top (lit "..")); [|assumption].
      destruct allow; [|assumption].
      constructor; [|assumption]. repeat split; try assumption; discriminate.
  - rewrite norm_step_push by assumption. constructor; [|assumption].
    repeat split; assumption.
Qed.

Lemma fold_keepable (allow : bool) (segs : list str) :
  forall kept : list str,
    Forall slashless segs -> Forall keepable kept ->
    Forall keepable (fold_left (norm_step allow) segs kept).
Proof.
  induction segs as [|s segs IH]; intros kept Hs Hk; simpl; [assumption|].
  inversion Hs; subst. apply IH; [assumption|]. apply norm_step_keepable; assumption.
Qed.

(** Of an absolute path, only clean segments are kept. *)
Lemma norm_step_clean (kept : list str) (seg : str) :
  slashless seg -> Forall clean kept -> Forall clean (norm_step false kept seg).
Proof.
  intros Hs Hk.
  destruct (norm_step_cases false kept seg) as [H|[->|(H1 & H2 & H3)]].
  - rewrite norm_step_skip by assumption. assumption.
  - rewrite norm_step_up. destruct kept as [|top rest]; [constructor|].
    inversion Hk; subst. destruct (str_eqb top (lit "..")); assumption.
  - rewrite norm_step_push by assumption. constructor; [|assumption].
    repeat split; assumption.
Qed.

Lemma fold_clean (segs : list str) :
  forall kept : list str,
    Forall slashless segs -> Forall clean kept ->
    Forall clean (fold_left (norm_step false) segs kept).
Proof.
  induction segs as [|s segs IH]; intros kept Hs Hk; simpl; [assumption|].
  inversion Hs; subst. apply IH; [assumption|]. apply norm_step_clean; assumption.
Qed.

(** Clean segments are kept as they are. *)
Lemma fold_of_clean (allow : bool) (segs : list str) :
  forall kept : list str,
    Forall clean segs -> fold_left (norm_step allow) segs kept = rev segs ++ kept.
Proof.
  induction segs as [|s segs IH]; intros kept Hs; simpl; [reflexivity|].
  inversion Hs as [|? ? (_ & H1 & H2 & H3) Hrest]; subst.
  rewrite norm_step_push by assumption. rewrite IH by assumption.
  rewrite <- app_assoc. reflexivity.
Qed.

(** Normalising a relative path first and resolving the result gives what
    resolving the path itself gives. *)
Lemma abs_step_after_rel (kr : list str) (seg : str) (acc : list str) :
  Forall keepable kr ->
  fold_left (norm_step false) (rev (norm_step true kr seg)) acc
    = norm_step false (fold_left (norm_step false) (rev kr) acc) seg.
Proof.
  intros Hk.
  destruct (norm_step_cases true kr seg) as [H|[->|(H1 & H2 & H3)]].
  - rewrite !norm_step_skip by assumption. reflexivity.
  - destruct kr as [|top rest]; [reflexivity|].
    rewrite (norm_step_up true).
    destruct (str_eqb top (lit "..")) eqn:E.
    + simpl rev. rewrite fold_left_app. reflexivity.
    + simpl rev. rewrite fold_left_app. simpl fold_left.
      inversion Hk as [|? ? (_ & Hne & Hdot) _]; subst.
      pose proof (proj1 (str_eqb_neq _ _) E) as E'.
      rewrite (norm_step_push false _ top) by assumption.
      rewrite (norm_step_up false). rewrite E. reflexivity.
  - rewrite (norm_step_push true) by assumption. simpl rev.
    rewrite fold_left_app. reflexivity.
Qed.

Lemma abs_after_rel (segs : list str) :
  forall (kr acc : list str),
    Forall slashless segs -> Forall keepable kr ->
    fold_left (norm_step false) (rev (fold_left (norm_step true) segs kr)) acc
      = fold_left (norm_step false) segs (fold_left (norm_step false) (rev kr) acc).
Proof.
  induction segs as [|s segs IH]; intros kr acc Hs Hk; simpl; [reflexivity|].
  inversion Hs; subst.
  rewrite IH by (assumption || apply norm_step_keepable; assumption).
  rewrite abs_step_after_rel by assumption. reflexivity.
Qed.

Lemma norm_segs_drop_empty (allow : bool) (segs : list str) :
  norm_segs allow (segs ++ [[]]) = norm_segs allow segs.
Proof. unfold norm_segs. rewrite fold_left_app. reflexivity. Qed.

Lemma norm_segs_snoc (allow : bool) (segs : list str) (f : str) :
  clean f -> norm_segs allow (segs ++ [f]) = norm_segs allow segs ++ [f].
Proof.
  intros (_ & H1 & H2 & H3). unfold norm_segs. rewrite fold_left_app. simpl.
  rewrite norm_step_push by assumption. reflexivity.
Qed.

Lemma norm_segs_clean (segs : list str) :
  Forall slashless segs -> Forall clean (norm_segs false segs).
Proof.
  intros H. unfold norm_segs. apply Forall_rev. apply fold_clean; [assumption|constructor].
Qed.

Lemma norm_segs_keepable (allow : bool) (segs : list str) :
  Forall slashless segs -> Forall keepable (norm_segs allow segs).
Proof.
  intros H. unfold norm_segs. apply Forall_rev. apply fold_keepable; [assumption|constructor].
Qed.

Lemma norm_segs_of_clean (segs : list str) :
  Forall clean segs -> norm_segs false segs = segs.
Proof.
  intros H. unfold norm_segs. rewrite fold_of_clean by assumption.
  rewrite app_nil_r. apply rev_involutive.
Qed.

Lemma clean_keepable (s : str) : clean s -> keepable s.
Proof. intros (H1 & H2 & H3 & _). repeat split; assumption. Qed.

Lemma keepable_joinable (l : list str) :
  Forall keepable l -> Forall (fun s => slashless s /\ s <> []) l.
Proof.
  intros H. eapply Forall_impl; [exact H|]. intros s (H1 & H2 & _). auto.
Qed.

Lemma join_snoc_nonempty (sep f : str) (l : list str) :
  f <> [] -> JS.join sep (l ++ [f]) <> [].
Proof.
  intros Hf. destruct l as [|x l].
  - simpl. rewrite app_nil_r. assumption.
  - rewrite join_snoc by discriminate. intros H.
    apply app_eq_nil in H as [_ H]. apply app_eq_nil in H as [_ H]. contradiction.
Qed.

Lemma slashless_not_absolute (s : str) : slashless s -> isAbsolute s = false.
Proof.
  intros H. destruct s as [|c s]; [reflexivity|]. simpl. inversion H; subst.
  destruct (ascii_eqb c SLASH) eqn:E; [apply ascii_eqb_eq in E; contradiction | reflexivity].
Qed.

Lemma isAbsolute_app (a b : str) : a <> [] -> isAbsolute (a ++ b) = isAbsolute a.
Proof. destruct a; [congruence | reflexivity]. Qed.

(** A path that ends in a non-empty segment has no trailing separator. *)
Lemma no_trailing_separator (a f : str) :
  slashless f -> f <> [] -> trailingSeparator (a ++ f) = false.
Proof.
  intros Hs Hne. unfold trailingSeparator. rewrite rev_app_distr.
  rewrite isAbsolute_app.
  - apply slashless_not_absolute. apply Forall_rev. assumption.
  - intros H. apply (f_equal (@rev ascii)) in H. rewrite rev_involutive in H. contradiction.
Qed.

Lemma normalize_nonempty (p : str) :
  p <> [] ->
  normalize p =
    match normalizeString p (negb (isAbsolute p)) with
    | [] => if isAbsolute p then [SLASH]
            else if trailingSeparator p then lit "./" else lit "."
    | _ =>
        let path := if trailingSeparator p
                    then normalizeString p (negb (isAbsolute p)) ++ [SLASH]
                    else normalizeString p (negb (isAbsolute p)) in
        if isAbsolute p then SLASH :: path else path
    end.
Proof. destruct p; [congruence | reflexivity]. Qed.

Lemma join_empty_dir (f : str) : f <> [] -> Path.join [] f = normalize f.
Proof. destruct f; [congruence | reflexivity]. Qed.

Lemma join_nonempty (dir f : str) :
  dir <> [] -> f <> [] -> Path.join dir f = normalize (dir ++ SLASH :: f).
Proof. destruct dir, f; try congruence. reflexivity. Qed.

(** [normalize] of a path that ends in a clean segment. *)
Lemma normalize_ending_clean (a f : str) :
  clean f ->
  normalize (a ++ SLASH :: f) =
    if isAbsolute (a ++ SLASH :: f)
    then SLASH :: JS.join [SLASH] (norm_segs false (split a) ++ [f])
    else JS.join [SLASH] (norm_segs true (split a) ++ [f]).
Proof.
  intros Hf. pose proof Hf as (Hs & Hne & _).
  assert (forall allow, normalizeString (a ++ SLASH :: f) allow
                        = JS.join [SLASH] (norm_segs allow (split a) ++ [f])) as Hn.
  { intros allow. unfold normalizeString. rewrite split_app.
    rewrite (split_slashless f) by assumption.
    rewrite norm_segs_snoc by assumption. reflexivity. }
  rewrite normalize_nonempty by (destruct a; discriminate).
  assert (trailingSeparator (a ++ SLASH :: f) = false) as ->.
  { change (SLASH :: f) with ([SLASH] ++ f). rewrite app_assoc.
    apply no_trailing_separator; assumption. }
  rewrite Hn. cbv zeta.
  destruct (JS.join [SLASH] (norm_segs (negb (isAbsolute (a ++ SLASH :: f))) (split a) ++ [f]))
    eqn:Hj.
  { apply join_snoc_nonempty in Hj; [contradiction | assumption]. }
  rewrite <- Hj. destruct (isAbsolute (a ++ SLASH :: f)); reflexivity.
Qed.

(** [path.join(dir, f)] for a clean file name [f]. *)
Lemma join_clean (dir f : str) :
  clean f ->
  Path.join dir f =
    if isAbsolute dir
    then SLASH :: JS.join [SLASH] (norm_segs false (split dir) ++ [f])
    else JS.join [SLASH] (norm_segs true (split dir) ++ [f]).
Proof.
  intros Hf. pose proof Hf as (Hs & Hne & _).
  destruct (decide (dir = [])) as [->|Hd].
  - rewrite join_empty_dir by assumption.
    simpl isAbsolute. cbv iota.
    change (norm_segs true (split [])) with (@nil str). simpl app.
    rewrite normalize_nonempty by assumption.
    rewrite slashless_not_absolute by assumption. simpl negb.
    assert (trailingSeparator f = false) as ->.
    { change f with ([] ++ f). apply no_trailing_separator; assumption. }
    unfold normalizeString. rewrite split_slashless by assumption.
    assert (norm_segs true [f] = [f]) as ->.
    { change [f] with ([] ++ [f]) at 1. rewrite norm_segs_snoc by assumption. reflexivity. }
    simpl JS.join. rewrite app_nil_r.
    destruct f; [congruence | reflexivity].
  - rewrite join_nonempty by assumption.
    rewrite normalize_ending_clean by assumption.
    rewrite isAbsolute_app by assumption. reflexivity.
Qed.

(** The segments of a path built by [prepend] are normalised as those of
    its arguments. *)
Lemma norm_segs_prepend (allow : bool) (pre : list str) (arg : str) :
  norm_segs allow (pre ++ split (prepend arg [])) = norm_segs allow (pre ++ split arg).
Proof.
  destruct arg as [|c arg']; [reflexivity|]. unfold prepend.
  rewrite split_app. simpl (split []). rewrite app_assoc. apply norm_segs_drop_empty.
Qed.

Lemma norm_segs_prepend_only (allow : bool) (arg : str) :
  norm_segs allow (split (prepend arg [])) = norm_segs allow (split arg).
Proof. apply (norm_segs_prepend allow [] arg). Qed.

Lemma prepend_nonempty (arg rest : str) :
  arg <> [] -> prepend arg rest = arg ++ SLASH :: rest.
Proof. destruct arg; [congruence | reflexivity]. Qed.

(** [path.resolve(p)] is absolute only if [p] or the working directory is;
    it is then the separator-joined clean segments of the path. *)
Lemma resolve_absolute (cwd p : str) :
  isAbsolute (resolve cwd p) = true ->
  exists K : list str,
    resolve cwd p = SLASH :: JS.join [SLASH] K /\
    ((isAbsolute p = true /\ K = norm_segs false (split p)) \/
     (isAbsolute p = false /\ isAbsolute cwd = true /\
      K = norm_segs false (split cwd ++ split p))).
Proof.
  unfold resolve. destruct (isAbsolute p) eqn:Hpa.
  - intros _. simpl negb. eexists. split; [reflexivity|]. left. split; [reflexivity|].
    apply (norm_segs_prepend false [] p).
  - destruct (isAbsolute cwd) eqn:Ha.
    + intros _. simpl negb. eexists. split; [reflexivity|]. right.
      split; [reflexivity|]. split; [reflexivity|].
      rewrite prepend_nonempty by (intros ->; discriminate).
      rewrite split_app. apply norm_segs_prepend.
    + simpl negb. intros H. exfalso. revert H.
      destruct (normalizeString (prepend cwd (prepend p [])) true) eqn:E; [discriminate|].
      rewrite <- E. unfold normalizeString.
      rewrite join_not_absolute; [discriminate|].
      apply keepable_joinable, norm_segs_keepable, split_pieces_slashless.
Qed.

(** Resolving a clean path, as [path.join] builds it, changes nothing. *)
Lemma resolve_of_clean (cwd : str) (K : list str) :
  K <> [] -> Forall clean K ->
  resolve cwd (SLASH :: JS.join [SLASH] K) = SLASH :: JS.join [SLASH] K.
Proof.
  intros Hne Hk. unfold resolve. simpl isAbsolute. cbv iota. simpl negb.
  f_equal. unfold normalizeString.
  rewrite norm_segs_prepend_only.
  change (split (SLASH :: JS.join [SLASH] K)) with ([] :: split (JS.join [SLASH] K)). rewrite split_join; [|assumption|].
  - f_equal. change ([] :: K) with ([[]] ++ K).
    unfold norm_segs. rewrite fold_left_app. simpl fold_left at 2.
    rewrite fold_of_clean by assumption. rewrite app_nil_r. apply rev_involutive.
  - eapply Forall_impl; [exact Hk|]. intros s (H & _). exact H.
Qed.

(** The file [f] in the directory [dir]: [path.join] and [path.resolve]
    agree on where it is. *)
Lemma resolve_join_clean (cwd dir f : str) :
  clean f ->
  isAbsolute (resolve cwd dir) = true ->
  resolve cwd dir <> [SLASH] ->
  resolve cwd (Path.join dir f) = resolve cwd dir ++ SLASH :: f.
Proof.
  intros Hf Habs Hroot.
  destruct (resolve_absolute cwd dir Habs) as (K & HR & Hcase).
  assert (K <> []) as HK.
  { intros ->. apply Hroot. rewrite HR. reflexivity. }
  assert (resolve cwd (Path.join dir f) = SLASH :: JS.join [SLASH] (K ++ [f])) as ->.
  { rewrite join_clean by assumption.
    destruct Hcase as [[Hd ->]|(Hd & Hc & ->)]; rewrite Hd.
    - apply resolve_of_clean; [destruct (norm_segs false (split dir)); discriminate|].
      apply Forall_app. split; [apply norm_segs_clean, split_pieces_slashless|].
      constructor; [assumption|constructor].
    - set (q := JS.join [SLASH] (norm_segs true (split dir) ++ [f])).
      assert (Forall keepable (norm_segs true (split dir) ++ [f])) as Hkeep.
      { apply Forall_app. split; [apply norm_segs_keepable, split_pieces_slashless|].
        constructor; [apply clean_keepable; assumption|constructor]. }
      assert (isAbsolute q = false) as Hq.
      { apply join_not_absolute, keepable_joinable. exact Hkeep. }
      unfold resolve. rewrite Hq, Hc. simpl negb. f_equal. unfold normalizeString. f_equal.
      rewrite prepend_nonempty by (intros ->; discriminate).
      rewrite split_app, norm_segs_prepend. unfold q.
      rewrite split_join;
        [|destruct (norm_segs true (split dir)); discriminate
         |eapply Forall_impl; [exact Hkeep|]; intros s (H & _); exact H].
      rewrite app_assoc. rewrite norm_segs_snoc by assumption. f_equal.
      unfold norm_segs. f_equal. rewrite !fold_left_app.
      rewrite (abs_after_rel (split dir) [] _ (split_pieces_slashless dir) (List.Forall_nil _)).
      reflexivity. }
  rewrite join_snoc by assumption. rewrite HR. reflexivity.
Qed.

Lemma startsWith_nil (s : str) : startsWith s [] = true.
Proof. destruct s; reflexivity. Qed.

Lemma startsWith_app (s p t : str) :
  startsWith s p = true -> startsWith (s ++ t) p = true.
Proof.
  revert s. induction p as [|x p IH]; intros s; [intros _; apply startsWith_nil|].
  destruct s as [|y s]; simpl; [discriminate|].
  rewrite !andb_true_iff. intros [H1 H2]. auto.
Qed.

Lemma startsWith_self (p t : str) : startsWith (p ++ t) p = true.
Proof.
  induction p as [|x p IH]; simpl; [apply startsWith_nil|].
  rewrite IH, (proj2 (ascii_eqb_eq x x) eq_refl). reflexivity.
Qed.

Lemma startsWith_absolute (s p : str) :
  startsWith s (SLASH :: p) = true -> isAbsolute s = true.
Proof.
  destruct s as [|c s]; simpl; [discriminate|].
  rewrite andb_true_iff. intros [H _]. apply ascii_eqb_eq in H. subst.
  reflexivity.
Qed.

End PathFacts.

(** ** The file-drop transport: writes *)

Module IpcWriteFacts.

Import JS JSFacts Path PathFacts Ipc.

Lemma digit_not_slash (d : Z) : d < 10 -> digit d <> SLASH.
Proof.
  intros Hd H. apply (f_equal N_of_ascii) in H. unfold digit in H.
  rewrite N_ascii_embedding in H by lia. vm_compute (N_of_ascii SLASH) in H. lia.
Qed.

Lemma dec_aux_slashless (fuel : nat) : forall n : Z, slashless (dec_aux fuel n).
Proof.
  induction fuel as [|fuel IH]; intros n; simpl; [constructor|].
  destruct (Z.ltb_spec n 10).
  - repeat constructor. apply digit_not_slash. assumption.
  - apply Forall_app. split; [apply IH|]. repeat constructor.
    apply digit_not_slash. pose proof (Z.mod_pos_bound n 10). lia.
Qed.

Lemma digit36_not_slash (d : nat) : digit36 d <> SLASH.
Proof.
  intros H. apply (f_equal nat_of_ascii) in H. unfold digit36 in H.
  pose proof (Nat.mod_upper_bound d 36 ltac:(lia)) as Hd.
  destruct (d mod 36 <? 10)%nat; rewrite nat_ascii_embedding in H by lia;
    vm_compute (nat_of_ascii SLASH) in H; lia.
Qed.

Lemma random_part_slashless (random : list nat) :
  slashless (take 6 (drop 2 (toString36 random))).
Proof.
  destruct random as [|d random]; [constructor|].
  change (drop 2 (toString36 (d :: random))) with (map digit36 (d :: random)).
  unfold slashless. apply Forall_take, Forall_map, Forall_forall.
  intros x _. apply digit36_not_slash.
Qed.

(** The name of an IPC file is a clean segment. *)
Lemma ipcFilename_clean (now : Z) (random : list nat) : clean (ipcFilename now random).
Proof.
  assert (2 < length (ipcFilename now random))%nat as Hlen.
  { unfold ipcFilename. rewrite !length_app. simpl. lia. }
  split; [|repeat split; intros H; rewrite H in Hlen; simpl in Hlen; lia].
  unfold ipcFilename, slashless. rewrite !Forall_app.
  split; [apply dec_aux_slashless|]. split; [repeat constructor; discriminate|].
  split; [apply random_part_slashless|]. repeat constructor; discriminate.
Qed.

Lemma underIpcRoot_absolute (r : str) :
  underIpcRoot r = true -> isAbsolute r = true /\ r <> [SLASH].
Proof.
  unfold underIpcRoot. rewrite orb_true_iff. intros [H|H].
  - split; [eapply startsWith_absolute; exact H|]. intros ->. discriminate.
  - apply str_eqb_eq in H. subst. split; [reflexivity | discriminate].
Qed.

(** A file in a directory under the IPC root is under the IPC root. *)
Lemma underIpcRoot_file (r f : str) :
  underIpcRoot r = true -> startsWith (r ++ SLASH :: f) (IPC_DIR ++ [SLASH]) = true.
Proof.
  unfold underIpcRoot. rewrite orb_true_iff. intros [H|H].
  - apply startsWith_app. exact H.
  - apply str_eqb_eq in H. subst.
    change (IPC_DIR ++ SLASH :: f) with ((IPC_DIR ++ [SLASH]) ++ f).
    apply startsWith_self.
Qed.

Lemma write_then_rename_eq (tempPath filepath : str) (c : content) (fs : Fs) :
  renameSync tempPath filepath (writeFileSync tempPath c fs) =
  with_files (<[ Path.resolve (cwd fs) filepath := c ]>
                (delete (Path.resolve (cwd fs) tempPath) (files fs))) fs.
Proof.
  unfold renameSync.
  assert (files (writeFileSync tempPath c fs)
            !! Path.resolve (cwd (writeFileSync tempPath c fs)) tempPath = Some c) as ->
    by apply lookup_insert_eq.
  unfold writeFileSync, with_files. cbn [files dirs cwd].
  rewrite delete_insert_eq. reflexivity.
Qed.

(** Write to a temporary file, then rename: the target holds the data, and
    no other file appears or changes. *)
Lemma write_then_rename (tempPath filepath : str) (c : content) (fs : Fs) :
  let fs' := renameSync tempPath filepath (writeFileSync tempPath c fs) in
  cwd fs' = cwd fs /\
  files fs' !! Path.resolve (cwd fs) filepath = Some c /\
  (forall q c', files fs' !! q = Some c' ->
     q = Path.resolve (cwd fs) filepath \/ files fs !! q = Some c').
Proof.
  rewrite write_then_rename_eq. cbn [with_files files cwd].
  split; [reflexivity|]. split; [apply lookup_insert_eq|].
  intros q c' H.
  destruct (decide (Path.resolve (cwd fs) filepath = q)) as [->|Hne]; [left; reflexivity|].
  right. rewrite lookup_insert_ne in H by assumption.
  apply lookup_delete_Some in H as [_ H]. exact H.
Qed.

Lemma writeIpcFile_denied (now : Z) (random : list nat) (dir : str) (data : json) (fs : Fs) :
  underIpcRoot (Path.resolve (cwd fs) dir) = false ->
  writeIpcFile now random dir data fs = (fs, inl (IpcWriteDenied dir)).
Proof.
  unfold underIpcRoot, writeIpcFile. intros H. apply orb_false_iff in H as [-> ->].
  reflexivity.
Qed.

Lemma writeIpcFile_written (now : Z) (random : list nat) (dir : str) (data : json) (fs : Fs) :
  underIpcRoot (Path.resolve (cwd fs) dir) = true ->
  exists fs' : Fs,
    writeIpcFile now random dir data fs = (fs', inr (ipcFilename now random)) /\
    cwd fs' = cwd fs /\
    Path.resolve (cwd fs) (Path.join dir (ipcFilename now random))
      = Path.resolve (cwd fs) dir ++ SLASH :: ipcFilename now random /\
    startsWith (Path.resolve (cwd fs) (Path.join dir (ipcFilename now random)))
      (IPC_DIR ++ [SLASH]) = true /\
    files fs' !! Path.resolve (cwd fs) (Path.join dir (ipcFilename now random))
      = Some (Doc data) /\
    (forall q c, files fs' !! q = Some c ->
       q = Path.resolve (cwd fs) (Path.join dir (ipcFilename now random))
       \/ files fs !! q = Some c).
Proof.
  intros Hroot. destruct (underIpcRoot_absolute _ Hroot) as [Habs Hne].
  pose proof (resolve_join_clean (cwd fs) dir _ (ipcFilename_clean now random) Habs Hne)
    as Hfinal.
  eexists. split.
  { unfold writeIpcFile. unfold underIpcRoot in Hroot.
    destruct (startsWith (Path.resolve (cwd fs) dir) (IPC_DIR ++ [SLASH]));
      [reflexivity|]. simpl in Hroot. rewrite Hroot. reflexivity. }
  pose proof (write_then_rename
                (Path.join dir (ipcFilename now random) ++ lit ".tmp")
                (Path.join dir (ipcFilename now random)) (Doc data)
                (mkdirSync (Path.resolve (cwd fs) dir) fs)) as (Hcwd & Hfile & Hframe).
  split; [exact Hcwd|]. split; [exact Hfinal|]. split.
  { rewrite Hfinal. apply underIpcRoot_file. exact Hroot. }
  split; [exact Hfile | exact Hframe].
Qed.

(** The writer of the plugins, in the directory the plugins pass. *)
Lemma pluginWriteIpcFile_written (now : Z) (random : list nat) (data : json) (fs : Fs) :
  let fs' := (pluginWriteIpcFile now random TASKS_DIR data fs).1 in
  let final := Path.resolve (cwd fs) (Path.join TASKS_DIR (ipcFilename now random)) in
  (pluginWriteIpcFile now random TASKS_DIR data fs).2 = ipcFilename now random /\
  cwd fs' = cwd fs /\
  final = TASKS_DIR ++ SLASH :: ipcFilename now random /\
  startsWith final (IPC_DIR ++ [SLASH]) = true /\
  files fs' !! final = Some (Doc data) /\
  (forall q c, files fs' !! q = Some c -> q = final \/ files fs !! q = Some c).
Proof.
  intros fs' final.
  assert (Path.resolve (cwd fs) TASKS_DIR = TASKS_DIR) as Hdir by reflexivity.
  assert (underIpcRoot TASKS_DIR = true) as Hroot by reflexivity.
  assert (final = TASKS_DIR ++ SLASH :: ipcFilename now random) as Hfinal.
  { unfold final. rewrite resolve_join_clean; rewrite ?Hdir;
      [reflexivity | apply ipcFilename_clean | reflexivity | discriminate]. }
  pose proof (write_then_rename
                (Path.join TASKS_DIR (ipcFilename now random) ++ lit ".tmp")
                (Path.join TASKS_DIR (ipcFilename now random)) (Doc data)
                (mkdirSync TASKS_DIR fs)) as (Hcwd & Hfile & Hframe).
  split; [reflexivity|]. split; [exact Hcwd|]. split; [exact Hfinal|]. split.
  { rewrite Hfinal. apply underIpcRoot_file. exact Hroot. }
  split; [exact Hfile | exact Hframe].
Qed.

(** C5. Every IPC write leaves its file at a path whose canonical absolute
    form has the IPC root [/workspace/ipc] as a prefix: [writeIpcFile]
    raises the path-escape error ('IPC write denied') whenever the resolved
    target directory is not the IPC root or under it, and then changes no
    file; otherwise the file it writes, and the only file it creates or
    changes, is [<resolved directory>/<name>]; the plugins write through
    their own [writeIpcFile] into [/workspace/ipc/tasks] only. *)
Theorem ipc_writes_stay_under_root (now : Z) (random : list nat) (data : json) (fs : Fs) :
  (forall dir : str,
     (underIpcRoot (Path.resolve (cwd fs) dir) = false ->
        exists t : Thrown,
          writeIpcFile now random dir data fs = (fs, inl t) /\
          startsWith (thrownMessage t) (lit "IPC write denied") = true) /\
     (underIpcRoot (Path.resolve (cwd fs) dir) = true ->
        exists (fs' : Fs) (filename final : str),
          writeIpcFile now random dir data fs = (fs', inr filename) /\
          final = Path.resolve (cwd fs) (Path.join dir filename) /\
          final = Path.resolve (cwd fs) dir ++ SLASH :: filename /\
          startsWith final (IPC_DIR ++ [SLASH]) = true /\
          files fs' !! final = Some (Doc data) /\
          (forall q c, files fs' !! q = Some c -> q = final \/ files fs !! q = Some c))) /\
  (exists (fs' : Fs) (filename final : str),
     pluginWriteIpcFile now random TASKS_DIR data fs = (fs', filename) /\
     final = Path.resolve (cwd fs) (Path.join TASKS_DIR filename) /\
     startsWith final (IPC_DIR ++ [SLASH]) = true /\
     files fs' !! final = Some (Doc data) /\
     (forall q c, files fs' !! q = Some c -> q = final \/ files fs !! q = Some c)).
Proof.
  split.
  - intros dir. split.
    + intros H. exists (IpcWriteDenied dir). split; [apply writeIpcFile_denied; exact H|].
      apply (startsWith_self (lit "IPC write denied")).
    + intros H. destruct (writeIpcFile_written now random dir data fs H)
        as (fs' & Hw & _ & Heq & Hsw & Hfile & Hframe).
      exists fs', (ipcFilename now random), (Path.resolve (cwd fs) (Path.join dir (ipcFilename now random))).
      repeat split; assumption.
  - destruct (pluginWriteIpcFile_written now random data fs)
      as (Hname & _ & Heq & Hsw & Hfile & Hframe).
    exists (pluginWriteIpcFile now random TASKS_DIR data fs).1, (ipcFilename now random),
      (Path.resolve (cwd fs) (Path.join TASKS_DIR (ipcFilename now random))).
    split; [rewrite <- Hname; apply surjective_pairing|].
    repeat split; assumption.
Qed.

End IpcWriteFacts.


(** ** Tools of the plugins *)

Module ToolsFacts.

Import JS JSFacts Path PathFacts Ipc IpcWriteFacts Tools.

Section Handlers.

Variable cronValid : str -> bool.
Variable dateValid : str -> bool.

Lemma targetJid_outside_main (args : ScheduleArgs) (ctx : ToolContext) :
  isMain ctx = false -> targetJid args ctx = chatJid ctx.
Proof.
  intros H. unfold targetJid. rewrite H. destruct (target_group_jid args); reflexivity.
Qed.

Lemma scheduleTaskDoc_target (args : ScheduleArgs) (ctx : ToolContext) (clk : Clock) :
  property (scheduleTaskDoc args ctx clk) (lit "targetJid")
    = Some (Some (JStr (targetJid args ctx))).
Proof. reflexivity. Qed.

Lemma scheduleTask_invalid (args : ScheduleArgs) (ctx : ToolContext) (clk : Clock) (fs : Fs)
  (msg : str) :
  validateSchedule cronValid dateValid (schedule_type args) (schedule_value args) = Some msg ->
  scheduleTask cronValid dateValid args ctx clk fs = (fs, error_result msg).
Proof. intros H. unfold scheduleTask. rewrite H. reflexivity. Qed.

Lemma scheduleTask_valid (args : ScheduleArgs) (ctx : ToolContext) (clk : Clock) (fs : Fs) :
  validateSchedule cronValid dateValid (schedule_type args) (schedule_value args) = None ->
  (scheduleTask cronValid dateValid args ctx clk fs).1
    = (pluginWriteIpcFile (now clk) (random clk) TASKS_DIR (scheduleTaskDoc args ctx clk) fs).1.
Proof.
  intros H. unfold scheduleTask. rewrite H.
  destruct (pluginWriteIpcFile _ _ _ _ _). reflexivity.
Qed.

End Handlers.

(** C8. Outside the main context ([isMain = false]) the request that
    [schedule_task] writes has [targetJid = ctx.chatJid]: every file the
    handler creates or changes is such a request, one is written whenever
    the schedule is valid, and two invocations that differ only in
    [target_group_jid] do the same: the argument has no influence. *)
Theorem schedule_task_targets_own_chat (cronValid dateValid : str -> bool)
  (args : ScheduleArgs) (ctx : ToolContext) (clk : Clock) (fs : Fs) :
  isMain ctx = false ->
  (forall q c,
     files (scheduleTask cronValid dateValid args ctx clk fs).1 !! q = Some c ->
     files fs !! q = Some c \/ holdsField c (lit "targetJid") (chatJid ctx)) /\
  (validateSchedule cronValid dateValid (schedule_type args) (schedule_value args) = None ->
   exists c,
     files (scheduleTask cronValid dateValid args ctx clk fs).1
       !! (TASKS_DIR ++ SLASH :: ipcFilename (now clk) (random clk)) = Some c /\
     holdsField c (lit "type") (lit "schedule_task") /\
     holdsField c (lit "targetJid") (chatJid ctx)) /\
  (forall t : option str,
     scheduleTask cronValid dateValid (withTarget t args) ctx clk fs
       = scheduleTask cronValid dateValid args ctx clk fs).
Proof.
  intros Hmain.
  pose proof (pluginWriteIpcFile_written (now clk) (random clk)
                (scheduleTaskDoc args ctx clk) fs) as (_ & _ & Hfinal & _ & Hfile & Hframe).
  assert (holdsField (Doc (scheduleTaskDoc args ctx clk)) (lit "targetJid") (chatJid ctx))
    as Hdoc.
  { exists (scheduleTaskDoc args ctx clk). split; [reflexivity|].
    rewrite scheduleTaskDoc_target, targetJid_outside_main by assumption. reflexivity. }
  split; [|split].
  - intros q c.
    destruct (validateSchedule cronValid dateValid (schedule_type args) (schedule_value args))
      as [msg|] eqn:Hv.
    + rewrite (scheduleTask_invalid _ _ _ _ _ _ msg Hv). auto.
    + rewrite (scheduleTask_valid _ _ _ _ _ _ Hv). intros H.
      destruct (Hframe q c H) as [->|Hold]; [|auto].
      right. rewrite Hfile in H. injection H as <-. exact Hdoc.
  - intros Hv. exists (Doc (scheduleTaskDoc args ctx clk)).
    rewrite (scheduleTask_valid _ _ _ _ _ _ Hv), <- Hfinal. split; [exact Hfile|].
    split; [|exact Hdoc]. eexists. split; reflexivity.
  - intros t. unfold scheduleTask. simpl.
    assert (scheduleTaskDoc (withTarget t args) ctx clk = scheduleTaskDoc args ctx clk) as ->.
    { unfold scheduleTaskDoc. rewrite !targetJid_outside_main by assumption. reflexivity. }
    reflexivity.
Qed.

Import Samples.

Lemma schedule_task_targets_own_chat_witness :
  isMain otherGroup = false /\
  scheduleTask (fun _ => true) (fun _ => true) (daily (Some (lit "discord:7"))) otherGroup
    noon emptyFs
  = scheduleTask (fun _ => true) (fun _ => true) (daily None) otherGroup noon emptyFs.
Proof.
  split; [reflexivity|].
  apply (schedule_task_targets_own_chat (fun _ => true) (fun _ => true) (daily None)
           otherGroup noon emptyFs eq_refl).
Defined.

(** C9. With [isMain = false] the handler of [register_group] returns an
    error result and changes no file; with [isMain = true] it returns a
    result without error and writes a [register_group] request into the
    tasks directory. *)
Theorem register_group_main_only (args : RegisterArgs) (ctx : ToolContext)
  (clk : Clock) (fs : Fs) :
  (isMain ctx = false ->
     (registerGroup args ctx clk fs).1 = fs /\
     isError (registerGroup args ctx clk fs).2 = true) /\
  (isMain ctx = true ->
     isError (registerGroup args ctx clk fs).2 = false /\
     exists c,
       files (registerGroup args ctx clk fs).1
         !! (TASKS_DIR ++ SLASH :: ipcFilename (now clk) (random clk)) = Some c /\
       holdsField c (lit "type") (lit "register_group") /\
       holdsField c (lit "jid") (arg_jid args)) /\
  (files (registerGroup args ctx clk fs).1 <> files fs -> isMain ctx = true).
Proof.
  split; [|split].
  - intros H. unfold registerGroup. rewrite H. split; reflexivity.
  - intros H. unfold registerGroup. rewrite H. simpl negb. cbv iota.
    pose proof (pluginWriteIpcFile_written (now clk) (random clk)
                  (registerGroupDoc args clk) fs) as (_ & _ & Hfinal & _ & Hfile & _).
    destruct (pluginWriteIpcFile _ _ _ _ _) as [fs' name] eqn:Hw. simpl in *.
    split; [reflexivity|]. exists (Doc (registerGroupDoc args clk)).
    rewrite <- Hfinal. split; [exact Hfile|]. split; eexists; split; reflexivity.
  - intros H. destruct (isMain ctx) eqn:Hm; [reflexivity|].
    exfalso. apply H. unfold registerGroup. rewrite Hm. reflexivity.
Qed.

End ToolsFacts.


(** ** Dependency order of plugins *)

Module RegistryFacts.

Import JS JSFacts Registry.

Lemma names_app (a b : list Discovered) : names (a ++ b) = names a ++ names b.
Proof. apply map_app. Qed.

Lemma elem_of_names (n : str) (l : list Discovered) :
  n ∈ names l <-> exists e, e ∈ l /\ name (manifest e) = n.
Proof.
  unfold names. rewrite list_elem_of_fmap. split; intros (e & H1 & H2); exists e; auto.
Qed.

Lemma names_lookup (l : list Discovered) (i : nat) (n : str) :
  names l !! i = Some n <-> exists e, l !! i = Some e /\ name (manifest e) = n.
Proof.
  unfold names. rewrite list_lookup_fmap. destruct (l !! i) as [e|]; simpl; split.
  - intros [= <-]. eauto.
  - intros (e' & [= <-] & <-). reflexivity.
  - discriminate.
  - intros (e' & H & _). discriminate.
Qed.

(** A loop that does not return stopped in a call of its body, entered
    with [visiting] as the loop found it. *)
Lemma forEach_stops (body : str -> Dfs -> Outcome Dfs) :
  (forall n st st', body n st = Done st' -> visiting st' = visiting st) ->
  forall (l : list str) (st : Dfs),
    (exists st', forEach body l st = Done st' /\ visiting st' = visiting st) \/
    (exists d std,
       d ∈ l /\ visiting std = visiting st /\ forEach body l st = body d std /\
       forall st', body d std <> Done st').
Proof.
  intros Hbody. induction l as [|n l IH]; intros st; simpl.
  - left. exists st. auto.
  - destruct (body n st) as [st1| |] eqn:Hn.
    + pose proof (Hbody n st st1 Hn) as Hv1.
      destruct (IH st1) as [(st' & Hrun & Hv)|(d & std & Hd & Hv & Hrun & Hnot)].
      * left. exists st'. split; [assumption | congruence].
      * right. exists d, std. split; [set_solver|]. split; [congruence|]. auto.
    + right. exists n, st. rewrite Hn. split; [set_solver|]. repeat split. discriminate.
    + right. exists n, st. rewrite Hn. split; [set_solver|]. repeat split. discriminate.
Qed.

Section Dfs.

Variable byName : gmap str Discovered.

(** The map is keyed by the names of its plugins. *)
Hypothesis keyed : forall n e, byName !! n = Some e -> name (manifest e) = n.

(** What is visited stays visited. *)
Lemma visited_grows (st st' : Dfs) (ext : list Discovered) (n : str) :
  Inv byName st -> Inv byName st' -> sorted st' = sorted st ++ ext ->
  n ∈ visited st -> n ∈ visited st'.
Proof using Type.
  intros I I' Hext Hn. apply (inv_visited _ _ I'). rewrite Hext, names_app.
  apply elem_of_app. left. apply (inv_visited _ _ I). exact Hn.
Qed.

Lemma forEach_returns (body : str -> Dfs -> Outcome Dfs) :
  Returns byName body ->
  forall (l : list str) (st st' : Dfs),
    Inv byName st -> forEach body l st = Done st' ->
    Inv byName st' /\ visiting st' = visiting st /\
    (exists ext, sorted st' = sorted st ++ ext) /\
    (forall d, d ∈ l -> d ∈ visited st' \/ byName !! d = None).
Proof using Type.
  intros Hbody. induction l as [|n l IH]; intros st st' I Hrun; simpl in Hrun.
  - injection Hrun as <-. split; [exact I|]. split; [reflexivity|].
    split; [exists []; rewrite app_nil_r; reflexivity|]. intros d Hd. inversion Hd.
  - destruct (body n st) as [st1| |] eqn:Hn; try discriminate.
    destruct (Hbody n st st1 I Hn) as (I1 & Hv1 & [ext1 He1] & Hn1).
    destruct (IH st1 st' I1 Hrun) as (I' & Hv' & [ext' He'] & Hl).
    split; [exact I'|]. split; [congruence|]. split.
    + exists (ext1 ++ ext'). rewrite He', He1, app_assoc. reflexivity.
    + intros d Hd. apply elem_of_cons in Hd as [->|Hd]; [|auto].
      destruct Hn1 as [Hn1|Hn1]; [|auto]. left.
      exact (visited_grows st1 st' ext' n I1 I' He' Hn1).
Qed.

Lemma visit_returns (fuel : nat) : Returns byName (visit byName fuel).
Proof.
  induction fuel as [|fuel IH]; intros n st st' I Hrun; simpl in Hrun; [discriminate|].
  destruct (decide (n ∈ visited st)) as [Hvis|Hvis].
  { injection Hrun as <-. split; [exact I|]. split; [reflexivity|].
    split; [exists []; rewrite app_nil_r; reflexivity | auto]. }
  destruct (decide (n ∈ visiting st)) as [Hing|Hing]; [discriminate|].
  destruct (byName !! n) as [entry|] eqn:Hentry.
  2:{ injection Hrun as <-. split; [exact I|]. split; [reflexivity|].
      split; [exists []; rewrite app_nil_r; reflexivity | auto]. }
  set (st1 := {| visited := visited st; visiting := {[n]} ∪ visiting st;
                 sorted := sorted st |}) in *.
  assert (Inv byName st1) as I1.
  { destruct I. constructor; simpl; try assumption.
    intros m Hm. pose proof (inv_disjoint0 m Hm). set_solver. }
  destruct (forEach (visit byName fuel) (dependencies (manifest entry)) st1)
    as [st2| |] eqn:Hdeps; try discriminate.
  injection Hrun as <-.
  destruct (forEach_returns _ IH _ _ _ I1 Hdeps) as (I2 & Hv2 & [ext He2] & Hd2).
  simpl in Hv2, He2.
  pose proof (keyed n entry Hentry) as Hname.
  assert (n ∉ names (sorted st2)) as Hfresh.
  { intros H. apply (inv_visited _ _ I2) in H.
    apply (inv_disjoint _ _ I2) in H. apply H. rewrite Hv2. set_solver. }
  split; [|split; [|split]].
  - constructor; simpl.
    + intros e He. apply elem_of_app in He as [He|He].
      * apply (inv_entries _ _ I2). exact He.
      * apply list_elem_of_singleton in He. subst e. rewrite Hname. exact Hentry.
    + intros m. rewrite names_app, elem_of_app, elem_of_union, elem_of_singleton.
      simpl. rewrite Hname, list_elem_of_singleton, (inv_visited _ _ I2). tauto.
    + rewrite names_app. simpl. rewrite Hname. apply NoDup_app.
      split; [apply (inv_nodup _ _ I2)|]. split; [|apply NoDup_singleton].
      intros m Hm Hm'. apply list_elem_of_singleton in Hm'. subst m. contradiction.
    + intros i e d Hi Hd Hsome.
      destruct (decide (i < length (sorted st2))%nat) as [Hlt|Hge].
      * rewrite lookup_app_l in Hi by assumption.
        destruct (inv_order _ _ I2 i e d Hi Hd Hsome) as (j & e' & Hj & Hje & Hjn).
        exists j, e'. split; [assumption|]. split; [|assumption].
        rewrite lookup_app_l by lia. assumption.
      * rewrite lookup_app_r in Hi by lia.
        destruct (i - length (sorted st2))%nat as [|k] eqn:Hk; [|destruct k; discriminate].
        injection Hi as <-.
        destruct (Hd2 d Hd) as [Hin|Hnone]; [|rewrite Hnone in Hsome; destruct Hsome; discriminate].
        apply (inv_visited _ _ I2) in Hin.
        apply list_elem_of_lookup in Hin as [j Hj].
        pose proof (lookup_lt_Some _ _ _ Hj) as Hjlt. unfold names in Hjlt.
        rewrite length_map in Hjlt.
        apply names_lookup in Hj as (e' & Hj & Hjn).
        exists j, e'. split; [lia|]. split; [|assumption].
        rewrite lookup_app_l by assumption. assumption.
    + intros m Hm. apply elem_of_union in Hm as [Hm|Hm]; [set_solver|].
      pose proof (inv_disjoint _ _ I2 m Hm). set_solver.
  - simpl. rewrite Hv2. set_solver.
  - simpl. exists (ext ++ [entry]). rewrite He2, app_assoc. reflexivity.
  - left. simpl. set_solver.
Qed.

(** A call of [visit] that returns leaves [visiting] as it was. *)
Lemma visit_visiting (fuel : nat) :
  forall n st st', visit byName fuel n st = Done st' -> visiting st' = visiting st.
Proof using Type.
  clear keyed.
  induction fuel as [|fuel IH]; intros n st st' Hrun; simpl in Hrun; [discriminate|].
  destruct (decide (n ∈ visited st)); [congruence|].
  destruct (decide (n ∈ visiting st)) as [|Hing]; [discriminate|].
  destruct (byName !! n) as [entry|]; [|congruence].
  match type of Hrun with context [forEach ?b ?l ?s] =>
    destruct (forEach_stops b IH l s) as [(st2 & Hdeps & Hv)|(d & std & _ & _ & Hdeps & Hnot)]
  end.
  - rewrite Hdeps in Hrun. injection Hrun as <-. simpl. rewrite Hv. simpl. set_solver.
  - rewrite Hdeps in Hrun. destruct (visit byName fuel d std) eqn:E; try discriminate.
    exfalso. eapply Hnot. reflexivity.
Qed.

(** A throw names a plugin on a cycle, when everything being visited
    reaches the plugin the call is for. *)
Lemma visit_throws (fuel : nat) :
  forall (n : str) (st : Dfs) (msg : str),
    (forall x, x ∈ visiting st -> tc (dependsOn byName) x n) ->
    visit byName fuel n st = Throw msg ->
    exists c, msg = circular c /\ onCycle byName c.
Proof using Type.
  clear keyed.
  induction fuel as [|fuel IH]; intros n st msg Hreach Hrun; simpl in Hrun; [discriminate|].
  destruct (decide (n ∈ visited st)); [discriminate|].
  destruct (decide (n ∈ visiting st)) as [Hing|Hing].
  { injection Hrun as <-. exists n. split; [reflexivity|]. apply Hreach. exact Hing. }
  destruct (byName !! n) as [entry|] eqn:Hentry; [|discriminate].
  match type of Hrun with context [forEach ?b ?l ?s] =>
    destruct (forEach_stops b (visit_visiting fuel) l s)
      as [(st2 & Hdeps & Hv)|(d & std & Hd & Hv & Hdeps & Hnot)]
  end.
  - rewrite Hdeps in Hrun. discriminate.
  - rewrite Hdeps in Hrun.
    destruct (visit byName fuel d std) eqn:E; try discriminate.
    injection Hrun as <-. apply (IH d std msg0); [|exact E].
    intros x Hx. rewrite Hv in Hx. simpl in Hx.
    assert (dependsOn byName n d) as Hedge by (exists entry; auto).
    apply elem_of_union in Hx as [Hx|Hx].
    + apply elem_of_singleton in Hx. subst x. apply tc_once. exact Hedge.
    + eapply tc_r; [apply Hreach; exact Hx | exact Hedge].
Qed.

(** A nested call finds one plugin more in [visiting], so the fuel given
    by [topologicalSort] is never used up. *)
Lemma visit_fuel (fuel : nat) :
  forall (n : str) (st : Dfs),
    visiting st ⊆ dom byName ->
    (size (dom byName ∖ visiting st) < fuel)%nat ->
    visit byName fuel n st <> OutOfFuel.
Proof using Type.
  clear keyed.
  induction fuel as [|fuel IH]; intros n st Hsub Hsize; [lia|]. simpl.
  destruct (decide (n ∈ visited st)); [discriminate|].
  destruct (decide (n ∈ visiting st)) as [Hing|Hing]; [discriminate|].
  destruct (byName !! n) as [entry|] eqn:Hentry; [|discriminate].
  match goal with |- context [forEach ?b ?l ?s] =>
    destruct (forEach_stops b (visit_visiting fuel) l s)
      as [(st2 & Hdeps & Hv)|(d & std & Hd & Hv & Hdeps & Hnot)]
  end.
  - rewrite Hdeps. discriminate.
  - rewrite Hdeps. destruct (visit byName fuel d std) eqn:E; try discriminate.
    exfalso. revert E. apply IH.
    + rewrite Hv. simpl. assert (n ∈ dom byName) by (apply elem_of_dom; eauto). set_solver.
    + rewrite Hv. simpl.
      assert (n ∈ dom byName ∖ visiting st) as Hn.
      { apply elem_of_difference. split; [apply elem_of_dom; eauto | assumption]. }
      assert (dom byName ∖ visiting st
              = {[n]} ∪ (dom byName ∖ ({[n]} ∪ visiting st))) as Heq.
      { apply set_eq. intros x. destruct (decide (x = n)); set_solver. }
      rewrite Heq in Hsize. rewrite size_union in Hsize by set_solver.
      rewrite size_singleton in Hsize. lia.
Qed.

End Dfs.

(** *** The map of the batch *)

Lemma mkByName_snoc (l : list Discovered) (p : Discovered) :
  mkByName (l ++ [p]) = <[ name (manifest p) := p ]> (mkByName l).
Proof. unfold mkByName. rewrite fold_left_app. reflexivity. Qed.

Lemma mkByName_keyed (l : list Discovered) :
  forall n e, mkByName l !! n = Some e -> name (manifest e) = n /\ e ∈ l.
Proof.
  induction l as [|p l IH] using rev_ind; intros n e H.
  - unfold mkByName in H. simpl in H. rewrite lookup_empty in H. discriminate.
  - rewrite mkByName_snoc in H.
    destruct (decide (name (manifest p) = n)) as [<-|Hne].
    + rewrite lookup_insert_eq in H. injection H as <-. split; [reflexivity|set_solver].
    + rewrite lookup_insert_ne in H by assumption.
      destruct (IH n e H). split; [assumption|set_solver].
Qed.

Lemma mkByName_dom (l : list Discovered) :
  forall n, is_Some (mkByName l !! n) <-> n ∈ names l.
Proof.
  induction l as [|p l IH] using rev_ind; intros n.
  - unfold mkByName. simpl. rewrite lookup_empty. split; [intros [? ?]; discriminate|].
    intros H. inversion H.
  - rewrite mkByName_snoc, names_app, elem_of_app. simpl.
    rewrite list_elem_of_singleton, <- IH.
    destruct (decide (name (manifest p) = n)) as [<-|Hne].
    + rewrite lookup_insert_eq. split; eauto.
    + rewrite lookup_insert_ne by assumption. split; [auto|]. intros [H|H]; congruence.
Qed.

Lemma mkByName_size (l : list Discovered) : (size (dom (mkByName l)) <= length l)%nat.
Proof.
  induction l as [|p l IH] using rev_ind.
  - unfold mkByName. simpl. rewrite dom_empty_L, size_empty. lia.
  - rewrite mkByName_snoc, dom_insert_L, length_app. simpl.
    pose proof (size_union_alt {[name (manifest p)]} (dom (mkByName l))) as Hs.
    rewrite size_singleton in Hs.
    pose proof (subseteq_size (dom (mkByName l) ∖ {[name (manifest p)]}) (dom (mkByName l))
                  ltac:(set_solver)).
    lia.
Qed.

(** With no name twice in the batch, the map holds every plugin of it. *)
Lemma mkByName_unique (l : list Discovered) :
  NoDup (names l) -> forall p, p ∈ l -> mkByName l !! name (manifest p) = Some p.
Proof.
  induction l as [|q l IH] using rev_ind; intros Hnd p Hp; [inversion Hp|].
  rewrite names_app in Hnd. apply NoDup_app in Hnd as (Hl & Hfresh & _).
  rewrite mkByName_snoc. apply elem_of_app in Hp as [Hp|Hp].
  - rewrite lookup_insert_ne; [apply IH; assumption|].
    intros Heq. apply (Hfresh (name (manifest p))).
    + apply elem_of_names. eauto.
    + simpl. rewrite Heq. set_solver.
  - apply list_elem_of_singleton in Hp. subst. apply lookup_insert_eq.
Qed.

(** *** [topologicalSort] *)

Lemma start_inv (byName : gmap str Discovered) : Inv byName start.
Proof.
  constructor; simpl.
  - intros e H. inversion H.
  - intros n. set_solver.
  - constructor.
  - intros i e d H. discriminate.
  - intros n H. set_solver.
Qed.

(** Along dependencies that name plugins of the batch, positions in a
    list that has dependencies first go down. *)
Lemma position_goes_down (byName : gmap str Discovered) (l : list Discovered) :
  (forall e, e ∈ l -> byName !! name (manifest e) = Some e) ->
  (forall n, is_Some (byName !! n) -> n ∈ names l) ->
  NoDup (names l) ->
  dependenciesFirst byName l ->
  forall a b, tc (dependsOn byName) a b -> is_Some (byName !! b) ->
    exists i j, (j < i)%nat /\ names l !! i = Some a /\ names l !! j = Some b.
Proof.
  intros Hentries Hdom Hnd Hord.
  assert (forall a b, dependsOn byName a b -> is_Some (byName !! b) ->
            exists i j, (j < i)%nat /\ names l !! i = Some a /\ names l !! j = Some b)
    as Hstep.
  { intros a b (e & Ha & Hb) Hsome.
    assert (a ∈ names l) as Hin by (apply Hdom; eauto).
    apply list_elem_of_lookup in Hin as [i Hi].
    pose proof Hi as Hi'. apply names_lookup in Hi' as (e' & Hie & Hname).
    assert (e' = e) as ->.
    { pose proof (Hentries e' ltac:(eapply list_elem_of_lookup_2; eauto)) as He'.
      rewrite Hname in He'. congruence. }
    destruct (Hord i e b Hie Hb Hsome) as (j & e'' & Hj & Hje & Hjn).
    exists i, j. split; [assumption|]. split; [assumption|].
    apply names_lookup. eauto. }
  intros a b Htc. induction Htc as [a b Hab|a x b Hax Hxb IH]; intros Hsome.
  - apply Hstep; assumption.
  - assert (is_Some (byName !! x)) as Hx.
    { inversion Hxb as [? ? (e & He & _)|? ? ? (e & He & _)]; subst; eauto. }
    destruct (Hstep a x Hax Hx) as (i & jx & H1 & Hi & Hjx).
    destruct (IH Hsome) as (ix & j & H2 & Hix & Hj).
    assert (jx = ix) as -> by (eapply NoDup_lookup; eauto).
    exists i, j. split; [lia|]. auto.
Qed.

(** What [topologicalSort] returns. *)
Lemma topologicalSort_done (plugins sorted : list Discovered) :
  topologicalSort plugins = Done sorted ->
  (forall e, e ∈ sorted -> mkByName plugins !! name (manifest e) = Some e) /\
  (forall n, n ∈ names sorted <-> n ∈ names plugins) /\
  NoDup (names sorted) /\
  dependenciesFirst (mkByName plugins) sorted.
Proof.
  unfold topologicalSort.
  destruct (forEach _ _ _) as [st| |] eqn:Hrun; try discriminate. intros [= <-].
  assert (forall n e, mkByName plugins !! n = Some e -> name (manifest e) = n) as Hkeyed.
  { intros n e H. apply (mkByName_keyed plugins n e H). }
  destruct (forEach_returns (mkByName plugins) _
              (visit_returns (mkByName plugins) Hkeyed (S (length plugins)))
              (names plugins) start st (start_inv _) Hrun) as (I & _ & _ & Hall).
  split; [apply (inv_entries _ _ I)|]. split; [|split].
  - intros n. split.
    + intros Hn. apply elem_of_names in Hn as (e & He & <-).
      apply mkByName_dom. rewrite (inv_entries _ _ I e He). eauto.
    + intros Hn. apply (inv_visited _ _ I).
      destruct (Hall n Hn) as [H|H]; [exact H|].
      apply mkByName_dom in Hn. rewrite H in Hn. destruct Hn. discriminate.
  - apply (inv_nodup _ _ I).
  - apply (inv_order _ _ I).
Qed.

Lemma topologicalSort_fuel (plugins : list Discovered) :
  topologicalSort plugins <> OutOfFuel.
Proof.
  unfold topologicalSort.
  destruct (forEach_stops (visit (mkByName plugins) (S (length plugins)))
              (visit_visiting (mkByName plugins) (S (length plugins)))
              (names plugins) start)
    as [(st & Hrun & _)|(d & std & _ & Hv & Hrun & _)]; rewrite Hrun; [discriminate|].
  destruct (visit (mkByName plugins) (S (length plugins)) d std) eqn:E; try discriminate.
  exfalso. revert E. apply visit_fuel.
  - rewrite Hv. simpl. set_solver.
  - rewrite Hv. simpl. rewrite difference_empty_L.
    pose proof (mkByName_size plugins). lia.
Qed.

Lemma topologicalSort_throws (plugins : list Discovered) (msg : str) :
  topologicalSort plugins = Throw msg ->
  exists c, msg = circular c /\ onCycle (mkByName plugins) c.
Proof.
  unfold topologicalSort.
  destruct (forEach_stops (visit (mkByName plugins) (S (length plugins)))
              (visit_visiting (mkByName plugins) (S (length plugins)))
              (names plugins) start)
    as [(st & Hrun & _)|(d & std & _ & Hv & Hrun & _)]; rewrite Hrun; [discriminate|].
  destruct (visit (mkByName plugins) (S (length plugins)) d std) eqn:E; try discriminate.
  intros [= <-]. apply (visit_throws (mkByName plugins) (S (length plugins)) d std msg0); [|exact E].
  intros x Hx. rewrite Hv in Hx. simpl in Hx. set_solver.
Qed.

(** A batch with a cycle is not sorted. *)
Lemma topologicalSort_cycle (plugins sorted : list Discovered) (n : str) :
  onCycle (mkByName plugins) n -> topologicalSort plugins <> Done sorted.
Proof.
  intros Hcycle Hdone.
  destruct (topologicalSort_done plugins sorted Hdone) as (Hentries & Hnames & Hnd & Hord).
  assert (is_Some (mkByName plugins !! n)) as Hn.
  { inversion Hcycle as [? ? (e & He & _)|? ? ? (e & He & _)]; subst; eauto. }
  destruct (position_goes_down (mkByName plugins) sorted Hentries
              ltac:(intros m Hm; apply Hnames, mkByName_dom, Hm) Hnd Hord n n Hcycle Hn)
    as (i & j & Hlt & Hi & Hj).
  assert (i = j) by (eapply NoDup_lookup; eauto). lia.
Qed.

Lemma sorted_permutation (plugins sorted : list Discovered) :
  topologicalSort plugins = Done sorted -> NoDup (names plugins) -> sorted ≡ₚ plugins.
Proof.
  intros Hdone Hnd.
  destruct (topologicalSort_done plugins sorted Hdone) as (Hentries & Hnames & Hnds & _).
  apply NoDup_Permutation.
  - eapply NoDup_fmap_1. exact Hnds.
  - eapply NoDup_fmap_1. exact Hnd.
  - intros e. split.
    + intros He. apply (mkByName_keyed plugins _ e (Hentries e He)).
    + intros He.
      assert (name (manifest e) ∈ names sorted) as Hin.
      { apply Hnames, elem_of_names. eauto. }
      apply elem_of_names in Hin as (e' & He' & Hname).
      pose proof (Hentries e' He') as H1. rewrite Hname in H1.
      rewrite (mkByName_unique plugins Hnd e He) in H1. congruence.
Qed.

(** The message of the error holds the name it was raised for. *)
Lemma includes_head (s p : str) : startsWith s p = true -> includes s p = true.
Proof. intros H. destruct s; cbn [includes]; rewrite H; reflexivity. Qed.

Lemma includes_app (a s b : str) : includes (a ++ s ++ b) s = true.
Proof.
  induction a as [|c a IH]; simpl.
  - apply includes_head, PathFacts.startsWith_self.
  - rewrite IH. apply orb_true_r.
Qed.

Lemma circular_names (n : str) : includes (circular n) n = true.
Proof.
  unfold circular.
  rewrite (app_assoc (lit "Circular plugin dependency detected involving ") [DQUOTE]).
  apply includes_app.
Qed.

Section Loading.

Variable Plugin : Type.
Variable importModule : str -> Imported Plugin.
Variable onLoad : Plugin -> LoadResult.

Lemma loadAll_throws (fs : Ipc.Fs) (discovered : list Discovered) (r : Loaded Plugin)
  (msg : str) :
  topologicalSort discovered = Throw msg ->
  loadAll Plugin importModule onLoad fs discovered r = (r, Throw msg).
Proof. intros H. unfold loadAll. rewrite H. reflexivity. Qed.

End Loading.

(** C7. [topologicalSort] returns plugins of the batch, one for each
    name, each after all of its dependencies that name a plugin of the
    batch (dependencies that name none are skipped without error); with no
    name twice in the batch the result is a permutation of the batch.  It
    returns whenever the dependency graph has no cycle.  If the graph has a
    cycle it throws an error whose message is
    [Circular plugin dependency detected involving "c"] for a plugin [c] on
    a cycle, and [loadAll] then throws the same error and leaves the
    registry as it was: no plugin of the batch is loaded. *)
Theorem topological_sort_orders_or_throws (plugins : list Discovered) :
  (forall sorted : list Discovered,
     topologicalSort plugins = Done sorted ->
     (forall e, e ∈ sorted -> e ∈ plugins) /\
     (forall n, n ∈ names sorted <-> n ∈ names plugins) /\
     NoDup (names sorted) /\
     dependenciesFirst (mkByName plugins) sorted /\
     (NoDup (names plugins) -> sorted ≡ₚ plugins)) /\
  ((forall n, ~ onCycle (mkByName plugins) n) ->
     exists sorted, topologicalSort plugins = Done sorted) /\
  ((exists n, onCycle (mkByName plugins) n) ->
     exists (c msg : str),
       msg = lit "Circular plugin dependency detected involving "
             ++ [DQUOTE] ++ c ++ [DQUOTE] /\
       includes msg c = true /\
       topologicalSort plugins = Throw msg /\
       onCycle (mkByName plugins) c /\
       forall (Plugin : Type) (importModule : str -> Imported Plugin)
              (onLoad : Plugin -> LoadResult) (fs : Ipc.Fs) (r : Loaded Plugin),
         loadAll Plugin importModule onLoad fs plugins r = (r, Throw msg)).
Proof.
  split; [|split].
  - intros sorted Hdone.
    destruct (topologicalSort_done plugins sorted Hdone) as (Hentries & Hnames & Hnd & Hord).
    split; [intros e He; apply (mkByName_keyed plugins _ e (Hentries e He))|].
    split; [exact Hnames|]. split; [exact Hnd|]. split; [exact Hord|].
    apply sorted_permutation. exact Hdone.
  - intros Hacyclic. destruct (topologicalSort plugins) as [sorted|msg|] eqn:Hrun.
    + eauto.
    + destruct (topologicalSort_throws plugins msg Hrun) as (c & _ & Hc).
      exfalso. exact (Hacyclic c Hc).
    + exfalso. exact (topologicalSort_fuel plugins Hrun).
  - intros [n Hn]. destruct (topologicalSort plugins) as [sorted|msg|] eqn:Hrun.
    + exfalso. exact (topologicalSort_cycle plugins sorted n Hn Hrun).
    + destruct (topologicalSort_throws plugins msg Hrun) as (c & -> & Hc).
      exists c, (circular c). split; [reflexivity|]. split; [apply circular_names|].
      split; [reflexivity|]. split; [exact Hc|].
      intros Plugin importModule onLoad fs r. apply loadAll_throws. exact Hrun.
    + exfalso. exact (topologicalSort_fuel plugins Hrun).
Qed.

Import Samples.

(** The batch [{a, b -> [a], c -> [b, a]}] loads as [a, b, c]; with
    [a -> [c]] the sort throws and names a plugin on the cycle.  The two
    cases of the test-suite follow. *)
Example sort_of_a_b_c :
  topologicalSort [plugin "c" ["b"; "a"]; plugin "b" ["a"]; plugin "a" []]
    = Done [plugin "a" []; plugin "b" ["a"]; plugin "c" ["b"; "a"]] /\
  topologicalSort [plugin "c" ["b"; "a"]; plugin "b" ["a"]; plugin "a" ["c"]]
    = Throw (circular (lit "c")) /\
  (names <$> match topologicalSort [plugin "b" ["a"]; plugin "a" []] with
             | Done l => Some l
             | _ => None
             end) = Some [lit "a"; lit "b"] /\
  topologicalSort [plugin "a" ["b"]; plugin "b" ["a"]] = Throw (circular (lit "a")) /\
  topologicalSort [plugin "a" ["missing"]] = Done [plugin "a" ["missing"]].
Proof. repeat split; vm_compute; reflexivity. Qed.

End RegistryFacts.


(** ** The order of [sort()] *)

Module OrderFacts.

Import JS JSFacts.

Lemma code_inj (x y : ascii) : code x = code y -> x = y.
Proof.
  unfold code. intros H. apply N2Z.inj in H.
  rewrite <- (ascii_N_embedding x), <- (ascii_N_embedding y), H. reflexivity.
Qed.

Lemma str_ltb_cons (x y : ascii) (a b : str) :
  str_ltb (x :: a) (y :: b) =
  if code x <? code y then true else if code y <? code x then false else str_ltb a b.
Proof. reflexivity. Qed.

Lemma str_ltb_irrefl (a : str) : str_ltb a a = false.
Proof.
  induction a as [|x a IH]; [reflexivity|]. rewrite str_ltb_cons, Z.ltb_irrefl. exact IH.
Qed.

Lemma str_ltb_trans (a : str) :
  forall b c, str_ltb a b = true -> str_ltb b c = true -> str_ltb a c = true.
Proof.
  induction a as [|x a IH]; intros [|y b] [|z c]; try (simpl; congruence).
  rewrite !str_ltb_cons.
  destruct (Z.ltb_spec (code x) (code y)), (Z.ltb_spec (code y) (code x)),
    (Z.ltb_spec (code y) (code z)), (Z.ltb_spec (code z) (code y)),
    (Z.ltb_spec (code x) (code z)), (Z.ltb_spec (code z) (code x));
    try lia; try congruence.
  apply IH.
Qed.

Lemma str_ltb_asym (a b : str) : str_ltb a b = true -> str_ltb b a = false.
Proof.
  intros H. destruct (str_ltb b a) eqn:E; [|reflexivity].
  pose proof (str_ltb_trans a b a H E) as H'. rewrite str_ltb_irrefl in H'. discriminate.
Qed.

Lemma str_ltb_connected (a : str) :
  forall b, str_ltb a b = false -> str_ltb b a = false -> a = b.
Proof.
  induction a as [|x a IH]; intros [|y b]; try (simpl; congruence).
  rewrite !str_ltb_cons.
  destruct (Z.ltb_spec (code x) (code y)), (Z.ltb_spec (code y) (code x));
    try lia; try congruence.
  intros H1 H2. assert (x = y) as -> by (apply code_inj; lia).
  f_equal. apply IH; assumption.
Qed.

#[global] Instance str_le_total : Total str_le.
Proof.
  intros a b. unfold str_le. destruct (str_ltb b a) eqn:E; [right|left; reflexivity].
  apply str_ltb_asym. exact E.
Qed.

#[global] Instance str_le_trans : Transitive str_le.
Proof.
  intros a b c Hab Hbc. unfold str_le in *.
  destruct (str_ltb c a) eqn:Hca; [|reflexivity]. exfalso.
  destruct (str_ltb a b) eqn:Hlt.
  - rewrite (str_ltb_trans c a b Hca Hlt) in Hbc. discriminate.
  - assert (a = b) as -> by (apply str_ltb_connected; assumption). congruence.
Qed.

#[global] Instance str_le_antisym : AntiSymm (=) str_le.
Proof. intros a b Hab Hba. unfold str_le in *. apply str_ltb_connected; assumption. Qed.

(** A strictly increasing list is sorted and has no name twice. *)
Lemma increasing_sorted (l : list str) :
  StronglySorted (fun a b => str_ltb a b = true) l -> StronglySorted str_le l /\ NoDup l.
Proof.
  induction 1 as [|x l Hl [IH1 IH2] Hx]; [split; constructor|]. split.
  - constructor; [assumption|]. eapply Forall_impl; [exact Hx|].
    intros y Hy. apply str_ltb_asym. exact Hy.
  - constructor; [|assumption]. intros Hin.
    rewrite Forall_forall in Hx. specialize (Hx x Hin).
    rewrite str_ltb_irrefl in Hx. discriminate.
Qed.

(** An order on a common prefix is the order of what follows it. *)
Lemma str_ltb_prefix (p a b : str) : str_ltb (p ++ a) (p ++ b) = str_ltb a b.
Proof.
  induction p as [|x p IH]; [reflexivity|]. simpl app.
  rewrite str_ltb_cons, Z.ltb_irrefl. exact IH.
Qed.

(** *** Decimal numerals *)

Lemma digit_code (d : Z) : 0 <= d < 10 -> code (digit d) = 48 + d.
Proof.
  intros Hd. unfold code, digit. rewrite N_ascii_embedding by lia. lia.
Qed.

Lemma dec_aux_nonempty (fuel : nat) (n : Z) : dec_aux (S fuel) n <> [].
Proof.
  simpl. destruct (n <? 10); [discriminate|]. intros H.
  apply app_eq_nil in H as [_ H]. discriminate.
Qed.

(** Fuel beyond the number of digits changes nothing. *)
Lemma dec_aux_fuel (f : nat) :
  forall (f' : nat) (n : Z),
    0 <= n -> n < 10 ^ Z.of_nat (S f) -> n < 10 ^ Z.of_nat (S f') ->
    dec_aux (S f) n = dec_aux (S f') n.
Proof.
  induction f as [|f IH]; intros f' n H0 Hf Hf'.
  { change (10 ^ Z.of_nat 1) with 10 in Hf. simpl.
    destruct (Z.ltb_spec n 10); [reflexivity|lia]. }
  change (dec_aux (S (S f)) n)
    with (if n <? 10 then [digit n] else dec_aux (S f) (n / 10) ++ [digit (n mod 10)]).
  change (dec_aux (S f') n)
    with (if n <? 10 then [digit n] else dec_aux f' (n / 10) ++ [digit (n mod 10)]).
  destruct (Z.ltb_spec n 10); [reflexivity|]. f_equal.
  rewrite Nat2Z.inj_succ, Z.pow_succ_r in Hf, Hf' by lia.
  destruct f' as [|f']; [change (10 ^ Z.of_nat 0) with 1 in Hf'; lia|].
  apply IH; [apply Z.div_pos; lia | |]; apply Z.div_lt_upper_bound; lia.
Qed.

Lemma log2_fuel (n : Z) : 0 <= n -> n < 10 ^ Z.of_nat (S (Z.to_nat (Z.log2 n))).
Proof.
  intros H0. destruct (Z.eq_dec n 0) as [->|Hn]; [reflexivity|].
  pose proof (Z.log2_spec n ltac:(lia)) as [_ Hlog].
  rewrite Nat2Z.inj_succ, Z2Nat.id by apply Z.log2_nonneg.
  eapply Z.lt_le_trans; [exact Hlog|].
  apply Z.pow_le_mono_l. pose proof (Z.log2_nonneg n). lia.
Qed.

Lemma dec_fuel (n : Z) (f : nat) :
  0 <= n -> n < 10 ^ Z.of_nat (S f) -> dec n = dec_aux (S f) n.
Proof.
  intros H0 Hf. unfold dec. apply dec_aux_fuel; [assumption| |assumption].
  apply log2_fuel. assumption.
Qed.

(** Of two numerals of one length, the smaller number comes first,
    whatever follows the numerals. *)
Lemma dec_aux_increasing (f : nat) :
  forall (a b : Z) (s t : str),
    0 <= a < b -> b < 10 ^ Z.of_nat f ->
    length (dec_aux f a) = length (dec_aux f b) ->
    str_ltb (dec_aux f a ++ s) (dec_aux f b ++ t) = true.
Proof.
  induction f as [|f IH]; intros a b s t Hab Hf Hlen.
  { simpl in Hf. lia. }
  rewrite Nat2Z.inj_succ, Z.pow_succ_r in Hf by lia.
  simpl in Hlen |- *.
  destruct (Z.ltb_spec a 10) as [Ha|Ha], (Z.ltb_spec b 10) as [Hb|Hb].
  - simpl. rewrite !digit_code by lia.
    destruct (Z.ltb_spec (48 + a) (48 + b)); [reflexivity|lia].
  - exfalso. rewrite length_app in Hlen. simpl in Hlen.
    destruct f as [|f]; [simpl in Hf; lia|].
    pose proof (dec_aux_nonempty f (b / 10)) as Hne.
    destruct (dec_aux (S f) (b / 10)); [congruence|simpl in Hlen; lia].
  - lia.
  - rewrite <- !app_assoc.
    assert (a / 10 <= b / 10) as Hq by (apply Z.div_le_mono; lia).
    rewrite !length_app in Hlen. simpl in Hlen.
    destruct (Z.eq_dec (a / 10) (b / 10)) as [Heq|Hneq].
    + rewrite Heq, str_ltb_prefix. simpl.
      pose proof (Z.mod_pos_bound a 10 ltac:(lia)).
      pose proof (Z.mod_pos_bound b 10 ltac:(lia)).
      rewrite !digit_code by lia.
      pose proof (Z.div_mod a 10 ltac:(lia)). pose proof (Z.div_mod b 10 ltac:(lia)).
      destruct (Z.ltb_spec (48 + a mod 10) (48 + b mod 10)); [reflexivity|lia].
    + apply IH; [split; [apply Z.div_pos; lia | lia] | | lia].
      apply Z.div_lt_upper_bound; lia.
Qed.

Lemma dec_increasing (a b : Z) (s t : str) :
  0 <= a < b -> length (dec a) = length (dec b) ->
  str_ltb (dec a ++ s) (dec b ++ t) = true.
Proof.
  intros Hab Hlen.
  pose proof (log2_fuel b ltac:(lia)) as Hb.
  rewrite (dec_fuel a (Z.to_nat (Z.log2 b))) in * by lia.
  rewrite (dec_fuel b (Z.to_nat (Z.log2 b))) in * by lia.
  apply dec_aux_increasing; assumption || lia.
Qed.

End OrderFacts.


(** ** The file-drop transport: drain *)

Module IpcDrainFacts.

Import JS JSFacts Path PathFacts Ipc IpcWriteFacts OrderFacts.

Lemma startsWith_spec (s p : str) : startsWith s p = true <-> exists t, s = p ++ t.
Proof.
  revert s. induction p as [|x p IH]; intros s.
  - rewrite startsWith_nil. split; [intros _; exists s; reflexivity | reflexivity].
  - destruct s as [|y s]; simpl.
    + split; [discriminate | intros [t H]; discriminate].
    + rewrite andb_true_iff, ascii_eqb_eq, IH. split.
      * intros [-> [t ->]]. exists t. reflexivity.
      * intros [t [= -> ->]]. eauto.
Qed.

Lemma endsWith_spec (s p : str) : endsWith s p = true <-> exists t, s = t ++ p.
Proof.
  unfold endsWith. rewrite startsWith_spec. split; intros [t H].
  - exists (rev t). apply (f_equal (@rev ascii)) in H.
    rewrite rev_involutive, rev_app_distr, rev_involutive in H. exact H.
  - exists (rev t). rewrite H, rev_app_distr. reflexivity.
Qed.

Lemma strip_prefix_spec (d p n : str) : strip_prefix d p = Some n <-> p = d ++ n.
Proof.
  revert p. induction d as [|x d IH]; intros p; simpl.
  - split; [intros [= ->]; reflexivity | intros ->; reflexivity].
  - destruct p as [|y p]; [split; discriminate|].
    destruct (ascii_eqb x y) eqn:E.
    + apply ascii_eqb_eq in E. subst y. rewrite IH. split; [intros ->; reflexivity|].
      intros [= ->]. reflexivity.
    + split; [discriminate|]. intros [= -> _].
      rewrite (proj2 (ascii_eqb_eq _ _) eq_refl) in E. discriminate.
Qed.

Lemma has_slash_spec (s : str) : has_slash s = false <-> slashless s.
Proof.
  unfold has_slash, slashless. induction s as [|c s IH]; simpl.
  - split; [constructor | reflexivity].
  - rewrite orb_false_iff, IH, Forall_cons. rewrite <- ascii_eqb_eq.
    destruct (ascii_eqb c SLASH); split; intros [H1 H2]; split;
      congruence || assumption.
Qed.

Lemma entry_name_spec (d p n : str) :
  entry_name d p = Some n <-> p = d ++ SLASH :: n /\ slashless n /\ n <> [].
Proof.
  unfold entry_name.
  destruct (strip_prefix (d ++ [SLASH]) p) as [m|] eqn:E.
  - apply strip_prefix_spec in E. rewrite <- app_assoc in E. simpl in E.
    destruct (has_slash m) eqn:Hs; simpl.
    + split; [discriminate|]. intros (-> & H & _).
      apply app_inv_head in E. injection E as ->.
      apply has_slash_spec in H. congruence.
    + apply has_slash_spec in Hs. destruct (str_eqb m []) eqn:Hm.
      * apply str_eqb_eq in Hm. split; [discriminate|]. intros (-> & _ & H).
        apply app_inv_head in E. injection E as ->. contradiction.
      * apply str_eqb_neq in Hm. split.
        -- intros [= <-]. auto.
        -- intros (-> & _ & _). apply app_inv_head in E. injection E as ->. reflexivity.
  - split; [discriminate|]. intros (-> & _ & _).
    assert (strip_prefix (d ++ [SLASH]) (d ++ SLASH :: n) = Some n) as H.
    { apply strip_prefix_spec. rewrite <- app_assoc. reflexivity. }
    congruence.
Qed.

Lemma inboxPath_inj (f g : str) : inboxPath f = inboxPath g -> f = g.
Proof. unfold inboxPath. intros H. apply app_inv_head in H. congruence. Qed.

(** A name with the extension [.json] is a clean segment if it has no
    separator. *)
Lemma json_name_clean (f : str) :
  slashless f -> endsWith f (lit ".json") = true -> clean f.
Proof.
  intros Hs He. apply endsWith_spec in He as [t ->].
  split; [assumption|]. repeat split; intros H; apply (f_equal (@length ascii)) in H;
    rewrite length_app in H; simpl in H; lia.
Qed.

Lemma resolve_inboxPath (cwd f : str) : clean f -> Path.resolve cwd (inboxPath f) = inboxPath f.
Proof.
  intros Hf.
  assert (inboxPath f = SLASH :: JS.join [SLASH] ([lit "workspace"; lit "ipc"; lit "input"] ++ [f]))
    as ->.
  { rewrite join_snoc by discriminate. reflexivity. }
  apply resolve_of_clean; [discriminate|].
  repeat (constructor; [repeat split; try discriminate; repeat constructor; discriminate|]).
  constructor; [assumption|constructor].
Qed.

Lemma join_inbox (f : str) : clean f -> Path.join IPC_INPUT_DIR f = inboxPath f.
Proof.
  intros Hf. rewrite join_clean by assumption.
  change (isAbsolute IPC_INPUT_DIR) with true. cbv iota.
  change (norm_segs false (split IPC_INPUT_DIR))
    with [lit "workspace"; lit "ipc"; lit "input"].
  rewrite join_snoc by discriminate. reflexivity.
Qed.

Lemma resolve_inbox_file (cwd f : str) :
  clean f -> Path.resolve cwd (Path.join IPC_INPUT_DIR f) = inboxPath f.
Proof.
  intros Hf. rewrite join_inbox by assumption. apply resolve_inboxPath. assumption.
Qed.

(** [readdirSync] of the inbox lists the names of its files. *)
Lemma readdir_inbox (fs : Fs) (f : str) :
  f ∈ readdirSync IPC_INPUT_DIR fs <->
  slashless f /\ f <> [] /\ is_Some (files fs !! inboxPath f).
Proof.
  unfold readdirSync. rewrite list_elem_of_omap.
  change (Path.resolve (cwd fs) IPC_INPUT_DIR) with IPC_INPUT_DIR. split.
  - intros ([k c] & Hin & Hname). simpl in Hname.
    apply elem_of_map_to_list in Hin. apply entry_name_spec in Hname as (-> & Hs & Hne).
    unfold inboxPath. rewrite Hin. eauto.
  - intros (Hs & Hne & [c Hc]). exists (inboxPath f, c). split.
    + apply elem_of_map_to_list. exact Hc.
    + simpl. apply entry_name_spec. auto.
Qed.

Lemma NoDup_omap_inj {A B : Type} (g : A -> option B) (l : list A) :
  (forall x y z, x ∈ l -> y ∈ l -> g x = Some z -> g y = Some z -> x = y) ->
  NoDup l -> NoDup (omap g l).
Proof.
  intros Hinj Hnd. induction Hnd as [|x l Hx Hl IH]; [constructor|].
  change (omap g (x :: l)) with (match g x with Some z => z :: omap g l | None => omap g l end).
  assert (NoDup (omap g l)) as IH'.
  { apply IH. intros a b z Ha Hb. apply Hinj; right; assumption. }
  destruct (g x) as [z|] eqn:E; [|assumption].
  constructor; [|assumption]. intros Hin.
  apply list_elem_of_omap in Hin as (y & Hy & Hg).
  assert (x = y) as -> by (apply (Hinj x y z); [left|right; assumption|assumption..]).
  contradiction.
Qed.

Lemma readdir_NoDup (fs : Fs) : NoDup (readdirSync IPC_INPUT_DIR fs).
Proof.
  unfold readdirSync. apply NoDup_omap_inj; [|apply NoDup_map_to_list].
  intros [k c] [k' c'] z Hin Hin' Hx Hy. simpl in Hx, Hy.
  apply entry_name_spec in Hx as (-> & _). apply entry_name_spec in Hy as (-> & _).
  apply elem_of_map_to_list in Hin, Hin'. congruence.
Qed.

(** The body of the loop, for a file of the inbox: what is collected and
    logged depends on what the file holds, and the file is unlinked. *)
Lemma drainFile_eq (f : str) (d : Drain) :
  clean f ->
  drainFile f d =
    {| messages := messages d ++ yieldOf (files (drained d) !! inboxPath f);
       logged := logged d ++ logOf f (files (drained d) !! inboxPath f);
       drained := with_files (delete (inboxPath f) (files (drained d))) (drained d) |}.
Proof.
  intros Hf. unfold drainFile, readFileSync, unlinkSync. cbv zeta.
  rewrite ?resolve_inbox_file by assumption. simpl cwd.
  rewrite ?resolve_inbox_file by assumption.
  assert (forall fs : Fs,
            with_files (delete (inboxPath f) (files (with_files (delete (inboxPath f) (files fs)) fs)))
              (with_files (delete (inboxPath f) (files fs)) fs)
            = with_files (delete (inboxPath f) (files fs)) fs) as Htwice.
  { intros fs. unfold with_files. cbn [files dirs cwd]. rewrite delete_delete_eq. reflexivity. }
  unfold yieldOf, logOf.
  destruct (files (drained d) !! inboxPath f) as [[data|raw]|];
    [|rewrite app_nil_r; reflexivity..].
  destruct (property data (lit "type")) as [ty|];
    [|rewrite app_nil_r, Htwice; reflexivity].
  destruct (property data (lit "text")) as [[t|]|].
  - destruct (is_message ty && truthy (Some t)); rewrite ?app_nil_r; reflexivity.
  - rewrite andb_false_r, !app_nil_r. reflexivity.
  - rewrite app_nil_r, Htwice. reflexivity.
Qed.

(** The loop over names of the inbox, none twice: each file is read as it
    was before the loop, and the files of the loop are gone after it. *)
Lemma drain_loop (l : list str) :
  forall d : Drain,
    Forall clean l -> NoDup l ->
    let d' := fold_left (fun d file => drainFile file d) l d in
    messages d' = messages d ++ concat (map (fun f => yieldOf (files (drained d) !! inboxPath f)) l) /\
    logged d' = logged d ++ concat (map (fun f => logOf f (files (drained d) !! inboxPath f)) l) /\
    (forall k, files (drained d') !! k =
               if decide (k ∈ map inboxPath l) then None else files (drained d) !! k).
Proof.
  induction l as [|f l IH]; intros d Hclean Hnd; cbn [fold_left map concat].
  - rewrite !app_nil_r. split; [reflexivity|]. split; [reflexivity|]. intros k.
    rewrite decide_False; [reflexivity|]. intros H. inversion H.
  - inversion Hclean as [|? ? Hf Hl]; subst. inversion Hnd as [|? ? Hfresh Hnd']; subst.
    destruct (IH (drainFile f d) Hl Hnd') as (Hm & Hlog & Hfiles).
    cbv zeta. set (d' := fold_left _ l (drainFile f d)) in *. clearbody d'.
    rewrite drainFile_eq in Hm, Hlog, Hfiles by assumption.
    cbn [messages logged drained files with_files] in Hm, Hlog, Hfiles.
    assert (forall g, g ∈ l ->
              delete (inboxPath f) (files (drained d)) !! inboxPath g
              = files (drained d) !! inboxPath g) as Hother.
    { intros g Hg. apply lookup_delete_ne. intros H. apply inboxPath_inj in H. congruence. }
    split; [|split].
    + rewrite Hm, <- app_assoc. do 3 f_equal. apply map_ext_in. intros g Hg.
      apply list_elem_of_In in Hg. rewrite Hother by assumption. reflexivity.
    + rewrite Hlog, <- app_assoc. do 3 f_equal. apply map_ext_in. intros g Hg.
      apply list_elem_of_In in Hg. rewrite Hother by assumption. reflexivity.
    + intros k. rewrite Hfiles.
      destruct (decide (k ∈ map inboxPath l)) as [Hk|Hk].
      * rewrite decide_True by (right; assumption). reflexivity.
      * destruct (decide (k = inboxPath f)) as [->|Hne].
        -- rewrite lookup_delete_eq, decide_True by left. reflexivity.
        -- rewrite lookup_delete_ne by congruence.
           rewrite decide_False; [reflexivity|].
           intros H. apply elem_of_cons in H as [H|H]; contradiction.
Qed.

(** The files the drain visits. *)
Lemma inputFiles_spec (fs : Fs) (f : str) :
  f ∈ inputFiles fs <->
  endsWith f (lit ".json") = true /\ slashless f /\ is_Some (files fs !! inboxPath f).
Proof.
  unfold inputFiles. rewrite merge_sort_Permutation, list_elem_of_filter, readdir_inbox.
  split.
  - intros (He & Hs & _ & Hf). auto.
  - intros (He & Hs & Hf). split; [assumption|]. split; [assumption|]. split; [|assumption].
    apply (json_name_clean f Hs He).
Qed.

Lemma inputFiles_NoDup (fs : Fs) : NoDup (inputFiles fs).
Proof.
  unfold inputFiles. rewrite merge_sort_Permutation. apply NoDup_filter, readdir_NoDup.
Qed.

Lemma inputFiles_sorted (fs : Fs) : StronglySorted str_le (inputFiles fs).
Proof. unfold inputFiles. apply StronglySorted_merge_sort; apply _. Qed.

Lemma inputFiles_clean (fs : Fs) : Forall clean (inputFiles fs).
Proof.
  apply Forall_forall. intros f Hf. apply inputFiles_spec in Hf as (He & Hs & _).
  apply json_name_clean; assumption.
Qed.

Lemma inputFiles_mkdir (dir : str) (fs : Fs) : inputFiles (mkdirSync dir fs) = inputFiles fs.
Proof. reflexivity. Qed.

(** *** Writes into the inbox *)

Lemma writeName_clean (w : Write) : clean (writeName w).
Proof. apply ipcFilename_clean. Qed.

Lemma writeName_json (w : Write) : endsWith (writeName w) (lit ".json") = true.
Proof.
  apply endsWith_spec. unfold writeName, ipcFilename. eexists.
  rewrite !app_assoc. reflexivity.
Qed.

Lemma tmp_not_json (n : str) : endsWith (n ++ lit ".tmp") (lit ".json") = false.
Proof. unfold endsWith. rewrite rev_app_distr. reflexivity. Qed.

Lemma tmp_clean (n : str) : clean n -> clean (n ++ lit ".tmp").
Proof.
  intros (Hs & _). split; [apply Forall_app; split; [assumption|repeat constructor; discriminate]|].
  repeat split; intros H; apply (f_equal (@length ascii)) in H;
    rewrite length_app in H; simpl in H; lia.
Qed.

(** One write puts its document under its name, and removes what was under
    the name of its temporary file. *)
Lemma writeMessage_files (w : Write) (fs : Fs) :
  cwd (writeMessage w fs) = cwd fs /\
  files (writeMessage w fs) =
    <[ inboxPath (writeName w) := Doc (message_doc (w_text w)) ]>
      (delete (inboxPath (writeName w ++ lit ".tmp")) (files fs)).
Proof.
  unfold writeMessage, writeIpcFile.
  change (Path.resolve (cwd fs) IPC_INPUT_DIR) with IPC_INPUT_DIR.
  change (startsWith IPC_INPUT_DIR (IPC_DIR ++ [SLASH])) with true.
  cbn [negb andb fst]. fold (writeName w).
  rewrite write_then_rename_eq. cbn [with_files files cwd mkdirSync].
  rewrite resolve_inbox_file by apply writeName_clean.
  rewrite join_inbox by apply writeName_clean.
  assert (inboxPath (writeName w) ++ lit ".tmp" = inboxPath (writeName w ++ lit ".tmp")) as ->.
  { unfold inboxPath. rewrite <- app_assoc. reflexivity. }
  rewrite resolve_inboxPath by apply tmp_clean, writeName_clean.
  split; reflexivity.
Qed.

Lemma writeMessage_inbox (w : Write) (fs : Fs) (f : str) :
  files (writeMessage w fs) !! inboxPath f =
    if decide (f = writeName w) then Some (Doc (message_doc (w_text w)))
    else if decide (f = writeName w ++ lit ".tmp") then None
    else files fs !! inboxPath f.
Proof.
  destruct (writeMessage_files w fs) as [_ ->].
  destruct (decide (f = writeName w)) as [->|Hne]; [apply lookup_insert_eq|].
  rewrite lookup_insert_ne by (intros H; apply inboxPath_inj in H; congruence).
  destruct (decide (f = writeName w ++ lit ".tmp")) as [->|Hne']; [apply lookup_delete_eq|].
  apply lookup_delete_ne. intros H. apply inboxPath_inj in H. congruence.
Qed.

Lemma writeMessages_snoc (ws : list Write) (w : Write) (fs : Fs) :
  writeMessages (ws ++ [w]) fs = writeMessage w (writeMessages ws fs).
Proof. unfold writeMessages. rewrite fold_left_app. reflexivity. Qed.

(** After the writes, a [.json] file of the inbox holds what the write of
    its name wrote, or what it held before the writes. *)
Lemma written_files (ws : list Write) (fs0 : Fs) :
  NoDup (map writeName ws) ->
  (forall w, w ∈ ws ->
     files (writeMessages ws fs0) !! inboxPath (writeName w)
       = Some (Doc (message_doc (w_text w)))) /\
  (forall f, endsWith f (lit ".json") = true -> f ∉ map writeName ws ->
     files (writeMessages ws fs0) !! inboxPath f = files fs0 !! inboxPath f).
Proof.
  induction ws as [|w0 ws IH] using rev_ind; intros Hnd.
  { split; [intros w H; inversion H | reflexivity]. }
  rewrite map_app in Hnd. apply NoDup_app in Hnd as (Hnd & Hfresh & _).
  destruct (IH Hnd) as [IHw IHf]. split.
  - intros w Hw. rewrite writeMessages_snoc, writeMessage_inbox.
    destruct (decide (writeName w = writeName w0)) as [Heq|Hne].
    + apply elem_of_app in Hw as [Hw|Hw].
      * exfalso. apply (Hfresh (writeName w)).
        -- apply list_elem_of_fmap. eauto.
        -- rewrite Heq. simpl. left.
      * apply list_elem_of_singleton in Hw. subst. reflexivity.
    + apply elem_of_app in Hw as [Hw|Hw];
        [|apply list_elem_of_singleton in Hw; subst; contradiction].
      rewrite decide_False; [apply IHw; assumption|].
      intros H. pose proof (writeName_json w) as Hj. rewrite H, tmp_not_json in Hj.
      discriminate.
  - intros f Hj Hf. rewrite map_app, elem_of_app in Hf.
    rewrite writeMessages_snoc, writeMessage_inbox.
    rewrite decide_False by (intros ->; apply Hf; right; simpl; left).
    rewrite decide_False by (intros ->; rewrite tmp_not_json in Hj; discriminate).
    apply IHf; [assumption|]. intros H. apply Hf. left. exact H.
Qed.

(** While the clock rises and keeps the length of its numerals, the names
    of the files rise in the order of [sort()]. *)
Lemma rising_names (ws : list Write) :
  risingClock ws ->
  StronglySorted (fun a b => str_ltb a b = true) (map writeName ws).
Proof.
  induction 1 as [|w ws Hws IH Hw]; simpl; [constructor|].
  constructor; [assumption|]. apply Forall_map.
  eapply Forall_impl; [exact Hw|]. intros w' [Hlt Hlen].
  unfold writeName, ipcFilename. apply dec_increasing; assumption.
Qed.

(** *** The drain after the writes *)

Lemma StronglySorted_filter {A : Type} (R : relation A) (P : A -> Prop)
  `{!forall x, Decision (P x)} (l : list A) :
  StronglySorted R l -> StronglySorted R (filter P l).
Proof.
  induction 1 as [|x l Hl IH Hx]; [constructor|].
  rewrite filter_cons. destruct (decide (P x)); [|assumption].
  constructor; [assumption|]. apply Forall_forall. intros y Hy.
  apply list_elem_of_filter in Hy as [_ Hy]. rewrite Forall_forall in Hx. auto.
Qed.

Lemma concat_map_filter {A B : Type} (y : A -> list B) (P : A -> Prop)
  `{!forall x, Decision (P x)} (l : list A) :
  (forall x, x ∈ l -> ~ P x -> y x = []) ->
  concat (map y l) = concat (map y (filter P l)).
Proof.
  induction l as [|x l IH]; intros Hy; [reflexivity|].
  rewrite filter_cons. simpl. rewrite IH by (intros z Hz; apply Hy; right; assumption).
  destruct (decide (P x)); [reflexivity|]. rewrite Hy by (left || assumption). reflexivity.
Qed.

Lemma count_lines {A B : Type} (lg : A -> list B) (P : A -> Prop)
  `{!forall x, Decision (P x)} (l : list A) :
  (forall x, x ∈ l -> P x -> lg x = []) ->
  (forall x, x ∈ l -> ~ P x -> length (lg x) = 1%nat) ->
  (length (concat (map lg l)) + length (filter P l) = length l)%nat.
Proof.
  induction l as [|x l IH]; intros H0 H1; [reflexivity|].
  rewrite filter_cons. simpl. rewrite length_app.
  specialize (IH ltac:(intros z Hz; apply H0; right; assumption)
                 ltac:(intros z Hz; apply H1; right; assumption)).
  destruct (decide (P x)) as [Hp|Hp].
  - rewrite (H0 x) by (left || assumption). simpl. lia.
  - rewrite (H1 x) by (left || assumption). lia.
Qed.

Lemma concat_singletons {A B : Type} (g : A -> B) (l : list A) :
  concat (map (fun x => [g x]) l) = map g l.
Proof. induction l as [|x l IH]; [reflexivity|]. simpl. rewrite IH. reflexivity. Qed.

Lemma yield_message (x : str) : x <> [] -> yieldOf (Some (Doc (message_doc x))) = [JStr x].
Proof. destruct x; [congruence | reflexivity]. Qed.

(** C6 (as amended). Non-empty texts x1,…,xn are written to the inbox as
    [{type: "message", text: xi}] files by [writeIpcFile], while
    [Date.now()] rises from write to write and keeps the length of its
    numeral, into an inbox whose [.json] files, if any, are files on which
    [JSON.parse] throws.  Then the drain returns exactly x1,…,xn in write
    order; it logs one line for each file that failed to parse, which does
    not keep the other files from being returned; and it leaves no [.json]
    file in the inbox. *)
Theorem drain_returns_written (ws : list Write) (fs0 : Fs) :
  risingClock ws ->
  Forall (fun w => w_text w <> []) ws ->
  unparseableInbox fs0 ->
  messages (drainIpcInput (writeMessages ws fs0)) = map (fun w => JStr (w_text w)) ws /\
  (length (logged (drainIpcInput (writeMessages ws fs0))) + length ws
     = length (inputFiles (writeMessages ws fs0)))%nat /\
  inputFiles (drained (drainIpcInput (writeMessages ws fs0))) = [].
Proof.
  intros Hclock Htexts Hraw.
  set (fs := writeMessages ws fs0).
  destruct (increasing_sorted _ (rising_names ws Hclock)) as [Hsorted Hnd].
  destruct (written_files ws fs0 Hnd) as [Hwritten Hkept]. fold fs in Hwritten, Hkept.
  pose proof (drain_loop (inputFiles fs)
                {| messages := []; logged := []; drained := mkdirSync IPC_INPUT_DIR fs |}
                (inputFiles_clean fs) (inputFiles_NoDup fs)) as (Hm & Hl & Hf).
  cbn [messages logged drained files mkdirSync app] in Hm, Hl, Hf.
  change (fold_left (fun d file => drainFile file d) (inputFiles fs)
            {| messages := []; logged := []; drained := mkdirSync IPC_INPUT_DIR fs |})
    with (drainIpcInput fs) in Hm, Hl, Hf.
  set (P := fun f : str => f ∈ map writeName ws).
  assert (forall f, f ∈ inputFiles fs -> ~ P f ->
            exists s, files fs !! inboxPath f = Some (Raw s)) as Hbad.
  { intros f Hin Hf'. apply inputFiles_spec in Hin as (Hj & _ & [c Hc]).
    rewrite Hkept in Hc by assumption.
    destruct (Hraw f c Hj Hc) as [s ->]. exists s. rewrite Hkept by assumption. exact Hc. }
  assert (forall w, w ∈ ws -> writeName w ∈ inputFiles fs) as Hin.
  { intros w Hw. apply inputFiles_spec. split; [apply writeName_json|].
    split; [apply writeName_clean|]. rewrite Hwritten by assumption. eauto. }
  assert (filter P (inputFiles fs) = map writeName ws) as Hfilter.
  { apply (StronglySorted_unique str_le).
    - apply StronglySorted_filter, inputFiles_sorted.
    - exact Hsorted.
    - apply NoDup_Permutation; [apply NoDup_filter, inputFiles_NoDup | exact Hnd |].
      intros f. rewrite list_elem_of_filter. unfold P. split; [tauto|].
      intros Hf'. split; [assumption|].
      apply list_elem_of_fmap in Hf' as (w & -> & Hw). auto. }
  split; [|split].
  - rewrite Hm, (concat_map_filter _ P), Hfilter.
    + rewrite map_map. rewrite <- (concat_singletons (fun w => JStr (w_text w)) ws). f_equal.
      apply map_ext_in. intros w Hw. apply list_elem_of_In in Hw.
      rewrite Hwritten by assumption. apply yield_message.
      rewrite Forall_forall in Htexts. auto.
    + intros f Hf1 Hf2. destruct (Hbad f Hf1 Hf2) as [s ->]. reflexivity.
  - rewrite Hl. rewrite <- (length_map writeName ws), <- Hfilter.
    apply count_lines.
    + intros f _ Hp. apply list_elem_of_fmap in Hp as (w & -> & Hw).
      rewrite Hwritten by assumption. reflexivity.
    + intros f Hf1 Hf2. destruct (Hbad f Hf1 Hf2) as [s ->]. reflexivity.
  - destruct (inputFiles (drained (drainIpcInput fs))) as [|f rest] eqn:Hleft; [reflexivity|].
    exfalso.
    assert (f ∈ inputFiles (drained (drainIpcInput fs))) as Hf' by (rewrite Hleft; left).
    apply inputFiles_spec in Hf' as (Hj & Hs & Hsome). rewrite Hf in Hsome.
    destruct (decide (inboxPath f ∈ map inboxPath (inputFiles fs))) as [Hd|Hd].
    + destruct Hsome. discriminate.
    + apply Hd. apply list_elem_of_fmap. exists f. split; [reflexivity|].
      apply inputFiles_spec. auto.
Qed.

Import Samples.

Lemma drain_returns_written_witness :
  let ws := [hello 1700000000000 [7; 8; 9]%nat "first";
             hello 1700000000001 [1; 2; 3]%nat "second"] in
  risingClock ws /\
  unparseableInbox brokenInbox /\
  messages (drainIpcInput (writeMessages ws brokenInbox))
    = [JStr (lit "first"); JStr (lit "second")] /\
  length (logged (drainIpcInput (writeMessages ws brokenInbox))) = 1%nat.
Proof.
  intros ws.
  assert (risingClock ws) as Hclock.
  { repeat constructor; vm_compute; congruence. }
  assert (unparseableInbox brokenInbox) as Hraw.
  { intros f c _ H. unfold brokenInbox in H. cbn [files] in H.
    apply lookup_singleton_Some in H as [_ <-]. eauto. }
  destruct (drain_returns_written ws brokenInbox Hclock) as (Hm & Hl & _).
  { repeat constructor; discriminate. }
  { exact Hraw. }
  split; [exact Hclock|]. split; [exact Hraw|]. split; [exact Hm|].
  assert (length (inputFiles (writeMessages ws brokenInbox)) = 3%nat) as H3
    by (vm_compute; reflexivity).
  rewrite H3 in Hl. change (length ws) with 2%nat in Hl. lia.
Defined.

(** C6 as first stated fails for an empty text, which the drain skips
    ([data.text] is falsy); for two writes within one millisecond, whose
    files are sorted by their random parts; and for a clock whose numeral
    grows by a digit between two writes. *)
Lemma drain_order_needs_rising_names :
  messages (drainIpcInput (writeMessages [hello 1700000000000 [1; 2; 3]%nat ""] emptyFs))
    = [] /\
  messages (drainIpcInput (writeMessages [hello 1700000000000 [7; 8; 9]%nat "first";
                                          hello 1700000000000 [1; 2; 3]%nat "second"] emptyFs))
    = [JStr (lit "second"); JStr (lit "first")] /\
  messages (drainIpcInput (writeMessages [hello 9999999999999 [1; 2; 3]%nat "first";
                                          hello 10000000000000 [1; 2; 3]%nat "second"] emptyFs))
    = [JStr (lit "second"); JStr (lit "first")].
Proof. repeat split; vm_compute; reflexivity. Qed.

End IpcDrainFacts.


(** ** The scheduler: one failure, one run *)

Module SchedulerRunFacts.

Import JS JSFacts Diagnostics Scheduler SchedulerFacts SchedulerRun.

(** *** What a failure does to the state *)

(** A failure ends in a retry or in a change of status with a message. *)
Lemma handle_cases (task : ScheduledTask) (e : str) (w : World) :
  let w1 := (incrementTaskRetryCount (id task) e w).2 in
  let d := diagnosisOf task e w in
  (exists delay : option Z,
     pattern d <> orphaned /\ pattern d <> persistent /\
     handleTaskFailure task e w = scheduleRetry task delay w1) \/
  (exists s : TaskStatus,
     s <> active /\
     (s = completed <-> pattern d = orphaned) /\
     (s = paused <-> pattern d = persistent) /\
     handleTaskFailure task e w = notifyStatus task d e s w1).
Proof.
  cbv zeta. rewrite handleTaskFailure_eq. cbv zeta.
  destruct (pattern (diagnosisOf task e w)) eqn:Hp;
    try (destruct ((incrementTaskRetryCount (id task) e w).1 <=? maxRetries task);
         [left; eexists; split; [discriminate|split; [discriminate|reflexivity]]
         |right; exists error; repeat split; intros; try discriminate; reflexivity]).
  - right. exists paused. repeat split; intros; try discriminate; reflexivity.
  - right. exists completed. repeat split; intros; try discriminate; reflexivity.
Qed.

Lemma lookup_bump (tid e : str) (m : gmap str ScheduledTask) (row : ScheduledTask) :
  m !! tid = Some row -> alter (bump_retry e) tid m !! tid = Some (bump_retry e row).
Proof. intros H. rewrite lookup_alter_eq, H. reflexivity. Qed.

Lemma statusOf_retry (task : ScheduledTask) (e : str) (delay : option Z) (w : World)
  (row : ScheduledTask) :
  db_tasks w !! id task = Some row ->
  statusOf (id task)
    (scheduleRetry task delay (incrementTaskRetryCount (id task) e w).2) = Some (status row).
Proof.
  intros H. unfold statusOf.
  destruct (scheduleRetry_effect task delay (incrementTaskRetryCount (id task) e w).2)
    as (_ & _ & _ & ->).
  rewrite increment_tasks, (lookup_bump _ _ _ _ H). reflexivity.
Qed.

Lemma statusOf_notify (task : ScheduledTask) (d : TaskDiagnosis) (e : str) (s : TaskStatus)
  (w : World) (row : ScheduledTask) :
  db_tasks w !! id task = Some row ->
  statusOf (id task)
    (notifyStatus task d e s (incrementTaskRetryCount (id task) e w).2) = Some s.
Proof.
  intros H. unfold statusOf.
  destruct (notifyStatus_effect task d e s (incrementTaskRetryCount (id task) e w).2)
    as (_ & _ & _ & ->).
  rewrite lookup_alter_eq, increment_tasks, (lookup_bump _ _ _ _ H). reflexivity.
Qed.

(** The row of the task after a failure: its count is one more, its last
    error is the error; the other rows are as they were. *)
Lemma handle_rows (task : ScheduledTask) (e : str) (w : World) :
  (forall row, db_tasks w !! id task = Some row ->
     exists row', db_tasks (handleTaskFailure task e w) !! id task = Some row' /\
                  retry_count row' = retry_count row + 1 /\
                  last_error row' = Some e) /\
  (db_tasks w !! id task = None ->
     db_tasks (handleTaskFailure task e w) !! id task = None) /\
  (forall k, k <> id task ->
     db_tasks (handleTaskFailure task e w) !! k = db_tasks w !! k).
Proof.
  destruct (handle_cases task e w) as [(delay & _ & _ & ->)|(s & _ & _ & _ & ->)].
  - destruct (scheduleRetry_effect task delay (incrementTaskRetryCount (id task) e w).2)
      as (_ & _ & _ & ->).
    rewrite increment_tasks. repeat split.
    + intros row H. exists (bump_retry e row). rewrite (lookup_bump _ _ _ _ H). auto.
    + intros H. rewrite lookup_alter_eq, H. reflexivity.
    + intros k Hk. rewrite lookup_alter_ne by congruence. reflexivity.
  - destruct (notifyStatus_effect task (diagnosisOf task e w) e s
                (incrementTaskRetryCount (id task) e w).2) as (_ & _ & _ & ->).
    rewrite increment_tasks. repeat split.
    + intros row H. exists (set_status s (bump_retry e row)).
      rewrite lookup_alter_eq, (lookup_bump _ _ _ _ H). auto.
    + intros H. rewrite !lookup_alter_eq, H. reflexivity.
    + intros k Hk. rewrite !lookup_alter_ne by congruence. reflexivity.
Qed.

Lemma handle_runs (task : ScheduledTask) (e : str) (w : World) :
  db_runs (handleTaskFailure task e w) = db_runs w.
Proof.
  destruct (handle_cases task e w) as [(delay & _ & _ & ->)|(s & _ & _ & _ & ->)].
  - destruct (scheduleRetry_effect task delay (incrementTaskRetryCount (id task) e w).2)
      as (_ & _ & -> & _).
    apply increment_frame.
  - destruct (notifyStatus_effect task (diagnosisOf task e w) e s
                (incrementTaskRetryCount (id task) e w).2) as (_ & _ & -> & _).
    apply increment_frame.
Qed.

(** X1.  Every failure handled by [handleTaskFailure] ends in exactly one
    of two ways.  Either one retry timer is set for the task, no message
    is sent and the status of the task stays as it was; or no timer is
    set, one message goes to the chat of the task and the status becomes
    one of [completed], [paused] and [error].  In both cases the run log
    is untouched, the count of the task is one more and its last error is
    the error, and no other row of the task table changes. *)
Theorem failure_is_retried_or_reported (task : ScheduledTask) (err : str) (w : World) :
  let w' := handleTaskFailure task err w in
  db_runs w' = db_runs w /\
  (forall row, db_tasks w !! id task = Some row ->
     exists row', db_tasks w' !! id task = Some row' /\
                  retry_count row' = retry_count row + 1 /\
                  last_error row' = Some err) /\
  (forall k, k <> id task -> db_tasks w' !! k = db_tasks w !! k) /\
  ((exists delay : option Z,
      timers w' = timers w ++ [(id task, delay)] /\
      sent w' = sent w /\
      (forall row, db_tasks w !! id task = Some row ->
         statusOf (id task) w' = Some (status row)))
   \/
   (exists (s : TaskStatus) (msg : str),
      s <> active /\
      timers w' = timers w /\
      sent w' = sent w ++ [(chat_jid task, msg)] /\
      (forall row, db_tasks w !! id task = Some row ->
         statusOf (id task) w' = Some s))).
Proof.
  cbv zeta. split; [apply handle_runs|].
  destruct (handle_rows task err w) as (Hrow & _ & Hother).
  split; [exact Hrow|]. split; [exact Hother|].
  destruct (handle_cases task err w) as [(delay & _ & _ & Heq)|(s & Hs & _ & _ & Heq)].
  - left. exists delay. rewrite Heq.
    destruct (scheduleRetry_effect task delay (incrementTaskRetryCount (id task) err w).2)
      as (-> & -> & _ & _).
    destruct (increment_frame (id task) err w) as (_ & -> & ->).
    repeat split. intros row H. apply statusOf_retry. exact H.
  - right. exists s, (formatFailureNotification task (diagnosisOf task err w) err s).
    rewrite Heq.
    destruct (notifyStatus_effect task (diagnosisOf task err w) err s
                (incrementTaskRetryCount (id task) err w).2) as (-> & -> & _ & _).
    destruct (increment_frame (id task) err w) as (_ & -> & ->).
    repeat split; [exact Hs|]. intros row H. exact (statusOf_notify _ _ _ _ _ row H).
Qed.

(** *** When a task is paused *)

Section Finding.

Context {A B : Type} (f : A -> option B) (P : B -> Prop) `{!forall x, Decision (P x)}.

Lemma kept_found (l : list A) :
  (1 <= length (filter P (omap f l)))%nat ->
  exists i a x, l !! i = Some a /\ f a = Some x /\ P x.
Proof.
  induction l as [|a l IH]; simpl; [lia|].
  destruct (f a) as [x|] eqn:Hf.
  - rewrite filter_cons. destruct (decide (P x)) as [Hx|Hx].
    + intros _. exists 0%nat, a, x. auto.
    + intros Hlen. destruct (IH Hlen) as (i & b & y & Hi & Hb & Hy).
      exists (S i), b, y. auto.
  - intros Hlen. destruct (IH Hlen) as (i & b & y & Hi & Hb & Hy).
    exists (S i), b, y. auto.
Qed.

Lemma two_found (l : list A) :
  (2 <= length (filter P (omap f l)))%nat ->
  exists i j a b,
    i <> j /\ l !! i = Some a /\ l !! j = Some b /\
    (exists x, f a = Some x /\ P x) /\ (exists y, f b = Some y /\ P y).
Proof.
  induction l as [|a l IH]; simpl; [lia|].
  destruct (f a) as [x|] eqn:Hf.
  - rewrite filter_cons. destruct (decide (P x)) as [Hx|Hx].
    + simpl. intros Hlen.
      destruct (kept_found l (le_S_n _ _ Hlen)) as (j & b & y & Hj & Hb & Hy).
      exists 0%nat, (S j), a, b. repeat split; eauto.
    + intros Hlen. destruct (IH Hlen) as (i & j & b & c & Hne & Hi & Hj & Hb & Hc).
      exists (S i), (S j), b, c. repeat split; auto.
  - intros Hlen. destruct (IH Hlen) as (i & j & b & c & Hne & Hi & Hj & Hb & Hc).
    exists (S i), (S j), b, c. repeat split; auto.
Qed.

End Finding.

Lemma counted_sameNonEmptyError (cur : str) (r : TaskRunLog) :
  (exists e, failedWith r = Some e /\ str_eqb (normalize e) (normalize cur) = true) ->
  sameNonEmptyError cur r.
Proof.
  intros (e & Hf & Hn). unfold failedWith in Hf.
  destruct (run_status r) eqn:Hs; simpl in Hf; [discriminate|].
  destruct (run_err r) as [e'|] eqn:He; [|discriminate].
  destruct e' as [|c e']; simpl in Hf; [discriminate|].
  injection Hf as <-. split; [exact Hs|].
  exists (c :: e'). split; [exact He|]. split; [discriminate|].
  apply str_eqb_eq. exact Hn.
Qed.

(** The pattern [persistent] is given only to an error without keyword
    that two recent failed runs share. *)
Lemma persistent_diagnosed (task : ScheduledTask) (runs : list TaskRunLog) (cur : str) :
  pattern (diagnoseTaskFailure task runs cur) = persistent ->
  noKeyword cur /\ atLeastTwo (sameNonEmptyError cur) runs.
Proof.
  unfold diagnoseTaskFailure, noKeyword.
  destruct (is_orphaned (toLowerCase cur)); [discriminate|].
  destruct (is_rate_limited (toLowerCase cur)); [discriminate|].
  destruct (is_timeout (toLowerCase cur)); [discriminate|].
  cbv zeta.
  destruct (2 <=? Z.of_nat (length (recentErrors runs))); [|discriminate].
  destruct (2 <=? Z.of_nat (length (filter
              (fun e => str_eqb (normalize e) (normalize cur) = true)
              (recentErrors runs)))) eqn:Hc; [|discriminate].
  intros _. split; [auto|].
  apply Z.leb_le in Hc. unfold recentErrors in Hc.
  destruct (two_found failedWith (fun e => str_eqb (normalize e) (normalize cur) = true) runs)
    as (i & j & a & b & Hne & Hi & Hj & Ha & Hb); [lia|].
  exists i, j, a, b. split; [exact Hne|]. split; [exact Hi|]. split; [exact Hj|].
  split; apply counted_sameNonEmptyError; assumption.
Qed.

(** X2.  For errors of ASCII characters (the current error and the
    errors of the recent runs), [handleTaskFailure] pauses a task only for
    a persistent failure: if the status of a task that was not paused is
    [paused] after the call, then the error matches none of the keyword
    patterns and at least two of the recent runs of the task failed with a
    non-empty error equal to it under the normalisation.  The diagnosis
    itself returns [persistent] under no other condition. *)
Theorem paused_only_when_persistent (task : ScheduledTask) (err : str) :
  ascii_text err ->
  (forall runs : list TaskRunLog,
     asciiErrors runs ->
     pattern (diagnoseTaskFailure task runs err) = persistent ->
     noKeyword err /\ atLeastTwo (sameNonEmptyError err) runs) /\
  (forall (w : World) (row : ScheduledTask),
     asciiErrors (getRecentTaskRuns (id task) 10 w) ->
     db_tasks w !! id task = Some row ->
     status row <> paused ->
     statusOf (id task) (handleTaskFailure task err w) = Some paused ->
     noKeyword err /\
     atLeastTwo (sameNonEmptyError err) (getRecentTaskRuns (id task) 10 w)).
Proof.
  intros _. split; [intros runs _; apply persistent_diagnosed|].
  intros w row _ Hrow Hnp Hst.
  apply (persistent_diagnosed task).
  change (pattern (diagnosisOf task err w) = persistent).
  destruct (handle_cases task err w) as [(delay & _ & _ & Heq)|(s & _ & _ & Hp & Heq)].
  - rewrite Heq, (statusOf_retry _ _ _ _ _ Hrow) in Hst. congruence.
  - rewrite Heq, (statusOf_notify _ _ _ _ _ _ Hrow) in Hst.
    apply Hp. congruence.
Qed.

(** *** The diagnosis and the case of letters *)

Lemma toLowerCase_take (n : nat) (s : str) :
  toLowerCase (slice_to n s) = take n (toLowerCase s).
Proof. unfold toLowerCase, slice_to. apply (fmap_take lower_char). Qed.

Lemma normalize_lower (a b : str) :
  toLowerCase a = toLowerCase b -> normalize a = normalize b.
Proof. intros H. unfold normalize. rewrite !toLowerCase_take, H. reflexivity. Qed.

(** X3.  The diagnosis does not look at the case of ASCII letters in the
    current error: two errors with the same lower-case form get the same
    pattern, the same description and the same recommendation from the
    same recent runs. *)
Theorem diagnosis_ignores_case (task : ScheduledTask) (runs : list TaskRunLog)
  (e1 e2 : str) :
  toLowerCase e1 = toLowerCase e2 ->
  pattern (diagnoseTaskFailure task runs e1) = pattern (diagnoseTaskFailure task runs e2) /\
  description (diagnoseTaskFailure task runs e1)
    = description (diagnoseTaskFailure task runs e2) /\
  recommendation (diagnoseTaskFailure task runs e1)
    = recommendation (diagnoseTaskFailure task runs e2).
Proof.
  intros H. unfold diagnoseTaskFailure. rewrite H, (normalize_lower e1 e2 H).
  destruct (is_orphaned (toLowerCase e2)); [auto|].
  destruct (is_rate_limited (toLowerCase e2)); [auto|].
  destruct (is_timeout (toLowerCase e2)); [auto|].
  cbv zeta.
  destruct (2 <=? Z.of_nat (length (recentErrors runs))); [|auto].
  destruct (2 <=? _); auto.
Qed.

(** *** After a report *)

Lemma enqueueDue_skips (tid : str) (w : World) (due : list ScheduledTask) :
  (forall row, db_tasks w !! tid = Some row -> status row <> active) ->
  enqueueDue due w = enqueueDue (filter (fun t => id t <> tid) due) w.
Proof.
  intros H. induction due as [|t due IH]; [reflexivity|].
  rewrite filter_cons. destruct (decide (id t <> tid)) as [Hne|Heq].
  - simpl. rewrite <- IH. reflexivity.
  - apply dec_stable in Heq. rewrite <- IH. simpl. unfold getTaskById at 1. rewrite Heq.
    destruct (db_tasks w !! tid) as [row|] eqn:Hrow; [|reflexivity].
    specialize (H row eq_refl). destruct (status row); [congruence|reflexivity..].
Qed.

(** X4.  Once a failure has been reported (a message was sent), the
    scheduler loop does not enqueue the task again: what it enqueues is
    what it would enqueue without the task among the due tasks.  If the
    failure was diagnosed as orphaned or persistent, a retry timer of the
    task that fires afterwards enqueues nothing either. *)
Theorem reported_task_is_not_enqueued (task : ScheduledTask) (err : str) (w : World) :
  let w' := handleTaskFailure task err w in
  (sent w' <> sent w ->
   forall due : list ScheduledTask,
     enqueueDue due w' = enqueueDue (filter (fun t => id t <> id task) due) w') /\
  (pattern (diagnosisOf task err w) = orphaned \/
   pattern (diagnosisOf task err w) = persistent ->
   forall task' : ScheduledTask, id task' = id task -> retryFired task' w' = []).
Proof.
  cbv zeta.
  destruct (handle_cases task err w) as [(delay & Ho & Hp & Heq)|(s & Hs & Hc & Hp & Heq)].
  - split.
    + intros Hsent. exfalso. apply Hsent. rewrite Heq.
      destruct (scheduleRetry_effect task delay (incrementTaskRetryCount (id task) err w).2)
        as (-> & _). apply increment_frame.
    + intros [H|H]; congruence.
  - assert (Hst : forall row, db_tasks (handleTaskFailure task err w) !! id task = Some row ->
                              status row = s).
    { intros row Hrow. rewrite Heq in Hrow.
      destruct (notifyStatus_effect task (diagnosisOf task err w) err s
                  (incrementTaskRetryCount (id task) err w).2) as (_ & _ & _ & Ht).
      rewrite Ht, lookup_alter_eq in Hrow.
      destruct (_ !! id task); [|discriminate]. injection Hrow as <-. reflexivity. }
    split.
    + intros _ due. apply enqueueDue_skips. intros row Hrow.
      rewrite (Hst row Hrow). exact Hs.
    + intros Hpat task' Hid. unfold retryFired, getTaskById. rewrite Hid.
      destruct (db_tasks (handleTaskFailure task err w) !! id task) as [row|] eqn:Hrow;
        [|reflexivity].
      rewrite (Hst row eq_refl).
      destruct Hpat as [H|H]; [apply Hc in H|apply Hp in H]; subst s; reflexivity.
Qed.

(** *** A run *)

Lemma included_at_start (s p : str) : startsWith s p = true -> includes s p = true.
Proof. intros H. destruct s; cbn [includes]; rewrite H; reflexivity. Qed.

(** The error of a missing group carries the keyword of an orphaned task,
    whatever the folder is called. *)
Lemma group_not_found_orphaned (f : str) :
  is_orphaned (toLowerCase (lit "Group not found: " ++ f)) = true.
Proof.
  unfold toLowerCase. rewrite map_app.
  assert (H : includes (map lower_char (lit "Group not found: ") ++ map lower_char f)
                (lit "group not found") = true).
  { apply included_at_start, PathFacts.startsWith_app. vm_compute. reflexivity. }
  unfold is_orphaned. rewrite H. reflexivity.
Qed.

Lemma find_absent (groups : list RegisteredGroup) (f : str) :
  Forall (fun g => folder g <> f) groups ->
  find (fun g => str_eqb (folder g) f) groups = None.
Proof.
  induction 1 as [|g groups Hg _ IH]; [reflexivity|].
  simpl. apply str_eqb_neq in Hg. rewrite Hg. exact IH.
Qed.

(** X5.  A task whose group folder belongs to no registered group is
    deactivated by its run: [runTask] logs one failed run with the error
    [Group not found: <folder>], the failure is diagnosed as orphaned
    whatever the folder is called, the status of the task becomes
    [completed], one notification goes to the chat of the task, no retry
    is scheduled, and the function returns before the next run is
    computed ([updateTaskAfterRun] is not called). *)
Theorem missing_group_deactivates (cronNext : str -> option str)
  (toISOString : Z -> option str) (task : ScheduledTask) (sched : Schedule)
  (groups : list RegisteredGroup) (run : ContainerRun) (clk : RunClock) (h : Host) :
  Forall (fun g => folder g <> group_folder task) groups ->
  let err := lit "Group not found: " ++ group_folder task in
  let entry := {| task_id := id task; run_at := endIso clk;
                  duration_ms := endTime clk - startTime clk;
                  run_status := run_error; result := None; run_err := Some err |} in
  let out := runTask cronNext toISOString task sched groups run clk h in
  out.2 = None /\
  afterRun out.1 = afterRun h /\
  db_runs (db out.1) = entry :: db_runs (db h) /\
  timers (db out.1) = timers (db h) /\
  (exists d : TaskDiagnosis,
     pattern d = orphaned /\
     sent (db out.1)
       = sent (db h) ++ [(chat_jid task, formatFailureNotification task d err completed)]) /\
  (forall row, db_tasks (db h) !! id task = Some row ->
     statusOf (id task) (db out.1) = Some completed).
Proof.
  intros Hno. cbv zeta. unfold runTask. rewrite (find_absent _ _ Hno).
  cbn [fst snd db afterRun].
  assert (Hpat : forall w, pattern (diagnosisOf task
                   (lit "Group not found: " ++ group_folder task) w) = orphaned).
  { intros w. unfold diagnosisOf, diagnoseTaskFailure.
    rewrite (group_not_found_orphaned (group_folder task)). reflexivity. }
  set (err := lit "Group not found: " ++ group_folder task) in *.
  set (w := logTaskRun _ (db h)).
  specialize (Hpat w).
  rewrite handleTaskFailure_eq. cbv zeta. rewrite Hpat.
  destruct (notifyStatus_effect task (diagnosisOf task err w) err completed
              (incrementTaskRetryCount (id task) err w).2) as (Hs & Ht & Hr & Hd).
  destruct (increment_frame (id task) err w) as (Hr' & Hs' & Ht').
  split; [reflexivity|]. split; [reflexivity|].
  split; [rewrite Hr, Hr'; reflexivity|].
  split; [rewrite Ht, Ht'; reflexivity|].
  split.
  - exists (diagnosisOf task err w). split; [exact Hpat|]. rewrite Hs, Hs'. reflexivity.
  - intros row Hrow. apply (statusOf_notify _ _ _ _ w row). exact Hrow.
Qed.

(** The streamed outputs change the messages sent, and nothing else of
    the state; the error they leave is that of the last failed one. *)
Lemma streamed_effect (task : ScheduledTask) (streamed : list ContainerOutput) :
  forall r : Running,
    let r' := fold_left (fun r o => onOutput task o r) streamed r in
    db_tasks (r_world r') = db_tasks (r_world r) /\
    db_runs (r_world r') = db_runs (r_world r) /\
    timers (r_world r') = timers (r_world r) /\
    r_error r' = match lastStreamedError streamed with
                 | Some e => Some e
                 | None => r_error r
                 end.
Proof.
  induction streamed as [|o streamed IH] using rev_ind; intros r; cbv zeta.
  - simpl. auto.
  - rewrite fold_left_app. simpl.
    specialize (IH r). cbv zeta in IH. destruct IH as (Ht & Hr & Hti & He).
    set (r1 := fold_left (fun r o => onOutput task o r) streamed r) in *.
    unfold lastStreamedError. rewrite rev_app_distr. simpl.
    unfold onOutput.
    assert (Hw : forall r2 : Running,
              r2 = match out_result o with
                   | Some text =>
                       if truthy_str text
                       then {| r_result := Some text; r_error := r_error r1;
                               r_world := sendMessage (chat_jid task) text (r_world r1) |}
                       else r1
                   | None => r1
                   end ->
              db_tasks (r_world r2) = db_tasks (r_world r1) /\
              db_runs (r_world r2) = db_runs (r_world r1) /\
              timers (r_world r2) = timers (r_world r1) /\
              r_error r2 = r_error r1).
    { intros r2 ->. destruct (out_result o) as [text|]; [|auto].
      destruct (truthy_str text); simpl; auto. }
    destruct (Hw _ eq_refl) as (Ht2 & Hr2 & Hti2 & He2).
    destruct (out_status o); simpl.
    + rewrite Ht2, Hr2, Hti2, He2, Ht, Hr, Hti, He. unfold lastStreamedError. auto.
    + rewrite Ht2, Hr2, Hti2, Ht, Hr, Hti. auto.
Qed.

Lemma orUnknown_nonempty (x : option str) : orUnknown x <> [].
Proof.
  unfold orUnknown. destruct x as [[|c e]|]; simpl; discriminate.
Qed.

Lemma lastStreamedError_some (streamed : list ContainerOutput) :
  Exists (fun o => out_status o = run_error) streamed ->
  exists e, lastStreamedError streamed = Some e /\ e <> [].
Proof.
  intros H. unfold lastStreamedError.
  destruct (find _ (rev streamed)) as [o|] eqn:Hf.
  - eexists. split; [reflexivity|apply orUnknown_nonempty].
  - exfalso. apply Exists_exists in H. destruct H as (o & Ho & Hs).
    apply list_elem_of_In in Ho.
    apply in_rev in Ho. pose proof (find_none _ _ Hf o Ho) as Hn.
    cbv beta in Hn. rewrite Hs in Hn. discriminate Hn.
Qed.

Lemma find_present (groups : list RegisteredGroup) (f : str) :
  Exists (fun g => folder g = f) groups ->
  exists g, find (fun g => str_eqb (folder g) f) groups = Some g.
Proof.
  induction 1 as [g groups Hg|g groups _ IH]; simpl.
  - apply str_eqb_eq in Hg. rewrite Hg. eauto.
  - destruct (str_eqb (folder g) f); eauto.
Qed.

(** X6.  A run counts as failed as soon as one streamed output reports
    status ['error'], also when the container then resolves with status
    ['success']: the run is logged with status ['error'] and the error of
    the last failed streamed output (['Unknown error'] if it has none),
    and the failure is handled (the count of the task goes up by one). *)
Theorem streamed_error_fails_the_run (cronNext : str -> option str)
  (toISOString : Z -> option str) (task : ScheduledTask) (sched : Schedule)
  (groups : list RegisteredGroup) (streamed : list ContainerOutput)
  (output : ContainerOutput) (clk : RunClock) (h : Host) :
  Exists (fun g => folder g = group_folder task) groups ->
  Exists (fun o => out_status o = run_error) streamed ->
  out_status output = run_success ->
  let out := runTask cronNext toISOString task sched groups (Resolved streamed output) clk h in
  exists (e : str) (res : option str),
    lastStreamedError streamed = Some e /\ e <> [] /\
    db_runs (db out.1)
      = {| task_id := id task; run_at := endIso clk;
           duration_ms := endTime clk - startTime clk;
           run_status := run_error; result := res; run_err := Some e |}
        :: db_runs (db h) /\
    (forall row, db_tasks (db h) !! id task = Some row ->
       exists row', db_tasks (db out.1) !! id task = Some row' /\
                    retry_count row' = retry_count row + 1 /\
                    last_error row' = Some e).
Proof.
  intros Hg Hs Hok. cbv zeta.
  destruct (find_present _ _ Hg) as (g & Hfind).
  destruct (lastStreamedError_some _ Hs) as (e & He & Hne).
  unfold runTask. rewrite Hfind.
  destruct (streamed_effect task streamed
              {| r_result := None; r_error := None; r_world := db h |})
    as (Ht & Hr & _ & Herr).
  cbv zeta in Ht, Hr, Herr. rewrite He in Herr. simpl in Ht, Hr.
  set (r := contained task (Resolved streamed output) (db h)).
  assert (Hre : r_error r = Some e /\ db_tasks (r_world r) = db_tasks (db h)
                /\ db_runs (r_world r) = db_runs (db h)).
  { subst r. unfold contained. rewrite Hok.
    destruct (truthy_opt (out_result output)); simpl; auto. }
  destruct Hre as (Hre & Hrt & Hrr).
  assert (Htr : truthy_str e = true) by (apply truthy_str_nonempty; exact Hne).
  rewrite Hre. simpl. rewrite Htr.
  exists e, (r_result r). split; [exact He|]. split; [exact Hne|].
  set (w := logTaskRun _ (r_world r)).
  assert (Hruns : db_runs (handleTaskFailure task e w)
                  = {| task_id := id task; run_at := endIso clk;
                       duration_ms := endTime clk - startTime clk;
                       run_status := run_error; result := r_result r;
                       run_err := Some e |} :: db_runs (db h)).
  { rewrite handle_runs. subst w. simpl. rewrite Hrr. reflexivity. }
  assert (Hrows : forall row, db_tasks (db h) !! id task = Some row ->
            exists row', db_tasks (handleTaskFailure task e w) !! id task = Some row' /\
                         retry_count row' = retry_count row + 1 /\
                         last_error row' = Some e).
  { intros row Hrow. apply (handle_rows task e w). subst w. simpl. rewrite Hrt. exact Hrow. }
  destruct (nextRunOf cronNext toISOString sched (scheduleTime clk)); simpl; auto.
Qed.

(** *** Witnesses *)

Import Samples Cases.

Lemma paused_only_when_persistent_witness :
  let w := worldWith [errorRun (Some (lit "disk full")); errorRun (Some (lit "Disk full "))] in
  ascii_text (lit "disk full") /\
  asciiErrors (getRecentTaskRuns (id task1) 10 w) /\
  statusOf (id task1) (handleTaskFailure task1 (lit "disk full") w) = Some paused /\
  noKeyword (lit "disk full") /\
  atLeastTwo (sameNonEmptyError (lit "disk full"))
    (getRecentTaskRuns (id task1) 10 w).
Proof.
  cbv zeta.
  assert (Hascii : forall s : string, forallb (fun c => code c <? 128) (lit s) = true ->
                                      ascii_text (lit s)).
  { intros s H. apply Forall_forall. intros c Hc.
    apply Z.ltb_lt. exact (proj1 (forallb_forall _ _) H c (proj1 (list_elem_of_In _ _) Hc)). }
  assert (Ha : ascii_text (lit "disk full")) by (apply Hascii; reflexivity).
  assert (Hruns : asciiErrors (getRecentTaskRuns (id task1) 10
                    (worldWith [errorRun (Some (lit "disk full"));
                                errorRun (Some (lit "Disk full "))]))).
  { unfold asciiErrors. set (l := getRecentTaskRuns _ _ _). vm_compute in l. subst l.
    repeat constructor; intros e [= <-]; apply Forall_forall; intros c Hc;
      apply Z.ltb_lt;
      refine (proj1 (forallb_forall (fun c => code c <? 128) _) _ c
                (proj1 (list_elem_of_In _ _) Hc)); reflexivity. }
  split; [exact Ha|]. split; [exact Hruns|]. split; [vm_compute; reflexivity|].
  refine (proj2 (paused_only_when_persistent task1 (lit "disk full") Ha) _ task1 Hruns _ _ _).
  - vm_compute. reflexivity.
  - discriminate.
  - vm_compute. reflexivity.
Defined.

Lemma diagnosis_ignores_case_witness :
  pattern (diagnoseTaskFailure task1 [] (lit "Container TIMED OUT")) = timeout /\
  pattern (diagnoseTaskFailure task1 [] (lit "Container TIMED OUT"))
    = pattern (diagnoseTaskFailure task1 [] (lit "container timed out")).
Proof.
  split; [vm_compute; reflexivity|].
  refine (proj1 (diagnosis_ignores_case task1 [] (lit "Container TIMED OUT")
                   (lit "container timed out") _)).
  vm_compute. reflexivity.
Defined.

Lemma missing_group_deactivates_witness :
  let out := runTask noCron isoOfMillis task1 everyMinute [familyGroup] silentRun oneRun
               {| db := worldWith []; afterRun := [] |} in
  statusOf (id task1) (db out.1) = Some completed /\
  length (sent (db out.1)) = 1%nat /\
  afterRun out.1 = [].
Proof.
  cbv zeta.
  pose proof (missing_group_deactivates noCron isoOfMillis task1 everyMinute [familyGroup]
                silentRun oneRun {| db := worldWith []; afterRun := [] |}) as H.
  cbv zeta in H.
  destruct H as (_ & Hafter & _ & _ & (d & _ & Hsent) & Hst).
  - repeat constructor. vm_compute. discriminate.
  - split; [apply (Hst task1); vm_compute; reflexivity|].
    split; [rewrite Hsent; reflexivity|exact Hafter].
Defined.

Lemma streamed_error_fails_the_run_witness :
  let out := runTask noCron isoOfMillis task1 everyMinute [mainGroup] brokenStream oneRun
               {| db := worldWith []; afterRun := [] |} in
  exists (e : str) (res : option str),
    lastStreamedError [failedOutput] = Some e /\ e <> [] /\
    db_runs (db out.1)
      = {| task_id := id task1; run_at := endIso oneRun;
           duration_ms := endTime oneRun - startTime oneRun;
           run_status := run_error; result := res; run_err := Some e |}
        :: [] /\
    (forall row, db_tasks (worldWith []) !! id task1 = Some row ->
       exists row', db_tasks (db out.1) !! id task1 = Some row' /\
                    retry_count row' = retry_count row + 1 /\
                    last_error row' = Some e).
Proof.
  apply (streamed_error_fails_the_run noCron isoOfMillis task1 everyMinute [mainGroup]
           [failedOutput] doneOutput oneRun {| db := worldWith []; afterRun := [] |}).
  - constructor. reflexivity.
  - constructor. reflexivity.
  - reflexivity.
Defined.

Lemma reported_task_is_not_enqueued_witness :
  let w' := handleTaskFailure task1 (lit "Group not found: main") (worldWith []) in
  sent w' <> sent (worldWith []) /\
  enqueueDue [task1] w' = [] /\
  retryFired task1 w' = [].
Proof.
  cbv zeta.
  assert (Hsent : sent (handleTaskFailure task1 (lit "Group not found: main") (worldWith []))
                  <> sent (worldWith [])).
  { vm_compute. discriminate. }
  destruct (reported_task_is_not_enqueued task1 (lit "Group not found: main") (worldWith []))
    as [Hdue Hretry].
  split; [exact Hsent|]. split.
  - rewrite (Hdue Hsent [task1]). vm_compute. reflexivity.
  - apply Hretry; [left; vm_compute; reflexivity|reflexivity].
Defined.

End SchedulerRunFacts.



(** ** The agent runner: drain, sentinel and start *)

Module RunnerFacts.

Import JS JSFacts Path PathFacts Ipc IpcWriteFacts OrderFacts IpcDrainFacts Runner.

(** *** The drain of any inbox *)

Lemma drainFile_frame (f : str) (d : Drain) :
  clean f ->
  cwd (drained (drainFile f d)) = cwd (drained d) /\
  dirs (drained (drainFile f d)) = dirs (drained d).
Proof. intros Hf. rewrite (drainFile_eq f d Hf). split; reflexivity. Qed.

Lemma drain_loop_frame (l : list str) :
  forall d : Drain,
    Forall clean l ->
    cwd (drained (fold_left (fun d file => drainFile file d) l d)) = cwd (drained d) /\
    dirs (drained (fold_left (fun d file => drainFile file d) l d)) = dirs (drained d).
Proof.
  induction l as [|f l IH]; intros d Hl; [split; reflexivity|].
  inversion Hl as [|? ? Hf Hl']; subst. simpl.
  destruct (IH (drainFile f d) Hl') as [-> ->]. apply drainFile_frame. exact Hf.
Qed.

(** The drain, file by file: what it returns, what it logs and what it
    leaves. *)
Lemma drain_spec (fs : Fs) :
  messages (drainIpcInput fs)
    = concat (map (fun f => yieldOf (files fs !! inboxPath f)) (inputFiles fs)) /\
  logged (drainIpcInput fs)
    = concat (map (fun f => logOf f (files fs !! inboxPath f)) (inputFiles fs)) /\
  (forall k, files (drained (drainIpcInput fs)) !! k =
             if decide (k ∈ map inboxPath (inputFiles fs)) then None else files fs !! k) /\
  cwd (drained (drainIpcInput fs)) = cwd fs /\
  dirs (drained (drainIpcInput fs)) = {[ Path.resolve (cwd fs) IPC_INPUT_DIR ]} ∪ dirs fs.
Proof.
  unfold drainIpcInput. rewrite inputFiles_mkdir.
  pose proof (drain_loop (inputFiles fs)
                {| messages := []; logged := []; drained := mkdirSync IPC_INPUT_DIR fs |}
                (inputFiles_clean fs) (inputFiles_NoDup fs)) as (Hm & Hl & Hf).
  pose proof (drain_loop_frame (inputFiles fs)
                {| messages := []; logged := []; drained := mkdirSync IPC_INPUT_DIR fs |}
                (inputFiles_clean fs)) as (Hc & Hd).
  cbn [messages logged drained files cwd dirs mkdirSync app] in Hm, Hl, Hf, Hc, Hd.
  auto.
Qed.

Lemma inboxJson_listed (fs : Fs) (k : str) :
  k ∈ map inboxPath (inputFiles fs) <-> inboxJson k /\ is_Some (files fs !! k).
Proof.
  rewrite list_elem_of_fmap. split.
  - intros (f & -> & Hf). apply inputFiles_spec in Hf as (Hj & Hs & Hsome).
    split; [exists f; auto|exact Hsome].
  - intros ((f & -> & Hj & Hs) & Hsome). exists f. split; [reflexivity|].
    apply inputFiles_spec. auto.
Qed.



(** Two inboxes with the same [.json] files give the same list of names. *)
Lemma inputFiles_ext (fs1 fs2 : Fs) :
  (forall k, inboxJson k -> files fs1 !! k = files fs2 !! k) ->
  inputFiles fs1 = inputFiles fs2.
Proof.
  intros H. apply (StronglySorted_unique str_le); try apply inputFiles_sorted.
  apply NoDup_Permutation; try apply inputFiles_NoDup.
  intros f. rewrite !inputFiles_spec.
  split; intros (Hj & Hs & Hsome); (split; [exact Hj|split; [exact Hs|]]).
  - rewrite <- H; [exact Hsome|exists f; auto].
  - rewrite H; [exact Hsome|exists f; auto].
Qed.

(** The drain reads the [.json] files of the inbox and nothing else. *)
Lemma drain_ext (fs1 fs2 : Fs) :
  (forall k, inboxJson k -> files fs1 !! k = files fs2 !! k) ->
  messages (drainIpcInput fs1) = messages (drainIpcInput fs2) /\
  logged (drainIpcInput fs1) = logged (drainIpcInput fs2).
Proof.
  intros H.
  destruct (drain_spec fs1) as (-> & -> & _). destruct (drain_spec fs2) as (-> & -> & _).
  rewrite (inputFiles_ext fs1 fs2 H).
  split; f_equal; apply map_ext_in; intros f Hf; apply list_elem_of_In in Hf;
    apply inputFiles_spec in Hf as (Hj & Hs & _);
    rewrite (H (inboxPath f)); try reflexivity; exists f; auto.
Qed.



(** *** The sentinel *)

Lemma close_clean : clean (lit "_close").
Proof.
  repeat split; try discriminate.
  repeat constructor; vm_compute; discriminate.
Qed.

Lemma sentinel_path : IPC_INPUT_CLOSE_SENTINEL = inboxPath (lit "_close").
Proof. apply join_inbox, close_clean. Qed.

Lemma sentinel_resolved (cwd : str) :
  Path.resolve cwd IPC_INPUT_CLOSE_SENTINEL = inboxPath (lit "_close").
Proof. rewrite sentinel_path. apply resolve_inboxPath, close_clean. Qed.

Lemma sentinel_not_json : ~ inboxJson (inboxPath (lit "_close")).
Proof.
  intros (f & Hf & Hj & _). apply inboxPath_inj in Hf. subst f.
  vm_compute in Hj. discriminate.
Qed.

Lemma inbox_resolved (cwd : str) : Path.resolve cwd IPC_INPUT_DIR = IPC_INPUT_DIR.
Proof.
  apply (resolve_of_clean cwd [lit "workspace"; lit "ipc"; lit "input"]); [discriminate|].
  repeat constructor; try discriminate; vm_compute; discriminate.
Qed.

Lemma existsSync_sentinel (fs : Fs) :
  existsSync IPC_INPUT_CLOSE_SENTINEL fs
  = bool_decide (is_Some (files fs !! inboxPath (lit "_close")))
    || bool_decide (inboxPath (lit "_close") ∈ dirs fs).
Proof. unfold existsSync. rewrite sentinel_resolved. reflexivity. Qed.

Lemma unlink_sentinel (fs : Fs) :
  unlinkSync IPC_INPUT_CLOSE_SENTINEL fs
  = with_files (delete (inboxPath (lit "_close")) (files fs)) fs.
Proof. unfold unlinkSync. rewrite sentinel_resolved. reflexivity. Qed.

(** A drain leaves the sentinel as it is. *)
Lemma drain_keeps_sentinel (fs : Fs) :
  existsSync IPC_INPUT_CLOSE_SENTINEL (drained (drainIpcInput fs))
  = existsSync IPC_INPUT_CLOSE_SENTINEL fs.
Proof.
  rewrite !existsSync_sentinel.
  destruct (drain_spec fs) as (_ & _ & Hf & Hc & Hd).
  rewrite Hd, inbox_resolved. f_equal.
  - rewrite Hf.
    destruct (decide (inboxPath (lit "_close") ∈ map inboxPath (inputFiles fs))) as [Hin|Hin];
      [|reflexivity].
    apply inboxJson_listed in Hin as [Hin _]. destruct (sentinel_not_json Hin).
  - apply bool_decide_ext. rewrite elem_of_union, elem_of_singleton.
    split; [intros [H|H]; [discriminate H|exact H]|auto].
Qed.

(** X8.  The close sentinel wins over pending messages, and loses none of
    them.  A round of [poll] that finds the sentinel resolves with [null],
    removes the sentinel file and touches no other file, so a later drain
    returns what a drain would have returned in its place; a round that
    does not find it never resolves with [null].  A drain, for its part,
    never removes the sentinel. *)
Theorem close_wins_and_keeps_messages (toText : json -> str) (fs : Fs) :
  (existsSync IPC_INPUT_CLOSE_SENTINEL fs = true ->
     outcome (poll toText fs) = Closed /\
     files (after (poll toText fs)) !! inboxPath (lit "_close") = None /\
     (forall k, k <> inboxPath (lit "_close") ->
        files (after (poll toText fs)) !! k = files fs !! k) /\
     messages (drainIpcInput (after (poll toText fs))) = messages (drainIpcInput fs)) /\
  (existsSync IPC_INPUT_CLOSE_SENTINEL fs = false ->
     outcome (poll toText fs) <> Closed) /\
  existsSync IPC_INPUT_CLOSE_SENTINEL (drained (drainIpcInput fs))
    = existsSync IPC_INPUT_CLOSE_SENTINEL fs.
Proof.
  split; [|split; [|apply drain_keeps_sentinel]].
  - intros H. unfold poll, shouldClose. rewrite H. cbn [outcome after].
    rewrite unlink_sentinel. cbn [files with_files].
    split; [reflexivity|]. split; [apply lookup_delete_eq|].
    split; [intros k Hk; apply lookup_delete_ne; congruence|].
    apply drain_ext. intros k Hk. cbn [files with_files].
    apply lookup_delete_ne. intros <-. exact (sentinel_not_json Hk).
  - intros H. unfold poll, shouldClose. rewrite H.
    destruct (messages (drainIpcInput fs)); discriminate.
Qed.

(** *** The start of [main] *)




(** *** Witnesses *)

Import Samples Cases.


Lemma close_wins_and_keeps_messages_witness :
  outcome (poll jsonText closingInbox) = Closed /\
  messages (drainIpcInput (after (poll jsonText closingInbox)))
    = [JStr (lit "one more")].
Proof.
  destruct (close_wins_and_keeps_messages jsonText closingInbox) as ((Hc & _ & _ & Hm) & _).
  - vm_compute. reflexivity.
  - split; [exact Hc|]. rewrite Hm. vm_compute. reflexivity.
Defined.



End RunnerFacts.



(** ** Archive names *)

Module ArchiveFacts.

Import JS JSFacts Path PathFacts Ipc IpcWriteFacts IpcDrainFacts Archive.

Lemma includes_spec (s p : str) :
  includes s p = true <-> exists a b, s = a ++ p ++ b.
Proof.
  induction s as [|c s IH].
  - cbn [includes]. rewrite orb_false_r, startsWith_spec. split.
    + intros [t Ht]. exists [], t. exact Ht.
    + intros (a & b & H). destruct a; [|discriminate]. exists b. exact H.
  - cbn [includes]. rewrite orb_true_iff, startsWith_spec, IH. split.
    + intros [[t Ht]|(a & b & H)]; [exists [], t; exact Ht|].
      exists (c :: a), b. rewrite H. reflexivity.
    + intros (a & b & H). destruct a as [|x a]; [left; exists b; exact H|].
      right. injection H as _ H. exists a, b. exact H.
Qed.

Lemma dash_not_az09 : is_az09 DASH = false.
Proof. reflexivity. Qed.

Lemma az09_not_slash (c : ascii) : is_az09 c = true \/ c = DASH -> c <> SLASH.
Proof. intros [H| ->] E; [rewrite E in H|]; discriminate. Qed.

(** *** The runs *)

Lemma dashRuns_alphabet (s : str) :
  forall b, Forall (fun c => is_az09 c = true \/ c = DASH) (dashRuns b s).
Proof.
  induction s as [|c s IH]; intros b; simpl; [constructor|].
  destruct (is_az09 c) eqn:Hc; [constructor; auto|].
  destruct b; [apply IH|constructor; auto].
Qed.

(** No two dashes follow each other, and no dash opens what comes after a
    run. *)
Lemma dashRuns_single (s : str) :
  forall b,
    (b = true -> forall r, dashRuns b s <> DASH :: r) /\
    (forall a r, dashRuns b s <> a ++ DASH :: DASH :: r).
Proof.
  induction s as [|c s IH]; intros b; simpl.
  - split; [discriminate|]. intros [|x a] r; discriminate.
  - destruct (is_az09 c) eqn:Hc.
    + split.
      * intros _ r H. injection H as -> _. rewrite dash_not_az09 in Hc. discriminate.
      * intros [|x a] r H.
        -- injection H as -> _. rewrite dash_not_az09 in Hc. discriminate.
        -- injection H as _ H. exact (proj2 (IH false) a r H).
    + destruct b.
      * apply IH.
      * split; [discriminate|]. intros [|x a] r H.
        -- injection H as H. exact (proj1 (IH true) eq_refl r H).
        -- injection H as _ H. exact (proj2 (IH true) a r H).
Qed.

Lemma dashRuns_keeps (s : str) (c : ascii) :
  forall b, c ∈ s -> is_az09 c = true -> c ∈ dashRuns b s.
Proof.
  induction s as [|x s IH]; intros b Hin Hc; [inversion Hin|].
  simpl. apply elem_of_cons in Hin as [<-|Hin].
  - rewrite Hc. left.
  - destruct (is_az09 x); [right; auto|]. destruct b; [auto|right; auto].
Qed.

Lemma dashRuns_dashes (s : str) :
  forall b, Forall (fun c => is_az09 c = false) s -> Forall (fun c => c = DASH) (dashRuns b s).
Proof.
  induction s as [|x s IH]; intros b Hs; simpl; [constructor|].
  inversion Hs as [|? ? Hx Hs']; subst. rewrite Hx.
  destruct b; [auto|constructor; auto].
Qed.

(** *** The trimming *)

Lemma dropDashes_spec (s : str) :
  exists p, s = p ++ dropDashes s /\ Forall (fun c => c = DASH) p /\
            (forall r, dropDashes s <> DASH :: r).
Proof.
  induction s as [|c s (p & Hp & Hd & Hh)].
  - exists []. repeat split; [constructor|discriminate].
  - simpl. destruct (ascii_eqb c DASH) eqn:Hc.
    + apply ascii_eqb_eq in Hc. subst c. exists (DASH :: p).
      split; [simpl; f_equal; exact Hp|]. split; [constructor; auto|exact Hh].
    + exists []. split; [reflexivity|]. split; [constructor|].
      intros r H. injection H as -> _.
      rewrite (proj2 (ascii_eqb_eq DASH DASH) eq_refl) in Hc. discriminate.
Qed.

Lemma trimDashes_spec (s : str) :
  exists p q, s = p ++ trimDashes s ++ q /\
              Forall (fun c => c = DASH) p /\ Forall (fun c => c = DASH) q /\
              (forall r, trimDashes s <> DASH :: r) /\
              (forall r, trimDashes s <> r ++ [DASH]).
Proof.
  destruct (dropDashes_spec s) as (p & Hp & Hpd & Hh).
  destruct (dropDashes_spec (rev (dropDashes s))) as (q & Hq & Hqd & Hl).
  exists p, (rev q). unfold trimDashes.
  assert (Hx : dropDashes s = rev (dropDashes (rev (dropDashes s))) ++ rev q).
  { rewrite <- rev_app_distr, <- Hq, rev_involutive. reflexivity. }
  split; [rewrite <- Hx; exact Hp|]. split; [exact Hpd|].
  split; [apply Forall_rev; exact Hqd|]. split.
  - intros r H. rewrite H in Hx. exact (Hh _ Hx).
  - intros r H. apply (f_equal (@rev ascii)) in H.
    rewrite rev_involutive, rev_app_distr in H. exact (Hl _ H).
Qed.

Lemma Forall_infix {A : Type} (P : A -> Prop) (p t q : list A) :
  Forall P (p ++ t ++ q) -> Forall P t.
Proof. rewrite !Forall_app. tauto. Qed.

Lemma sanitize_alphabet (summary : str) :
  Forall (fun c => is_az09 c = true \/ c = DASH) (sanitizeFilename summary).
Proof.
  unfold sanitizeFilename, slice_to.
  destruct (trimDashes_spec (dashRuns false (toLowerCase summary))) as (p & q & Hd & _).
  pose proof (dashRuns_alphabet (toLowerCase summary) false) as Ha.
  apply Forall_take. rewrite Hd in Ha. exact (Forall_infix _ _ _ _ Ha).
Qed.

(** X10.  The name [sanitizeFilename] makes of a summary holds at most 50
    characters, all of them lower-case ASCII letters, digits and dashes
    (so no path separator and no dot); it does not start with a dash and
    holds no two dashes in a row; and it ends with a dash only when it was
    cut at 50 characters. *)
Theorem sanitized_name_shape (summary : str) :
  let name := sanitizeFilename summary in
  Forall (fun c => is_az09 c = true \/ c = DASH) name /\
  (length name <= 50)%nat /\
  startsWith name (lit "-") = false /\
  includes name (lit "--") = false /\
  (endsWith name (lit "-") = true -> length name = 50%nat) /\
  slashless name.
Proof.
  cbv zeta. unfold sanitizeFilename, slice_to.
  set (d := dashRuns false (toLowerCase summary)).
  destruct (trimDashes_spec d) as (p & q & Hd & _ & _ & Hh & Hl).
  pose proof (dashRuns_alphabet (toLowerCase summary) false) as Ha. fold d in Ha.
  pose proof (sanitize_alphabet summary) as Hat.
  unfold sanitizeFilename, slice_to in Hat. fold d in Hat.
  split; [exact Hat|]. split; [rewrite length_take; lia|]. split; [|split; [|split]].
  - apply not_true_is_false. intros H. apply startsWith_spec in H as [t Ht].
    destruct (trimDashes d) as [|c r] eqn:Ht'; [discriminate|].
    simpl in Ht. injection Ht as -> _. exact (Hh r eq_refl).
  - apply not_true_is_false. intros H. apply includes_spec in H as (a & b & H).
    apply (proj2 (dashRuns_single (toLowerCase summary) false) (p ++ a)
             (b ++ drop 50 (trimDashes d) ++ q)).
    fold d. rewrite Hd at 1. rewrite <- (take_drop 50 (trimDashes d)) at 1.
    rewrite H. rewrite <- !app_assoc. reflexivity.
  - intros H. apply endsWith_spec in H as [t Ht].
    destruct (decide (length (trimDashes d) <= 50)%nat) as [Hle|Hgt].
    + rewrite take_ge in Ht by exact Hle. destruct (Hl t Ht).
    + rewrite length_take. lia.
  - eapply Forall_impl; [exact Hat|]. intros c Hc. apply az09_not_slash. exact Hc.
Qed.

Lemma take_nil_inv {A : Type} (n : nat) (l : list A) : take (S n) l = [] -> l = [].
Proof. destruct l; [reflexivity|discriminate]. Qed.

(** X11.  [sanitizeFilename] returns the empty name only for a summary
    without an ASCII letter or digit, and it does so for every such summary
    of ASCII characters.  The hook falls back to the time of day only for
    a summary that is missing or empty: for any other summary the archive
    is called [<date>-<sanitized name>.md], and so [<date>-.md] for a
    summary of ASCII characters that is not empty and holds no letter and
    no digit. *)
Theorem sanitized_name_empty (summary iso : str) (hours minutes : Z) :
  (sanitizeFilename summary = [] -> Forall (fun c => ~ alnum c) summary) /\
  (ascii_text summary -> Forall (fun c => ~ alnum c) summary ->
     sanitizeFilename summary = [] /\
     (summary <> [] ->
        archiveName (Some summary) iso hours minutes = beforeT iso ++ lit "-.md")) /\
  (summary <> [] ->
     archiveName (Some summary) iso hours minutes
       = beforeT iso ++ lit "-" ++ sanitizeFilename summary ++ lit ".md") /\
  archiveName None iso hours minutes
    = beforeT iso ++ lit "-" ++ generateFallbackName hours minutes ++ lit ".md" /\
  archiveName (Some []) iso hours minutes
    = beforeT iso ++ lit "-" ++ generateFallbackName hours minutes ++ lit ".md".
Proof.
  assert (Hname : summary <> [] ->
            archiveName (Some summary) iso hours minutes
              = beforeT iso ++ lit "-" ++ sanitizeFilename summary ++ lit ".md").
  { intros Hne. unfold archiveName. destruct summary as [|c r]; [congruence|]. reflexivity. }
  assert (Hempty : Forall (fun c => ~ alnum c) summary -> sanitizeFilename summary = []).
  { unfold sanitizeFilename, slice_to.
    set (d := dashRuns false (toLowerCase summary)).
    destruct (trimDashes_spec d) as (p & q & Hd & Hp & Hq & Hh & _).
    intros H.
    assert (Hall : Forall (fun c => c = DASH) d).
    { apply dashRuns_dashes. unfold toLowerCase. apply Forall_fmap.
      eapply Forall_impl; [exact H|]. intros c Hc. unfold alnum in Hc. simpl.
      destruct (is_az09 (lower_char c)); [destruct (Hc eq_refl)|reflexivity]. }
    destruct (trimDashes d) as [|c r] eqn:Ht; [reflexivity|]. exfalso.
    rewrite Hd in Hall. apply Forall_infix in Hall. inversion Hall as [|? ? Hc _]; subst.
    exact (Hh r eq_refl). }
  split; [|split; [|split; [exact Hname|split; reflexivity]]].
  - unfold sanitizeFilename, slice_to.
    set (d := dashRuns false (toLowerCase summary)).
    destruct (trimDashes_spec d) as (p & q & Hd & Hp & Hq & Hh & _).
    intros H. apply take_nil_inv in H. rewrite H in Hd. simpl in Hd.
    apply Forall_forall. intros c Hc Hal.
    assert (Hin : lower_char c ∈ d).
    { apply dashRuns_keeps; [|exact Hal]. unfold toLowerCase.
      apply list_elem_of_fmap. exists c. split; [reflexivity|exact Hc]. }
    rewrite Hd in Hin. apply elem_of_app in Hin.
    assert (Hdash : lower_char c = DASH).
    { destruct Hin as [Hin|Hin]; [exact (proj1 (Forall_forall _ _) Hp _ Hin)
                                 |exact (proj1 (Forall_forall _ _) Hq _ Hin)]. }
    unfold alnum in Hal. rewrite Hdash, dash_not_az09 in Hal. discriminate.
  - intros _ H. split; [exact (Hempty H)|].
    intros Hne. rewrite (Hname Hne), (Hempty H). reflexivity.
Qed.

(** *** The path of the archive *)

Lemma beforeT_slashless (iso : str) : slashless iso -> slashless (beforeT iso).
Proof.
  induction 1 as [|c s Hc _ IH]; simpl; [constructor|].
  destruct (ascii_eqb c _); constructor; assumption.
Qed.

Lemma padStart2_slashless (s : str) : slashless s -> slashless (padStart2 s).
Proof.
  intros H. unfold padStart2. apply Forall_app. split; [|exact H].
  apply Forall_forall. intros c Hc. apply list_elem_of_In, repeat_spec in Hc.
  subst c. discriminate.
Qed.

Lemma fallback_slashless (hours minutes : Z) : slashless (generateFallbackName hours minutes).
Proof.
  unfold generateFallbackName.
  apply Forall_app. split; [repeat constructor; discriminate|].
  apply Forall_app. split; apply padStart2_slashless, dec_aux_slashless.
Qed.

Lemma archiveName_clean (summary : option str) (iso : str) (hours minutes : Z) :
  slashless iso -> clean (archiveName summary iso hours minutes).
Proof.
  intros Hiso. unfold archiveName.
  set (name := match summary with Some s => _ | None => _ end).
  assert (Hname : slashless name).
  { subst name. destruct summary as [s|]; [|apply fallback_slashless].
    destruct (truthy_str s); [|apply fallback_slashless].
    eapply Forall_impl; [apply sanitize_alphabet|].
    intros c Hc. apply az09_not_slash. exact Hc. }
  split.
  - apply Forall_app. split; [apply beforeT_slashless; exact Hiso|].
    apply Forall_app. split; [repeat constructor; discriminate|].
    apply Forall_app. split; [exact Hname|repeat constructor; discriminate].
  - repeat split; intros H; apply (f_equal (@length ascii)) in H;
      rewrite !length_app in H; simpl in H; lia.
Qed.

(** X12.  The archive of a conversation is written directly into
    [/workspace/group/conversations], whatever the summary of the session
    says: the path the hook computes is that directory, a separator and a
    file name without separator that ends in [.md]. *)
Theorem archive_stays_in_conversations (summary : option str) (iso : str)
  (hours minutes : Z) :
  slashless iso ->
  archivePath summary iso hours minutes
    = conversationsDir ++ SLASH :: archiveName summary iso hours minutes /\
  entry_name conversationsDir (archivePath summary iso hours minutes)
    = Some (archiveName summary iso hours minutes) /\
  endsWith (archiveName summary iso hours minutes) (lit ".md") = true.
Proof.
  intros Hiso. pose proof (archiveName_clean summary iso hours minutes Hiso) as Hc.
  assert (Hp : archivePath summary iso hours minutes
               = conversationsDir ++ SLASH :: archiveName summary iso hours minutes).
  { unfold archivePath. rewrite join_clean by exact Hc.
    change (isAbsolute conversationsDir) with true. cbv iota.
    change (norm_segs false (split conversationsDir))
      with [lit "workspace"; lit "group"; lit "conversations"].
    rewrite join_snoc by discriminate. reflexivity. }
  split; [exact Hp|]. split.
  - apply entry_name_spec. destruct Hc as (Hs & Hne & _). auto.
  - apply endsWith_spec. unfold archiveName.
    exists (beforeT iso ++ lit "-" ++
            match summary with
            | Some s => if truthy_str s then sanitizeFilename s
                        else generateFallbackName hours minutes
            | None => generateFallbackName hours minutes
            end).
    rewrite <- !app_assoc. reflexivity.
Qed.

(** *** Witnesses *)

Lemma sanitized_name_empty_witness :
  ascii_text (lit "?!") /\ Forall (fun c => ~ alnum c) (lit "?!") /\
  sanitizeFilename (lit "?!") = [] /\
  archiveName (Some (lit "?!")) (lit "2024-05-06T07:08:09.000Z") 7 8 = lit "2024-05-06-.md".
Proof.
  assert (Ha : ascii_text (lit "?!")) by (repeat constructor).
  assert (Hn : Forall (fun c => ~ alnum c) (lit "?!")) by (repeat constructor; discriminate).
  destruct (proj1 (proj2 (sanitized_name_empty (lit "?!") (lit "2024-05-06T07:08:09.000Z") 7 8))
              Ha Hn) as [He Hf].
  split; [exact Ha|]. split; [exact Hn|]. split; [exact He|].
  rewrite Hf by discriminate. reflexivity.
Defined.

Lemma archive_stays_in_conversations_witness :
  archivePath (Some (lit "../../etc/Passwd: a Story")) (lit "2024-03-05T10:11:12.000Z") 10 11
    = lit "/workspace/group/conversations/2024-03-05-etc-passwd-a-story.md".
Proof.
  assert (H : slashless (lit "2024-03-05T10:11:12.000Z"))
    by (repeat constructor; discriminate).
  rewrite (proj1 (archive_stays_in_conversations
                    (Some (lit "../../etc/Passwd: a Story"))
                    (lit "2024-03-05T10:11:12.000Z") 10 11 H)).
  reflexivity.
Defined.

End ArchiveFacts.



(** ** Delegated trust and the guards *)

Module TrustFacts.

Import JS JSFacts Path PathFacts Runner Trust.

(** *** The list of levels *)

Lemma indexFrom_spec (l : list str) (x : str) :
  forall i,
    (x ∈ l -> i <= indexFrom i l x < i + Z.of_nat (length l)) /\
    (x ∉ l -> indexFrom i l x = -1).
Proof.
  induction l as [|y l IH]; intros i; simpl.
  - split; [intros H; inversion H|reflexivity].
  - destruct (str_eqb y x) eqn:E.
    + apply str_eqb_eq in E. subst y. split; [lia|]. intros H. destruct H. left.
    + apply str_eqb_neq in E. destruct (IH (i + 1)) as (Hin & Hout). split.
      * intros H. apply elem_of_cons in H as [->|H]; [congruence|].
        specialize (Hin H). lia.
      * intros H. apply Hout. intros H'. apply H. right. exact H'.
Qed.

Lemma indexOf_listed (x : str) : x ∈ levels <-> 0 <= indexOf levels x.
Proof.
  unfold indexOf. destruct (indexFrom_spec levels x 0) as (Hin & Hout). split.
  - intros H. apply Hin in H. lia.
  - intros H. destruct (decide (x ∈ levels)) as [Hx|Hx]; [exact Hx|].
    rewrite (Hout Hx) in H. lia.
Qed.

Lemma levels_cases (x : str) :
  x ∈ levels ->
  x = lit "owner" \/ x = lit "admin" \/ x = lit "operate" \/ x = lit "read" \/ x = lit "none".
Proof.
  unfold levels. rewrite !elem_of_cons, elem_of_nil. tauto.
Qed.

Lemma rank_listed (x : str) : x ∈ levels -> rank x = indexOf levels x.
Proof. intros H. apply indexOf_listed in H. unfold rank. lia. Qed.

Lemma rank_unlisted (x : str) : x ∉ levels -> rank x = 0.
Proof.
  intros H. unfold rank, indexOf.
  rewrite (proj2 (indexFrom_spec levels x 0) H). reflexivity.
Qed.

Lemma rank_zero (x : str) : x ∈ levels -> rank x = 0 -> x = lit "owner".
Proof.
  intros H. destruct (levels_cases x H) as [->|[->|[->|[->| ->]]]];
    [reflexivity|vm_compute; discriminate..].
Qed.

Section Folding.

Variable dateValue : str -> option Z.
Variable config : option (list TrustedUser).
Variable now : Z.
Variable ownerId : str.

Let level_of (id : str) : str := getTrustLevel dateValue config now id ownerId.

Let step (lowest id : str) : str :=
  if indexOf levels lowest <? indexOf levels (level_of id) then level_of id else lowest.

(** What the [reduce] keeps: a level of the list, the largest rank seen,
    held by the start or by a sender. *)
Lemma reduce_spec (ids : list str) :
  forall l0 : str,
    l0 ∈ levels ->
    let eff := fold_left step ids l0 in
    eff ∈ levels /\
    rank l0 <= rank eff /\
    (forall id, id ∈ ids -> rank (level_of id) <= rank eff) /\
    (eff = l0 \/ exists id, id ∈ ids /\ level_of id = eff).
Proof using Type.
  induction ids as [|id ids IH]; intros l0 Hl0; cbv zeta; simpl.
  - split; [exact Hl0|]. split; [lia|]. split; [intros id H; inversion H|auto].
  - assert (Hs : step l0 id ∈ levels /\ rank l0 <= rank (step l0 id) /\
                 rank (level_of id) <= rank (step l0 id) /\
                 (step l0 id = l0 \/ step l0 id = level_of id)).
    { pose proof (proj1 (indexOf_listed l0) Hl0) as H0. unfold step.
      destruct (indexOf levels l0 <? indexOf levels (level_of id)) eqn:E.
      - apply Z.ltb_lt in E.
        assert (Hin : level_of id ∈ levels) by (apply indexOf_listed; lia).
        split; [exact Hin|]. rewrite (rank_listed _ Hin), (rank_listed _ Hl0).
        split; [lia|]. split; [lia|auto].
      - apply Z.ltb_ge in E. split; [exact Hl0|]. split; [lia|]. split; [|auto].
        rewrite (rank_listed _ Hl0). unfold rank. lia. }
    destruct Hs as (Hin & Hr0 & Hrid & Hwho).
    destruct (IH (step l0 id) Hin) as (Hin' & Hr & Hall & Hex). cbv zeta in *.
    split; [exact Hin'|]. split; [lia|]. split.
    + intros x Hx. apply elem_of_cons in Hx as [->|Hx]; [lia|auto].
    + destruct Hex as [Hex|(x & Hx & Hlx)].
      * destruct Hwho as [Hw|Hw].
        -- left. congruence.
        -- right. exists id. split; [left|congruence].
      * right. exists x. split; [right; exact Hx|exact Hlx].
Qed.

Lemma owner_listed : lit "owner" ∈ levels.
Proof. left. Qed.

Lemma none_listed : lit "none" ∈ levels.
Proof. unfold levels. rewrite !elem_of_cons. auto 10. Qed.

Lemma effective_reduce (ids : list str) :
  ids <> [] ->
  effectiveLevel dateValue config now (Some ids) ownerId = fold_left step ids (lit "owner").
Proof using Type. destruct ids; [congruence|reflexivity]. Qed.

Lemma effective_listed (senders : option (list str)) :
  effectiveLevel dateValue config now senders ownerId ∈ levels.
Proof using Type.
  destruct senders as [[|id ids]|]; try apply none_listed.
  rewrite effective_reduce by discriminate.
  apply (reduce_spec (id :: ids) (lit "owner") owner_listed).
Qed.

Lemma effective_owner (ids : list str) :
  ids <> [] ->
  (forall id, id ∈ ids -> rank (level_of id) = 0) ->
  effectiveLevel dateValue config now (Some ids) ownerId = lit "owner".
Proof using Type.
  intros Hne Hall. rewrite effective_reduce by exact Hne.
  destruct (reduce_spec ids (lit "owner") owner_listed) as (Hin & _ & _ & Hex).
  cbv zeta in *. destruct Hex as [Hex|(id & Hid & Hl)]; [exact Hex|].
  apply rank_zero; [exact Hin|]. rewrite <- Hl. auto.
Qed.

End Folding.


(** *** Who is trusted *)

Lemma find_filter {A : Type} (p q : A -> bool) (l : list A) (a : A) :
  find p (List.filter q l) = Some a -> In a l /\ p a = true /\ q a = true.
Proof.
  intros H. apply find_some in H as [Hin Hp].
  apply filter_In in Hin as [Hin Hq]. auto.
Qed.

(** X14.  The owner has level ['owner'] whatever the trust file says.
    Any other user has level ['none'] unless the file holds an entry for
    the user that is live: an entry without expiry date, or with a date
    that parses and lies after now.  An expired entry and an entry whose
    date does not parse grant nothing. *)
Theorem grant_needs_live_entry (dateValue : str -> option Z)
  (config : option (list TrustedUser)) (now : Z) (ownerId : str) :
  getTrustLevel dateValue config now ownerId ownerId = lit "owner" /\
  (forall user : str,
     user <> ownerId ->
     getTrustLevel dateValue config now user ownerId = lit "none" \/
     exists (users : list TrustedUser) (u : TrustedUser),
       config = Some users /\ In u users /\ userId u = user /\
       level u = getTrustLevel dateValue config now user ownerId /\
       (expiresAt u = None \/ expiresAt u = Some [] \/
        exists e t, expiresAt u = Some e /\ dateValue e = Some t /\ now < t)).
Proof.
  split.
  - unfold getTrustLevel. rewrite str_eqb_refl. reflexivity.
  - intros user Hne. unfold getTrustLevel.
    rewrite (proj2 (str_eqb_neq user ownerId) Hne).
    destruct (find _ _) as [u|] eqn:Hf; [|left; reflexivity]. right.
    unfold loadTrustedUsers in Hf. destruct config as [users|]; [|discriminate].
    apply find_filter in Hf as (Hin & Hid & Hlive).
    exists users, u. split; [reflexivity|]. split; [exact Hin|].
    split; [apply str_eqb_eq; exact Hid|]. split; [reflexivity|].
    unfold unexpired in Hlive. destruct (expiresAt u) as [e|]; [|auto].
    destruct e as [|c e]; [auto|]. right. right. simpl in Hlive.
    destruct (dateValue (c :: e)) as [t|] eqn:Ht; [|discriminate].
    exists (c :: e), t. repeat split; [exact Ht|]. apply Z.ltb_lt. exact Hlive.
Qed.

(** *** The guard of Bash commands *)

Ltac literal_tests :=
  repeat match goal with
    | |- context [str_eqb (lit ?a) (lit ?b)] =>
        let v := eval vm_compute in (str_eqb (lit a) (lit b)) in
        change (str_eqb (lit a) (lit b)) with v
    end;
  cbv iota; cbn [orb andb negb].

Ltac is_blocked := eexists; reflexivity.

Ltac not_blocked := intros [reason Hreason]; discriminate Hreason.

Section Guarding.

Variable dateValue : str -> option Z.
Variable config : option (list TrustedUser).
Variable now : Z.
Variables ownerOnly readSafe operateOk destructive : str -> bool.

(** X15.  The guard of Bash commands blocks a call exactly when the
    command is not empty, the input carries a trust configuration, the run
    is no scheduled task, the effective level is not ['owner'], and one
    of four things holds: an owner-only pattern matches (at every other
    level, ['admin'] included); the level is ['operate'] and a destructive
    pattern matches but no operate and no read-safe pattern; the level is
    ['read'] and no read-safe pattern matches; the level is ['none'] and a
    destructive pattern matches. *)
Theorem owner_guard_table (input : ContainerInput) (command : option str) :
  blocked (ownerGuard dateValue config now ownerOnly readSafe operateOk destructive
             input command) <->
  exists c ownerId : str,
    command = Some c /\ c <> [] /\
    trustConfig input = Some ownerId /\ isScheduledTask input = false /\
    let eff := effectiveLevel dateValue config now (senderIds input) ownerId in
    eff <> lit "owner" /\
    (ownerOnly c = true \/
     (eff = lit "operate" /\ operateOk c = false /\ readSafe c = false /\
      destructive c = true) \/
     (eff = lit "read" /\ readSafe c = false) \/
     (eff = lit "none" /\ destructive c = true)).
Proof using Type.
  unfold ownerGuard.
  destruct command as [c|]; [|split; [not_blocked|intros (? & ? & ? & _); discriminate]].
  destruct c as [|c0 c]; [split; [not_blocked|intros (? & ? & H & Hne & _)];
                          injection H as <-; congruence|].
  cbn [truthy_str negb].
  destruct (trustConfig input) as [ownerId|];
    [|split; [not_blocked|intros (? & ? & _ & _ & ? & _); discriminate]].
  destruct (isScheduledTask input);
    [split; [not_blocked|intros (? & ? & _ & _ & _ & ? & _); discriminate]|].
  cbv zeta.
  pose proof (effective_listed dateValue config now ownerId (senderIds input)) as Hin.
  set (eff := effectiveLevel dateValue config now (senderIds input) ownerId) in *.
  split.
  - intros Hb. exists (c0 :: c), ownerId.
    split; [reflexivity|]. split; [discriminate|]. split; [reflexivity|].
    split; [reflexivity|]. cbv zeta. fold eff.
    destruct (levels_cases eff Hin) as [He|[He|[He|[He|He]]]];
      rewrite He in *; revert Hb; literal_tests.
    + not_blocked.
    + destruct (ownerOnly (c0 :: c)); [intros _; split; [discriminate|auto]|not_blocked].
    + destruct (ownerOnly (c0 :: c)); [intros _; split; [discriminate|auto]|].
      destruct (operateOk (c0 :: c)); [not_blocked|].
      destruct (readSafe (c0 :: c)); [not_blocked|].
      destruct (destructive (c0 :: c)); [|not_blocked].
      intros _. split; [discriminate|]. right. left. auto.
    + destruct (ownerOnly (c0 :: c)); [intros _; split; [discriminate|auto]|].
      destruct (readSafe (c0 :: c)); [not_blocked|].
      intros _. split; [discriminate|]. right. right. left. auto.
    + destruct (ownerOnly (c0 :: c)); [intros _; split; [discriminate|auto]|].
      destruct (destructive (c0 :: c)); [|not_blocked].
      intros _. split; [discriminate|]. right. right. right. auto.
  - intros (c1 & o & Hc & _ & Ho & _ & Hrest). injection Hc as <-. injection Ho as <-.
    cbv zeta in Hrest. fold eff in Hrest. destruct Hrest as (Hno & Hwhy).
    rewrite (proj2 (str_eqb_neq eff (lit "owner")) Hno).
    destruct (ownerOnly (c0 :: c)) eqn:Hoo; [is_blocked|].
    destruct Hwhy as [H|[(He & H1 & H2 & H3)|[(He & H1)|(He & H1)]]];
      [discriminate| | |]; rewrite He; literal_tests.
    + rewrite H1, H2, H3. is_blocked.
    + rewrite H1. is_blocked.
    + rewrite H1. is_blocked.
Qed.

(** *** The guard of file writes *)

Lemma blocked_prefix_outside (resolved prefix : str) :
  find (fun prefix => startsWith resolved prefix) blockedPrefixes = Some prefix ->
  startsWith resolved (lit "/workspace/group/") = false.
Proof using Type.
  intros H. apply find_some in H as [Hin Hs].
  apply IpcDrainFacts.startsWith_spec in Hs as [t ->].
  destruct Hin as [<-|[<-|[<-|[]]]]; vm_compute; reflexivity.
Qed.

(** X16.  The guard of Write and Edit blocks a call exactly when the path
    is not empty, the input carries a trust configuration, the run is no
    scheduled task, and the effective level is ['none'] or ['read'], or it
    is ['operate'] and the path, resolved against the working directory
    ([..] segments taken out), does not start with [/workspace/group/].
    The three protected prefixes only choose the message: a path under
    one of them is outside [/workspace/group/] anyway. *)
Theorem file_guard_table (cwd : str) (input : ContainerInput) (filePath : option str) :
  blocked (fileGuard dateValue config now cwd input filePath) <->
  exists p ownerId : str,
    filePath = Some p /\ p <> [] /\
    trustConfig input = Some ownerId /\ isScheduledTask input = false /\
    let eff := effectiveLevel dateValue config now (senderIds input) ownerId in
    eff = lit "none" \/ eff = lit "read" \/
    (eff = lit "operate" /\
     startsWith (Path.resolve cwd p) (lit "/workspace/group/") = false).
Proof using Type.
  unfold fileGuard.
  destruct filePath as [p|]; [|split; [not_blocked|intros (? & ? & ? & _); discriminate]].
  destruct p as [|p0 p]; [split; [not_blocked|intros (? & ? & H & Hne & _)];
                          injection H as <-; congruence|].
  cbn [truthy_str negb].
  destruct (trustConfig input) as [ownerId|];
    [|split; [not_blocked|intros (? & ? & _ & _ & ? & _); discriminate]].
  destruct (isScheduledTask input);
    [split; [not_blocked|intros (? & ? & _ & _ & _ & ? & _); discriminate]|].
  cbv zeta.
  pose proof (effective_listed dateValue config now ownerId (senderIds input)) as Hin.
  set (eff := effectiveLevel dateValue config now (senderIds input) ownerId) in *.
  set (resolved := Path.resolve cwd (p0 :: p)).
  split.
  - intros Hb. exists (p0 :: p), ownerId.
    split; [reflexivity|]. split; [discriminate|]. split; [reflexivity|].
    split; [reflexivity|]. cbv zeta. fold eff. fold resolved.
    destruct (levels_cases eff Hin) as [He|[He|[He|[He|He]]]];
      rewrite He in *; auto; revert Hb; literal_tests; try not_blocked.
    destruct (find _ blockedPrefixes) as [prefix|] eqn:Hf.
    + intros _. right. right. split; [reflexivity|].
      exact (blocked_prefix_outside resolved prefix Hf).
    + destruct (startsWith resolved (lit "/workspace/group/")); [not_blocked|auto].
  - intros (p1 & o & Hp & _ & Ho & _ & Hwhy). injection Hp as <-. injection Ho as <-.
    cbv zeta in Hwhy. fold eff in Hwhy. fold resolved in Hwhy.
    destruct Hwhy as [He|[He|(He & Hout)]]; rewrite He; literal_tests; try is_blocked.
    destruct (find _ blockedPrefixes); [is_blocked|]. rewrite Hout. is_blocked.
Qed.

(** X17.  When every sender is the owner or holds a level that is not in
    the list of levels (a misspelt level of the trust file, say), both
    guards let every call pass. *)
Theorem unlisted_level_passes_as_owner (cwd : str) (input : ContainerInput)
  (ids : list str) (ownerId : str) :
  senderIds input = Some ids ->
  ids <> [] ->
  trustConfig input = Some ownerId ->
  (forall id, id ∈ ids ->
     id = ownerId \/ getTrustLevel dateValue config now id ownerId ∉ levels) ->
  (forall command,
     ownerGuard dateValue config now ownerOnly readSafe operateOk destructive
       input command = Pass) /\
  (forall filePath, fileGuard dateValue config now cwd input filePath = Pass).
Proof using Type.
  intros Hs Hne Ht Hall.
  assert (Heff : effectiveLevel dateValue config now (senderIds input) ownerId = lit "owner").
  { rewrite Hs. apply effective_owner; [exact Hne|]. intros id Hid.
    destruct (Hall id Hid) as [->|H]; [|apply rank_unlisted; exact H].
    unfold getTrustLevel. rewrite str_eqb_refl. reflexivity. }
  split.
  - intros command. unfold ownerGuard. rewrite Ht. cbv zeta. rewrite Heff.
    destruct command as [c|]; [|reflexivity].
    destruct (negb (truthy_str c)); [reflexivity|].
    destruct (isScheduledTask input); reflexivity.
  - intros filePath. unfold fileGuard. rewrite Ht. cbv zeta. rewrite Heff.
    destruct filePath as [p|]; [|reflexivity].
    destruct (negb (truthy_str p)); [reflexivity|].
    destruct (isScheduledTask input); reflexivity.
Qed.

End Guarding.

(** *** Witnesses *)

Import Cases.

Lemma unlisted_level_passes_as_owner_witness :
  getTrustLevel dateOfIso trustFile 1700000000000 (lit "2002") (lit "1001")
    = lit "superuser" /\
  ownerGuard dateOfIso trustFile 1700000000000
    (fun _ => true) (fun _ => false) (fun _ => false) (fun _ => true)
    (turnOf [lit "2002"]) (Some (lit "passwd root")) = Pass.
Proof.
  split; [vm_compute; reflexivity|].
  refine (proj1 (unlisted_level_passes_as_owner dateOfIso trustFile 1700000000000
                   (fun _ => true) (fun _ => false) (fun _ => false) (fun _ => true)
                   (lit "/workspace/group") (turnOf [lit "2002"]) [lit "2002"] (lit "1001")
                   eq_refl _ eq_refl _) _).
  - discriminate.
  - intros id Hid. apply list_elem_of_singleton in Hid. subst id. right.
    vm_compute. intros H. repeat (apply elem_of_cons in H as [H|H]; [discriminate H|]).
    inversion H.
Defined.


Lemma grant_needs_live_entry_witness :
  lit "4004" <> lit "1001" /\
  getTrustLevel dateOfIso trustFile 1700000000000 (lit "4004") (lit "1001") = lit "none" /\
  getTrustLevel dateOfIso trustFile 1700000000000 (lit "3003") (lit "1001")
    = lit "operate" /\
  exists (users : list TrustedUser) (u : TrustedUser),
    trustFile = Some users /\ In u users /\ userId u = lit "3003" /\
    level u = getTrustLevel dateOfIso trustFile 1700000000000 (lit "3003") (lit "1001") /\
    (expiresAt u = None \/ expiresAt u = Some [] \/
     exists e t, expiresAt u = Some e /\ dateOfIso e = Some t /\ 1700000000000 < t).
Proof.
  assert (Hne : lit "3003" <> lit "1001") by discriminate.
  split; [discriminate|]. split; [vm_compute; reflexivity|].
  split; [vm_compute; reflexivity|].
  destruct (proj2 (grant_needs_live_entry dateOfIso trustFile 1700000000000 (lit "1001"))
              (lit "3003") Hne) as [Hnone|Hgrant].
  - vm_compute in Hnone. discriminate Hnone.
  - exact Hgrant.
Defined.

End TrustFacts.



(** ** The event bus *)

Module EventsFacts.

Import JS Events.

Section Bus.

Context {Handler : Type} `{EqDecision Handler}.

Local Abbreviation Handlers := (gmap str (list Handler)).

Implicit Types (handlers bus : Handlers) (h handler : Handler) (set : list Handler).

Lemma set_add_spec handler set :
  NoDup set ->
  NoDup (set_add handler set) /\ set_add handler set <> [] /\
  (forall h, h ∈ set_add handler set <-> h = handler \/ h ∈ set).
Proof using Type.
  intros Hnd. unfold set_add. destruct (decide (handler ∈ set)) as [Hin|Hout].
  - split; [exact Hnd|]. split; [intros ->; inversion Hin|].
    intros h. split; [auto|intros [->|Hh]; assumption].
  - split; [|split].
    + apply NoDup_app. split; [exact Hnd|]. split; [|apply NoDup_singleton].
      intros x Hx Hx'. apply list_elem_of_singleton in Hx'. subst x. contradiction.
    + intros Heq. apply (f_equal length) in Heq. rewrite length_app in Heq.
      simpl in Heq. lia.
    + intros h. rewrite elem_of_app, list_elem_of_singleton. tauto.
Qed.

Lemma set_delete_spec handler set :
  NoDup set ->
  NoDup (set_delete handler set) /\
  (forall h, h ∈ set_delete handler set <-> h <> handler /\ h ∈ set).
Proof using Type.
  intros Hnd. unfold set_delete. split; [apply NoDup_filter; exact Hnd|].
  intros h. rewrite list_elem_of_filter. tauto.
Qed.

Lemma set_delete_added handler set :
  handler ∉ set -> set_delete handler (set ++ [handler]) = set.
Proof using Type.
  intros Hout. unfold set_delete. rewrite filter_app, filter_cons, filter_nil.
  destruct (decide (handler <> handler)) as [Hne|_]; [congruence|].
  rewrite app_nil_r. induction set as [|x set IH]; [reflexivity|].
  rewrite filter_cons. apply not_elem_of_cons in Hout as [Hx Hout].
  destruct (decide (x <> handler)) as [_|Heq]; [f_equal; auto|].
  destruct Heq. congruence.
Qed.

Lemma set_delete_length handler set :
  NoDup set -> handler ∈ set -> S (length (set_delete handler set)) = length set.
Proof using Type.
  intros Hnd Hin. unfold set_delete.
  induction set as [|x set IH]; [inversion Hin|].
  inversion Hnd as [|? ? Hx Hnd']; subst. rewrite filter_cons.
  destruct (decide (x <> handler)) as [Hne|Heq].
  - simpl. f_equal. apply IH; [exact Hnd'|].
    apply elem_of_cons in Hin as [->|Hin]; [congruence|exact Hin].
  - apply dec_stable in Heq. subst x. simpl. f_equal.
    clear IH Hin Hnd Hnd'. induction set as [|y set IH]; [reflexivity|].
    apply not_elem_of_cons in Hx as [Hy Hx]. rewrite filter_cons.
    destruct (decide (y <> handler)) as [_|Hn]; [simpl; f_equal; auto|].
    destruct Hn. congruence.
Qed.

Lemma on_tidy event handler bus : tidy bus -> tidy (on event handler bus).
Proof using Type.
  intros Ht e set. unfold on.
  destruct (bus !! event) as [old|] eqn:Hold.
  - destruct (decide (e = event)) as [->|Hne].
    + rewrite lookup_insert_eq. intros [= <-].
      destruct (Ht event old Hold) as [_ Hnd].
      destruct (set_add_spec handler old Hnd) as (H1 & H2 & _). auto.
    + rewrite lookup_insert_ne by congruence. apply Ht.
  - destruct (decide (e = event)) as [->|Hne].
    + rewrite lookup_insert_eq. intros [= <-].
      destruct (set_add_spec handler [] (NoDup_nil_2)) as (H1 & H2 & _). auto.
    + rewrite lookup_insert_ne by congruence. apply Ht.
Qed.

Lemma off_tidy event handler bus : tidy bus -> tidy (off event handler bus).
Proof using Type.
  intros Ht e set. unfold off.
  destruct (bus !! event) as [old|] eqn:Hold; [|apply Ht].
  cbv zeta. destruct (length (set_delete handler old) =? 0)%nat eqn:Hlen.
  - destruct (decide (e = event)) as [->|Hne].
    + rewrite lookup_delete_eq. discriminate.
    + rewrite lookup_delete_ne by congruence. apply Ht.
  - destruct (decide (e = event)) as [->|Hne].
    + rewrite lookup_insert_eq. intros [= <-].
      destruct (Ht event old Hold) as [_ Hnd]. split.
      * intros Heq. rewrite Heq in Hlen. discriminate.
      * apply set_delete_spec. exact Hnd.
    + rewrite lookup_insert_ne by congruence. apply Ht.
Qed.

Lemma calls_tidy (calls : list (@Call Handler)) :
  forall bus, tidy bus -> tidy (fold_left perform calls bus).
Proof using Type.
  induction calls as [|c calls IH]; intros bus Ht; [exact Ht|].
  simpl. apply IH. destruct c as [e h|e h|]; simpl.
  - apply on_tidy. exact Ht.
  - apply off_tidy. exact Ht.
  - intros e set Hl. unfold clear in Hl. rewrite lookup_empty in Hl. discriminate.
Qed.

(** X18.  Whatever calls of [on], [off] and [clear] were made on a new
    bus, no event is kept with an empty set of handlers and no handler is
    kept twice for an event.  So [listenerCount] is 0 exactly for the
    events the map does not hold, and [emit] calls every handler
    registered for the event once (also one registered twice), in the
    order of registration, whether or not a handler before it throws or
    times out; every failure is one of the calls. *)
Theorem bus_stays_tidy (calls : list (@Call Handler)) (settles : Handler -> bool) :
  let bus := fold_left perform calls (∅ : Handlers) in
  tidy bus /\
  forall event : str,
    (listenerCount event bus = 0%nat <-> bus !! event = None) /\
    NoDup (called (emit settles event bus)) /\
    length (called (emit settles event bus)) = listenerCount event bus /\
    (forall h, h ∈ called (emit settles event bus) <-> registered event h bus) /\
    (forall h, In h (failedHandlers (emit settles event bus)) <->
               registered event h bus /\ settles h = false).
Proof using Type.
  cbv zeta.
  assert (Ht : tidy (fold_left perform calls (∅ : Handlers))).
  { apply calls_tidy. intros e set Hl. rewrite lookup_empty in Hl. discriminate. }
  split; [exact Ht|]. intros event.
  set (bus := fold_left perform calls ∅) in *.
  unfold listenerCount, emit, registered.
  destruct (bus !! event) as [set|] eqn:Hset; cbn [called failedHandlers].
  - destruct (Ht event set Hset) as [Hne Hnd]. split; [|split; [exact Hnd|split; [reflexivity|split]]].
    + split; [|discriminate]. intros Hl. destruct set; [congruence|discriminate].
    + intros h. split; [intros Hh; exists set; auto|].
      intros (set' & [= <-] & Hh). exact Hh.
    + intros h. rewrite filter_In, negb_true_iff, <- list_elem_of_In. split.
      * intros [Hh Hs]. split; [exists set; auto|exact Hs].
      * intros [(set' & [= <-] & Hh) Hs]. auto.
  - split; [tauto|]. split; [constructor|]. split; [reflexivity|]. split.
    + intros h. split; [intros Hh; inversion Hh|intros (set & Hs & _); discriminate].
    + intros h. split; [intros []|intros [(set & Hs & _) _]; discriminate].
Qed.

(** X19.  [off] undoes [on]: on a bus as the calls leave it, registering
    a handler that was not registered for the event adds one listener, and
    removing it again gives back the bus as it was (the event itself goes
    when its last handler goes).  Registering a handler that is already
    registered changes nothing. *)
Theorem on_then_off_restores (event : str) (handler : Handler) (bus : Handlers) :
  tidy bus ->
  (~ registered event handler bus ->
     listenerCount event (on event handler bus) = S (listenerCount event bus) /\
     off event handler (on event handler bus) = bus) /\
  (registered event handler bus ->
     on event handler bus = bus /\
     S (listenerCount event (off event handler bus)) = listenerCount event bus).
Proof using Type.
  intros Ht. split.
  - intros Hno. unfold on, off, listenerCount, registered in *.
    destruct (bus !! event) as [set|] eqn:Hset.
    + assert (Hout : handler ∉ set) by (intros Hin; apply Hno; eauto).
      destruct (Ht event set Hset) as [Hne _].
      unfold set_add. destruct (decide (handler ∈ set)) as [Hin|_]; [contradiction|].
      rewrite !lookup_insert_eq. split; [rewrite length_app; simpl; lia|].
      cbv zeta. rewrite (set_delete_added handler set Hout).
      destruct set as [|x set]; [congruence|]. simpl.
      rewrite insert_insert_eq. apply insert_id. exact Hset.
    + unfold set_add. destruct (decide (handler ∈ [])) as [Hin|_]; [inversion Hin|].
      rewrite !lookup_insert_eq. split; [reflexivity|].
      cbv zeta. rewrite (set_delete_added handler []) by (intros Hin; inversion Hin).
      simpl. apply delete_insert_id. exact Hset.
  - intros (set & Hset & Hin). unfold on, off, listenerCount. rewrite Hset.
    destruct (Ht event set Hset) as [Hne Hnd]. split.
    + unfold set_add. destruct (decide (handler ∈ set)) as [_|Hout]; [|contradiction].
      apply insert_id. exact Hset.
    + cbv zeta. pose proof (set_delete_length handler set Hnd Hin) as Hlen.
      destruct (length (set_delete handler set) =? 0)%nat eqn:E.
      * apply Nat.eqb_eq in E. rewrite lookup_delete_eq. lia.
      * rewrite lookup_insert_eq. exact Hlen.
Qed.

End Bus.

(** *** Witnesses *)

Lemma on_then_off_restores_witness :
  off (lit "plugin:loaded") 7%nat (on (lit "plugin:loaded") 7%nat (∅ : gmap str (list nat))) = ∅ /\
  listenerCount (lit "plugin:loaded") (on (lit "plugin:loaded") 7%nat (∅ : gmap str (list nat)))
    = 1%nat.
Proof.
  assert (Ht : tidy (∅ : gmap str (list nat))).
  { intros e set Hl. rewrite lookup_empty in Hl. discriminate. }
  assert (Hno : ~ registered (lit "plugin:loaded") 7%nat (∅ : gmap str (list nat))).
  { intros (set & Hs & _). rewrite lookup_empty in Hs. discriminate. }
  destruct (proj1 (on_then_off_restores (lit "plugin:loaded") 7%nat ∅ Ht) Hno) as [Hc Ho].
  split; [exact Ho|exact Hc].
Defined.

End EventsFacts.



(** ** The life of loaded plugins *)

Module LifecycleFacts.

Import JS JSFacts Registry RegistryFacts Lifecycle.

Section Life.

Variable Plugin : Type.
Variable onUnload : Plugin -> UnloadResult.
Variable importModule : str -> Imported Plugin.
Variable onLoad : Plugin -> LoadResult.

Local Abbreviation Reg := (Loaded Plugin).
Local Abbreviation plugins' := (plugins Plugin).
Local Abbreviation loadOrder' := (loadOrder Plugin).
Local Abbreviation emitted' := (emitted Plugin).

(** *** Loading *)

(** A call of [loadPlugin] that returns has skipped a plugin that was
    loaded, or has put one into the map and at the end of the order. *)
Lemma loadPlugin_done (fs : Ipc.Fs) (p : Discovered) (r r' : Reg) :
  loadPlugin Plugin importModule onLoad fs p r = Done r' ->
  (is_Some (plugins' r !! name (manifest p)) /\ r' = r) \/
  (plugins' r !! name (manifest p) = None /\
   exists plugin : Plugin,
     r' = {| plugins := <[ name (manifest p) := (plugin, p) ]> (plugins' r);
             loadOrder := loadOrder' r ++ [name (manifest p)];
             emitted := emitted' r ++ [name (manifest p)] |}).
Proof.
  unfold loadPlugin. cbv zeta.
  destruct (decide (is_Some (plugins' r !! name (manifest p)))) as [Hs|Hn].
  - intros [= <-]. left. auto.
  - destruct (_ && _); [discriminate|]. destruct (negb _); [discriminate|].
    destruct (importModule _) as [msg| |plugin]; [discriminate..|].
    destruct (onLoad plugin); [|discriminate..].
    intros [= <-]. right. split; [|exists plugin; reflexivity].
    destruct (plugins' r !! name (manifest p)) eqn:E; [destruct Hn; eauto|reflexivity].
Qed.

Lemma loadPlugin_consistent (fs : Ipc.Fs) (p : Discovered) (r r' : Reg) :
  loadPlugin Plugin importModule onLoad fs p r = Done r' ->
  consistent Plugin r -> consistent Plugin r'.
Proof.
  intros Hl [Hnd Hdom].
  destruct (loadPlugin_done fs p r r' Hl) as [[_ ->]|(Hnone & plugin & ->)]; [split; auto|].
  split; cbn [loadOrder plugins].
  - apply NoDup_app. split; [exact Hnd|]. split; [|apply NoDup_singleton].
    intros x Hx Hx'. apply list_elem_of_singleton in Hx'. subst x.
    apply Hdom in Hx. rewrite Hnone in Hx. destruct Hx. discriminate.
  - intros n. rewrite elem_of_app, list_elem_of_singleton, Hdom.
    destruct (decide (n = name (manifest p))) as [->|Hne].
    + rewrite lookup_insert_eq. split; [eauto|auto].
    + rewrite lookup_insert_ne by congruence. tauto.
Qed.

(** *** Unloading *)

Lemma elem_of_rev {A : Type} (l : list A) (x : A) : x ∈ rev l <-> x ∈ l.
Proof. rewrite !list_elem_of_In. symmetry. apply in_rev. Qed.

Lemma NoDup_rev' {A : Type} (l : list A) : NoDup l -> NoDup (rev l).
Proof. rewrite !NoDup_ListNoDup. apply NoDup_rev. Qed.

Lemma lookup_rev {A : Type} (l : list A) (i : nat) :
  (i < length l)%nat -> rev l !! i = l !! (length l - S i)%nat.
Proof. intros Hi. rewrite rev_alt. apply (reverse_lookup l i Hi). Qed.

Lemma filter_keeps {A : Type} (P : A -> Prop) `{!forall x, Decision (P x)} (l : list A) :
  (forall x, x ∈ l -> P x) -> filter P l = l.
Proof.
  induction l as [|x l IH]; intros Hall; [reflexivity|].
  rewrite filter_cons_True by (apply Hall; left). f_equal. apply IH.
  intros y Hy. apply Hall. right. exact Hy.
Qed.

Lemma filter_drops {A : Type} (P : A -> Prop) `{!forall x, Decision (P x)} (l : list A) :
  (forall x, x ∈ l -> ~ P x) -> filter P l = [].
Proof.
  induction l as [|x l IH]; intros Hall; [reflexivity|].
  rewrite filter_cons_False by (apply Hall; left). apply IH.
  intros y Hy. apply Hall. right. exact Hy.
Qed.

Local Abbreviation throwsAt' := (throwsAt Plugin onUnload).
Local Abbreviation warningAt' := (warningAt Plugin onUnload).

Lemma unloadPlugin_absent (n : str) (u : Unloaded Plugin) :
  plugins' (registry Plugin u) !! n = None -> unloadPlugin Plugin onUnload n u = (u, None).
Proof. intros H. unfold unloadPlugin. rewrite H. reflexivity. Qed.

(** A call of [unloadPlugin] for a loaded plugin rejects and changes
    nothing, or it removes the plugin and logs what [warningAt] says. *)
Lemma unloadPlugin_present (n : str) (u : Unloaded Plugin) (plugin : Plugin) (d : Discovered) :
  plugins' (registry Plugin u) !! n = Some (plugin, d) ->
  (exists msg, onUnload plugin = UnloadThrows msg /\
               unloadPlugin Plugin onUnload n u = (u, Some msg)) \/
  ((forall msg, onUnload plugin <> UnloadThrows msg) /\
   unloadPlugin Plugin onUnload n u
     = (removed Plugin n (warningAt' (registry Plugin u) n) u, None)).
Proof.
  intros H. unfold unloadPlugin, warningAt. rewrite H.
  destruct (onUnload plugin) as [|msg| |msg]; [right|right|right|left; eauto];
    (split; [discriminate|reflexivity]).
Qed.

Lemma removed_consistent (n : str) (ws : list str) (u : Unloaded Plugin) :
  consistent Plugin (registry Plugin u) ->
  consistent Plugin (registry Plugin (removed Plugin n ws u)).
Proof.
  intros [Hnd Hdom]. split; cbn [removed registry loadOrder plugins].
  - apply NoDup_filter. exact Hnd.
  - intros x. rewrite list_elem_of_filter, Hdom.
    destruct (decide (x = n)) as [->|Hne].
    + rewrite lookup_delete_eq. split; [tauto|intros [? ?]; discriminate].
    + rewrite lookup_delete_ne by congruence. tauto.
Qed.

Lemma unloadPlugin_consistent (n : str) (u : Unloaded Plugin) :
  consistent Plugin (registry Plugin u) ->
  consistent Plugin (registry Plugin (unloadPlugin Plugin onUnload n u).1).
Proof.
  intros Hc.
  destruct (plugins' (registry Plugin u) !! n) as [[plugin d]|] eqn:Hn.
  - destruct (unloadPlugin_present n u plugin d Hn) as [(msg & _ & ->)|(_ & ->)];
      [exact Hc|apply removed_consistent; exact Hc].
  - rewrite (unloadPlugin_absent n u Hn). exact Hc.
Qed.

(** Unloading the names of a list, one after the other, up to the first
    call that rejects. *)
Lemma unloadEach_spec (l : list str) :
  forall u : Unloaded Plugin,
    NoDup l ->
    (forall n, n ∈ l -> is_Some (plugins' (registry Plugin u) !! n)) ->
    exists unloaded rest : list str,
      l = unloaded ++ rest /\
      (forall k, plugins' (registry Plugin (unloadEach Plugin onUnload l u).1) !! k =
                 if decide (k ∈ unloaded) then None else plugins' (registry Plugin u) !! k) /\
      loadOrder' (registry Plugin (unloadEach Plugin onUnload l u).1)
        = filter (fun x => x ∉ unloaded) (loadOrder' (registry Plugin u)) /\
      unloadedEvents Plugin (unloadEach Plugin onUnload l u).1
        = unloadedEvents Plugin u ++ unloaded /\
      unloadWarnings Plugin (unloadEach Plugin onUnload l u).1
        = unloadWarnings Plugin u ++ concat (map (warningAt' (registry Plugin u)) unloaded) /\
      (forall n msg, n ∈ unloaded -> ~ throwsAt' (registry Plugin u) n msg) /\
      match (unloadEach Plugin onUnload l u).2 with
      | None => rest = []
      | Some msg => exists n rest', rest = n :: rest' /\ throwsAt' (registry Plugin u) n msg
      end.
Proof.
  induction l as [|n l IH]; intros u Hnd Hall.
  - exists [], []. cbn [unloadEach fst snd map concat]. split; [reflexivity|].
    split; [intros k; reflexivity|]. split.
    { symmetry. apply filter_keeps. intros x _ Hx. inversion Hx. }
    rewrite !app_nil_r. split; [reflexivity|]. split; [reflexivity|].
    split; [intros n msg Hn; inversion Hn|reflexivity].
  - inversion Hnd as [|? ? Hn Hnd']; subst.
    destruct (Hall n) as [[plugin d] Hpn]; [left|].
    cbn [unloadEach].
    destruct (unloadPlugin_present n u plugin d Hpn) as [(msg & Hthrows & ->)|(Hno & ->)].
    + exists [], (n :: l). cbn [fst snd map concat]. split; [reflexivity|].
      split; [intros k; reflexivity|]. split.
      { symmetry. apply filter_keeps. intros x _ Hx. inversion Hx. }
      rewrite !app_nil_r. split; [reflexivity|]. split; [reflexivity|].
      split; [intros k m Hk; inversion Hk|]. exists n, l. split; [reflexivity|].
      exists plugin, d. auto.
    + set (u1 := removed Plugin n (warningAt' (registry Plugin u) n) u).
      assert (Hother : forall k, k <> n ->
                plugins' (registry Plugin u1) !! k = plugins' (registry Plugin u) !! k).
      { intros k Hk. subst u1. cbn [removed registry plugins].
        apply lookup_delete_ne. congruence. }
      assert (Hall1 : forall k, k ∈ l -> is_Some (plugins' (registry Plugin u1) !! k)).
      { intros k Hk. rewrite Hother by (intros ->; contradiction).
        apply Hall. right. exact Hk. }
      destruct (IH u1 Hnd' Hall1) as (unloaded & rest & Hl & Hp & Ho & Hev & Hw & Hnt & Hend).
      assert (Hsub : forall k, k ∈ unloaded -> k ∈ l).
      { intros k Hk. rewrite Hl. apply elem_of_app. auto. }
      assert (Hwarn : map (warningAt' (registry Plugin u1)) unloaded
                      = map (warningAt' (registry Plugin u)) unloaded).
      { apply map_ext_in. intros k Hk. apply list_elem_of_In in Hk. unfold warningAt.
        rewrite Hother; [reflexivity|]. intros ->. apply Hn, Hsub, Hk. }
      assert (Hthrow : forall k msg, k <> n ->
                throwsAt' (registry Plugin u1) k msg <-> throwsAt' (registry Plugin u) k msg).
      { intros k msg Hk. unfold throwsAt. rewrite (Hother k Hk). reflexivity. }
      exists (n :: unloaded), rest. split; [rewrite Hl; reflexivity|].
      split; [|split; [|split; [|split; [|split]]]].
      * intros k. rewrite Hp. destruct (decide (k ∈ unloaded)) as [Hk|Hk].
        -- rewrite decide_True by (right; exact Hk). reflexivity.
        -- destruct (decide (k = n)) as [->|Hne].
           ++ rewrite decide_True by left. subst u1. cbn [removed registry plugins].
              apply lookup_delete_eq.
           ++ rewrite decide_False by (rewrite elem_of_cons; tauto). apply Hother. exact Hne.
      * rewrite Ho. subst u1. cbn [removed registry loadOrder].
        rewrite list_filter_filter. apply list_filter_iff.
        intros x. rewrite elem_of_cons. tauto.
      * rewrite Hev. subst u1. cbn [removed unloadedEvents].
        rewrite <- app_assoc. reflexivity.
      * rewrite Hw, Hwarn. subst u1. cbn [removed unloadWarnings map concat].
        rewrite <- app_assoc. reflexivity.
      * intros k msg Hk Ht. apply elem_of_cons in Hk as [->|Hk].
        -- destruct Ht as (p' & d' & Hl' & Hf). rewrite Hpn in Hl'.
           injection Hl' as <- <-. exact (Hno msg Hf).
        -- apply (Hnt k msg Hk). apply Hthrow; [|exact Ht].
           intros ->. apply Hn, Hsub, Hk.
      * destruct (unloadEach Plugin onUnload l u1).2 as [msg|]; [|exact Hend].
        destruct Hend as (k & rest' & -> & Ht). exists k, rest'. split; [reflexivity|].
        apply Hthrow; [|exact Ht]. intros ->. apply Hn. rewrite Hl.
        apply elem_of_app. right. left.
Qed.

(** What is left of an order without repeats when its end is taken out. *)
Lemma filter_front (front back : list str) :
  NoDup (front ++ back) -> filter (fun x => x ∉ back) (front ++ back) = front.
Proof.
  intros Hnd. apply NoDup_app in Hnd as (_ & Hdis & _).
  rewrite filter_app, (filter_keeps _ front), (filter_drops _ back), app_nil_r; [reflexivity| |].
  - intros x Hx Hno. exact (Hno Hx).
  - intros x Hx Hb. exact (Hdis x Hx Hb).
Qed.

Lemma unloadAll_spec (r : Reg) :
  consistent Plugin r ->
  exists unloaded rest : list str,
    rev (loadOrder' r) = unloaded ++ rest /\
    unloadedEvents Plugin (unloadAll Plugin onUnload r).1 = unloaded /\
    unloadWarnings Plugin (unloadAll Plugin onUnload r).1
      = concat (map (warningAt' r) unloaded) /\
    loadOrder' (registry Plugin (unloadAll Plugin onUnload r).1) = rev rest /\
    (forall k, plugins' (registry Plugin (unloadAll Plugin onUnload r).1) !! k =
               if decide (k ∈ unloaded) then None else plugins' r !! k) /\
    (forall n msg, n ∈ unloaded -> ~ throwsAt' r n msg) /\
    match (unloadAll Plugin onUnload r).2 with
    | None => rest = []
    | Some msg => exists n rest', rest = n :: rest' /\ throwsAt' r n msg
    end.
Proof.
  intros [Hnd Hdom]. unfold unloadAll.
  destruct (unloadEach_spec (rev (loadOrder' r))
              {| registry := r; unloadedEvents := []; unloadWarnings := [] |})
    as (unloaded & rest & Hl & Hp & Ho & Hev & Hw & Hnt & Hend).
  { apply NoDup_rev'. exact Hnd. }
  { intros n Hn. cbn [registry]. apply Hdom. apply elem_of_rev. exact Hn. }
  cbn [registry unloadedEvents unloadWarnings] in *.
  exists unloaded, rest. split; [exact Hl|]. split; [exact Hev|]. split; [exact Hw|].
  split; [|split; [exact Hp|split; [exact Hnt|exact Hend]]].
  rewrite Ho. assert (Horder : loadOrder' r = rev rest ++ rev unloaded).
  { rewrite <- rev_app_distr, <- Hl, rev_involutive. reflexivity. }
  rewrite Horder.
  rewrite <- (filter_front (rev rest) (rev unloaded)) at 2 by (rewrite <- Horder; exact Hnd).
  apply list_filter_iff. intros x. rewrite elem_of_rev. reflexivity.
Qed.

(** *** Steps *)

Lemma empty_consistent : consistent Plugin (emptyRegistry Plugin).
Proof.
  split; [constructor|]. intros n. cbn [emptyRegistry loadOrder plugins].
  rewrite lookup_empty. split; [intros H; inversion H|intros [? ?]; discriminate].
Qed.

Lemma steps_consistent (fs : Ipc.Fs) (steps : list Step) :
  forall r : Reg,
    consistent Plugin r ->
    consistent Plugin (fold_left (step Plugin onUnload importModule onLoad fs) steps r).
Proof.
  induction steps as [|s steps IH]; intros r Hr; [exact Hr|].
  simpl. apply IH. destruct s as [p|n]; simpl.
  - destruct (loadPlugin Plugin importModule onLoad fs p r) as [r'| |] eqn:Hl; try exact Hr.
    exact (loadPlugin_consistent fs p r r' Hl Hr).
  - apply (unloadPlugin_consistent n
             {| registry := r; unloadedEvents := []; unloadWarnings := [] |}). exact Hr.
Qed.

Lemma consistent_size (r : Reg) :
  consistent Plugin r -> size (plugins' r) = length (loadOrder' r).
Proof.
  intros [Hnd Hdom]. rewrite <- size_dom.
  assert (Heq : dom (plugins' r) = list_to_set (loadOrder' r)).
  { apply set_eq. intros n. rewrite elem_of_dom, elem_of_list_to_set, Hdom. reflexivity. }
  rewrite Heq. apply size_list_to_set. exact Hnd.
Qed.

(** X20.  After any calls of [loadPlugin] and [unloadPlugin] on a new
    registry (a call of [loadPlugin] that throws changes nothing),
    [loadOrder] names every loaded plugin once and names no other; so
    [getAll] never reads a missing plugin, it returns as many plugins as
    the map holds, and [get] finds a plugin exactly for the names of
    [loadOrder]. *)
Theorem registry_stays_consistent (fs : Ipc.Fs) (steps : list Step) :
  let r := fold_left (step Plugin onUnload importModule onLoad fs) steps
             (emptyRegistry Plugin) in
  consistent Plugin r /\
  (exists all : list Plugin,
     getAll Plugin r = Some all /\
     length all = length (loadOrder' r) /\
     length all = size (plugins' r)) /\
  (forall n, is_Some (get Plugin n r) <-> n ∈ loadOrder' r).
Proof.
  cbv zeta.
  pose proof (steps_consistent fs steps (emptyRegistry Plugin) empty_consistent) as Hc.
  set (r := fold_left _ steps _) in *.
  assert (Hget : forall n, is_Some (get Plugin n r) <-> n ∈ loadOrder' r).
  { intros n. destruct Hc as [_ Hdom]. rewrite Hdom. unfold get.
    rewrite fmap_is_Some. reflexivity. }
  split; [exact Hc|]. split; [|exact Hget].
  assert (Hsome : is_Some (getAll Plugin r)).
  { unfold getAll. apply mapM_is_Some. apply Forall_forall. intros n Hn.
    apply Hget. exact Hn. }
  destruct Hsome as [all Hall]. exists all. split; [exact Hall|].
  pose proof (length_mapM _ _ _ Hall) as Hlen.
  split; [symmetry; exact Hlen|]. rewrite (consistent_size r Hc). symmetry. exact Hlen.
Qed.

(** X21.  [unloadAll] unloads the plugins in the reverse of the order of
    loading, up to the first plugin whose [onUnload] throws when it is
    called.  The plugins it unloaded are gone from the map and from
    [loadOrder], one ['plugin:unloaded'] event was emitted for each, in
    that order, and one warning was logged for each of them whose
    [onUnload] rejected or timed out, with the message of the error.  If
    no call throws, [unloadAll] returns and the registry is empty.  If
    the call for a plugin throws, [unloadAll] rejects with that error, and
    that plugin and the plugins loaded before it stay loaded, in their
    order. *)
Theorem unload_all_empties_registry (fs : Ipc.Fs) (steps : list Step) :
  let r := fold_left (step Plugin onUnload importModule onLoad fs) steps
             (emptyRegistry Plugin) in
  let out := unloadAll Plugin onUnload r in
  exists unloaded rest : list str,
    rev (loadOrder' r) = unloaded ++ rest /\
    unloadedEvents Plugin out.1 = unloaded /\
    unloadWarnings Plugin out.1 = concat (map (warningAt' r) unloaded) /\
    loadOrder' (registry Plugin out.1) = rev rest /\
    (forall k, is_Some (plugins' (registry Plugin out.1) !! k) <-> k ∈ rest) /\
    (forall k, k ∈ rest -> plugins' (registry Plugin out.1) !! k = plugins' r !! k) /\
    (forall n msg, n ∈ unloaded -> ~ throwsAt' r n msg) /\
    match out.2 with
    | None =>
        rest = [] /\ plugins' (registry Plugin out.1) = ∅ /\
        getAll Plugin (registry Plugin out.1) = Some []
    | Some msg => exists n rest', rest = n :: rest' /\ throwsAt' r n msg
    end /\
    ((forall n msg, ~ throwsAt' r n msg) -> out.2 = None).
Proof.
  cbv zeta.
  pose proof (steps_consistent fs steps (emptyRegistry Plugin) empty_consistent) as Hc.
  set (r := fold_left _ steps _) in *.
  destruct (unloadAll_spec r Hc) as (unloaded & rest & Hl & Hev & Hw & Ho & Hp & Hnt & Hend).
  destruct Hc as [Hnd Hdom].
  assert (Hsplit : forall k, is_Some (plugins' r !! k) <-> k ∈ unloaded \/ k ∈ rest).
  { intros k. rewrite <- Hdom, <- elem_of_rev, Hl, elem_of_app. reflexivity. }
  assert (Hdis : forall k, k ∈ unloaded -> k ∈ rest -> False).
  { apply NoDup_rev' in Hnd. rewrite Hl in Hnd.
    apply NoDup_app in Hnd as (_ & Hd & _). exact Hd. }
  assert (Hin : forall k, is_Some (plugins' (registry Plugin (unloadAll Plugin onUnload r).1) !! k)
                          <-> k ∈ rest).
  { intros k. rewrite Hp. destruct (decide (k ∈ unloaded)) as [Hk|Hk].
    - split; [intros [? ?]; discriminate|intros Hr; destruct (Hdis k Hk Hr)].
    - rewrite Hsplit. tauto. }
  exists unloaded, rest. split; [exact Hl|]. split; [exact Hev|]. split; [exact Hw|].
  split; [exact Ho|]. split; [exact Hin|]. split.
  { intros k Hk. rewrite Hp. rewrite decide_False; [reflexivity|].
    intros Hu. exact (Hdis k Hu Hk). }
  split; [exact Hnt|]. split.
  - destruct (unloadAll Plugin onUnload r).2 as [msg|]; [exact Hend|].
    subst rest. split; [reflexivity|]. split.
    + apply map_eq. intros k. rewrite lookup_empty.
      destruct (plugins' _ !! k) eqn:E; [|reflexivity].
      assert (Hk : k ∈ @nil str) by (apply Hin; eauto). inversion Hk.
    + unfold getAll. rewrite Ho. reflexivity.
  - intros Hnone. destruct (unloadAll Plugin onUnload r).2 as [msg|]; [|reflexivity].
    destruct Hend as (n & rest' & _ & Ht). destruct (Hnone n msg Ht).
Qed.

(** *** Loading all, then unloading all *)

Lemma loadEach_state (fs : Ipc.Fs) (l : list Discovered) :
  forall r r' : Reg,
    loadEach Plugin importModule onLoad fs l r = Done r' ->
    loadEachState Plugin importModule onLoad fs l r = r'.
Proof.
  induction l as [|p l IH]; intros r r'; simpl; [intros [= <-]; reflexivity|].
  destruct (loadPlugin Plugin importModule onLoad fs p r) as [r1| |]; try discriminate.
  apply IH.
Qed.

Lemma loadEach_names (fs : Ipc.Fs) (l : list Discovered) :
  forall r r' : Reg,
    NoDup (names l) ->
    (forall n, n ∈ names l -> plugins' r !! n = None) ->
    loadEach Plugin importModule onLoad fs l r = Done r' ->
    loadOrder' r' = loadOrder' r ++ names l.
Proof.
  induction l as [|p l IH]; intros r r' Hnd Hfree; simpl.
  - intros [= <-]. rewrite app_nil_r. reflexivity.
  - destruct (loadPlugin Plugin importModule onLoad fs p r) as [r1| |] eqn:Hl;
      try discriminate.
    intros Hrest. inversion Hnd as [|? ? Hp Hnd']; subst.
    destruct (loadPlugin_done fs p r r1 Hl) as [[Hs _]|(_ & plugin & ->)].
    + rewrite (Hfree (name (manifest p))) in Hs by left. destruct Hs. discriminate.
    + pose proof (fun Hf => IH _ r' Hnd' Hf Hrest) as Hstep.
      cbn [loadOrder plugins] in Hstep. rewrite Hstep.
      * rewrite <- app_assoc. reflexivity.
      * intros n Hn. rewrite lookup_insert_ne by (intros <-; contradiction).
        apply Hfree. right. exact Hn.
Qed.

Lemma loadAll_done (fs : Ipc.Fs) (discovered : list Discovered) (r : Reg) :
  loadAll Plugin importModule onLoad fs discovered (emptyRegistry Plugin) = (r, Done tt) ->
  exists sorted,
    topologicalSort discovered = Done sorted /\
    loadOrder' r = names sorted /\
    consistent Plugin r.
Proof.
  unfold loadAll.
  destruct (topologicalSort discovered) as [sorted| |] eqn:Hsort; try discriminate.
  destruct (loadEach Plugin importModule onLoad fs sorted (emptyRegistry Plugin))
    as [r1| |] eqn:Hl; try discriminate.
  rewrite (loadEach_state fs sorted _ r1 Hl). intros [= <-].
  destruct (topologicalSort_done discovered sorted Hsort) as (_ & _ & Hnd & _).
  exists sorted. split; [reflexivity|]. split.
  - rewrite (loadEach_names fs sorted (emptyRegistry Plugin) r1 Hnd); [reflexivity| |exact Hl].
    intros n _. apply lookup_empty.
  - clear Hnd Hsort. revert Hl. generalize (emptyRegistry Plugin) empty_consistent.
    induction sorted as [|p sorted IH]; intros r0 Hr0; simpl.
    + intros [= <-]. exact Hr0.
    + destruct (loadPlugin Plugin importModule onLoad fs p r0) as [r2| |] eqn:Hp;
        try discriminate.
      apply IH. exact (loadPlugin_consistent fs p r0 r2 Hp Hr0).
Qed.

Lemma rev_before (l : list str) (a b : str) :
  before l a b -> before (rev l) b a.
Proof.
  intros (i & j & Hij & Hi & Hj).
  pose proof (lookup_lt_Some _ _ _ Hi) as Hli. pose proof (lookup_lt_Some _ _ _ Hj) as Hlj.
  exists (length l - S j)%nat, (length l - S i)%nat.
  split; [lia|]. rewrite !lookup_rev by lia.
  replace (length l - S (length l - S j))%nat with j by lia.
  replace (length l - S (length l - S i))%nat with i by lia. auto.
Qed.

(** A plugin that was unloaded stands at one place of the order. *)
Lemma prefix_before (l front back : list str) (a b : str) :
  NoDup l -> l = front ++ back -> before l a b -> b ∈ front -> before front a b.
Proof.
  intros Hnd -> (i & j & Hij & Hi & Hj) Hb.
  apply list_elem_of_lookup in Hb as [j' Hj'].
  assert (Hjj : (front ++ back) !! j' = Some b) by (apply lookup_app_l_Some; exact Hj').
  assert (j' = j) by (eapply NoDup_lookup; eauto). subst j'.
  pose proof (lookup_lt_Some _ _ _ Hj') as Hlt.
  exists i, j. split; [exact Hij|]. split; [|exact Hj'].
  rewrite lookup_app_l in Hi by lia. exact Hi.
Qed.

(** X22.  After [loadAll] has loaded the plugins it discovered into a new
    registry, [unloadAll] never unloads a plugin after a plugin it depends
    on.  [loadOrder] is the order of the topological sort and the events
    of unloading follow its reverse: all of it when no [onUnload] throws,
    its beginning when one does.  For a loaded plugin that lists another
    plugin of the batch among its dependencies, if the event of the
    dependency was emitted then the event of the plugin was emitted before
    it. *)
Theorem dependents_unloaded_first (fs : Ipc.Fs) (discovered : list Discovered) (r : Reg) :
  loadAll Plugin importModule onLoad fs discovered (emptyRegistry Plugin) = (r, Done tt) ->
  let out := unloadAll Plugin onUnload r in
  (exists sorted rest,
     topologicalSort discovered = Done sorted /\
     loadOrder' r = names sorted /\
     rev (names sorted) = unloadedEvents Plugin out.1 ++ rest /\
     (out.2 = None -> rest = [])) /\
  (forall a d : str,
     is_Some (plugins' r !! a) ->
     dependsOn (mkByName discovered) a d ->
     is_Some (mkByName discovered !! d) ->
     (d ∈ unloadedEvents Plugin out.1 \/ out.2 = None) ->
     before (unloadedEvents Plugin out.1) a d).
Proof.
  intros Hload. cbv zeta.
  destruct (loadAll_done fs discovered r Hload) as (sorted & Hsort & Horder & Hc).
  destruct (unloadAll_spec r Hc) as (unloaded & rest & Hl & Hev & _ & _ & _ & _ & Hend).
  assert (Hnone : (unloadAll Plugin onUnload r).2 = None -> rest = []).
  { intros Hn. rewrite Hn in Hend. exact Hend. }
  split.
  { exists sorted, rest. split; [exact Hsort|]. split; [exact Horder|].
    split; [rewrite Hev, <- Horder; exact Hl|exact Hnone]. }
  intros a d Ha (e & He & Hd) Hbatch Hdone.
  destruct (topologicalSort_done discovered sorted Hsort) as (Hent & Hnames & Hnd & Hfirst).
  assert (Hbefore : before (rev (loadOrder' r)) a d).
  { apply rev_before. rewrite Horder.
    assert (Hin : a ∈ names sorted).
    { rewrite <- Horder. apply Hc. exact Ha. }
    apply list_elem_of_lookup in Hin as [i Hi].
    unfold names in Hi. rewrite list_lookup_fmap in Hi.
    destruct (sorted !! i) as [e'|] eqn:Hei; [|discriminate]. injection Hi as Hi.
    assert (e' = e).
    { assert (He' : mkByName discovered !! name (manifest e') = Some e').
      { apply Hent. apply list_elem_of_lookup. eauto. }
      rewrite Hi, He in He'. congruence. }
    subst e'.
    destruct (Hfirst i e d Hei Hd Hbatch) as (j & e2 & Hji & Hj & Hn).
    exists j, i. split; [exact Hji|]. unfold names. rewrite !list_lookup_fmap, Hj, Hei.
    simpl. rewrite Hn, Hi. auto. }
  rewrite Hev.
  apply (prefix_before (rev (loadOrder' r)) unloaded rest a d);
    [apply NoDup_rev', Hc|exact Hl|exact Hbefore|].
  destruct Hdone as [Hd'|Hn]; [rewrite Hev in Hd'; exact Hd'|].
  rewrite (Hnone Hn), app_nil_r in Hl. rewrite <- Hl.
  destruct Hbefore as (i & j & _ & _ & Hj). apply list_elem_of_lookup. eauto.
Qed.

End Life.

(** *** Witnesses *)

Import Samples Cases.

(** The order of unloading of [b -> [a]], when the unloading of [a] is
    slow and when the [onUnload] of [a] throws. *)
Lemma dependents_unloaded_first_witness :
  let loaded := (loadAll unit everyModule (fun _ => LoadResolves) pluginFiles
                   [plugin "b" ["a"]; plugin "a" []] (emptyRegistry unit)).1 in
  unloadedEvents unit (unloadAll unit (fun _ => UnloadTimesOut) loaded).1
    = [lit "b"; lit "a"] /\
  before (unloadedEvents unit (unloadAll unit (fun _ => UnloadTimesOut) loaded).1)
    (lit "b") (lit "a").
Proof.
  cbv zeta.
  assert (Hload : loadAll unit everyModule (fun _ => LoadResolves) pluginFiles
                    [plugin "b" ["a"]; plugin "a" []] (emptyRegistry unit)
                  = ((loadAll unit everyModule (fun _ => LoadResolves) pluginFiles
                        [plugin "b" ["a"]; plugin "a" []] (emptyRegistry unit)).1, Done tt)).
  { vm_compute. reflexivity. }
  destruct (dependents_unloaded_first unit (fun _ => UnloadTimesOut) everyModule
              (fun _ => LoadResolves) pluginFiles [plugin "b" ["a"]; plugin "a" []] _ Hload)
    as (_ & Hbefore).
  split; [vm_compute; reflexivity|].
  apply Hbefore.
  - vm_compute. eauto.
  - exists (plugin "b" ["a"]). split; [vm_compute; reflexivity|]. left.
  - vm_compute. eauto.
  - right. vm_compute. reflexivity.
Defined.

Lemma unload_all_empties_registry_witness :
  let r := fold_left (step unit (fun _ => UnloadThrows (lit "boom")) everyModule
                        (fun _ => LoadResolves) pluginFiles)
             [Load (plugin "a" []); Load (plugin "b" ["a"])] (emptyRegistry unit) in
  (unloadAll unit (fun _ => UnloadThrows (lit "boom")) r).2 = Some (lit "boom") /\
  loadOrder unit (registry unit (unloadAll unit (fun _ => UnloadThrows (lit "boom")) r).1)
    = [lit "a"; lit "b"] /\
  (unloadAll unit (fun _ => UnloadRejects (lit "busy")) r).2 = None /\
  unloadWarnings unit (unloadAll unit (fun _ => UnloadRejects (lit "busy")) r).1
    = [unloadWarning (lit "b") (lit "busy"); unloadWarning (lit "a") (lit "busy")].
Proof.
  cbv zeta.
  destruct (unload_all_empties_registry unit (fun _ => UnloadRejects (lit "busy")) everyModule
              (fun _ => LoadResolves) pluginFiles
              [Load (plugin "a" []); Load (plugin "b" ["a"])])
    as (unloaded & rest & _ & _ & _ & _ & _ & _ & _ & _ & Hnone).
  split; [vm_compute; reflexivity|]. split; [vm_compute; reflexivity|]. split.
  - apply Hnone. intros n msg (p & d & _ & Hp). discriminate Hp.
  - vm_compute. reflexivity.
Defined.

End LifecycleFacts.



(** ** Requests on tasks and the resolution of channels *)

Module RequestFacts.

Import JS Path Ipc IpcWriteFacts IpcDrainFacts Tools Discord DiscordFacts.

(** X23.  The handlers of [pause_task], [resume_task] and [cancel_task]
    refuse nothing: for every action, task id and caller the result is no
    error, and one request was written into the tasks directory that names
    the action and the task and carries the [groupFolder] and [isMain] of
    the caller, for the host to decide on; every other file is as it
    was. *)
Theorem task_action_is_forwarded (action task_id : str) (ctx : ToolContext)
  (clk : Clock) (fs : Fs) :
  let out := taskAction action task_id ctx clk fs in
  let final := TASKS_DIR ++ SLASH :: ipcFilename (now clk) (random clk) in
  isError out.2 = false /\
  text out.2 = lit "Task " ++ task_id ++ lit " " ++ action ++ lit " requested." /\
  (exists doc : json,
     files out.1 !! final = Some (Doc doc) /\
     property doc (lit "type") = Some (Some (JStr (action ++ lit "_task"))) /\
     property doc (lit "taskId") = Some (Some (JStr task_id)) /\
     property doc (lit "groupFolder") = Some (Some (JStr (groupFolder ctx))) /\
     property doc (lit "isMain") = Some (Some (JBool (isMain ctx)))) /\
  (forall q c, files out.1 !! q = Some c -> q = final \/ files fs !! q = Some c).
Proof.
  cbv zeta. unfold taskAction.
  match goal with
  | |- context [pluginWriteIpcFile _ _ _ ?d _] =>
      pose proof (pluginWriteIpcFile_written (now clk) (random clk) d fs)
        as (_ & _ & Hfinal & _ & Hfile & Hframe);
      destruct (pluginWriteIpcFile (now clk) (random clk) TASKS_DIR d fs) as [fs' name] eqn:Hw
  end.
  cbn [fst snd] in *. rewrite <- Hfinal.
  split; [reflexivity|]. split; [reflexivity|]. split; [|exact Hframe].
  eexists. split; [exact Hfile|]. repeat split; reflexivity.
Qed.

Lemma jid_resolved (jid id : str) :
  jidToChannelId jid = Some id <->
  jid = lit "discord:" ++ id /\ id <> [] /\ forallb is_digit id = true.
Proof.
  unfold jidToChannelId. split.
  - destruct (strip_prefix (lit "discord:") jid) as [rest|] eqn:Hs; [|discriminate].
    apply strip_prefix_spec in Hs. destruct rest as [|c rest]; [discriminate|].
    destruct (forallb is_digit (c :: rest)) eqn:Hd; [|discriminate].
    intros [= <-]. split; [exact Hs|]. split; [discriminate|exact Hd].
  - intros (-> & Hne & Hd).
    assert (Hs : strip_prefix (lit "discord:") (lit "discord:" ++ id) = Some id)
      by (apply strip_prefix_spec; reflexivity).
    rewrite Hs. destruct id as [|c rest]; [congruence|]. rewrite Hd. reflexivity.
Qed.

(** X24.  [sendMessage] always returns, and it sends to a channel only for
    a JID that is ["discord:"] followed by one or more digits and nothing
    else, the digits being the channel fetched, and only if the channel
    fetched is text-based.  For every other JID, and when the channel is
    missing, is not text-based or cannot be fetched, nothing is sent and one
    line is logged. *)
Theorem send_needs_numeric_jid (fetch : str -> Fetched)
  (sendOk : str -> Units.ustr -> bool) (jid : str) (text : Units.ustr) (c : Client) :
  exists c' : Client,
    sendMessage fetch sendOk jid text c = Some c' /\
    (forall id : str,
       jidToChannelId jid = Some id <->
       jid = lit "discord:" ++ id /\ id <> [] /\ forallb is_digit id = true) /\
    (forall channel chunk, In (channel, chunk) (delivered c') ->
       In (channel, chunk) (delivered c) \/
       jid = lit "discord:" ++ channel /\ channel <> [] /\
       forallb is_digit channel = true /\ fetch channel = Channel true) /\
    ((jidToChannelId jid = None \/
      exists id, jidToChannelId jid = Some id /\ fetch id <> Channel true) ->
     delivered c' = delivered c /\ length (warned c') = S (length (warned c))).
Proof.
  destruct (splitMessage_spec text 2000 ltac:(lia)) as (chunks & Hsplit & _).
  unfold sendMessage.
  destruct (jidToChannelId jid) as [id|] eqn:Hjid.
  - destruct (fetch id) as [| |[|]] eqn:Hfetch.
    + eexists. split; [reflexivity|]. split; [intros id0; rewrite <- Hjid; apply jid_resolved|].
      split; [intros ch k Hin; left; exact Hin|].
      intros _. unfold warn. cbn [delivered warned]. rewrite length_app. simpl.
      split; [reflexivity|lia].
    + eexists. split; [reflexivity|]. split; [intros id0; rewrite <- Hjid; apply jid_resolved|].
      split; [intros ch k Hin; left; exact Hin|].
      intros _. unfold warn. cbn [delivered warned]. rewrite length_app. simpl.
      split; [reflexivity|lia].
    + rewrite Hsplit. eexists. split; [reflexivity|].
      split; [intros id0; rewrite <- Hjid; apply jid_resolved|]. split.
      * destruct (sendChunks_delivered sendOk id chunks c) as (k & Hk & _).
        intros ch chunk Hin. rewrite Hk in Hin. apply in_app_or in Hin as [Hin|Hin];
          [left; exact Hin|right].
        apply in_map_iff in Hin as (x & [= <- <-] & _).
        apply jid_resolved in Hjid as (Hj & Hne & Hd). auto.
      * intros [Hn|(id' & [= <-] & Hf)]; [discriminate|congruence].
    + eexists. split; [reflexivity|]. split; [intros id0; rewrite <- Hjid; apply jid_resolved|].
      split; [intros ch k Hin; left; exact Hin|].
      intros _. unfold warn. cbn [delivered warned]. rewrite length_app. simpl.
      split; [reflexivity|lia].
  - eexists. split; [reflexivity|]. split; [intros id0; rewrite <- Hjid; apply jid_resolved|].
    split; [intros ch k Hin; left; exact Hin|].
    intros _. unfold warn. cbn [delivered warned]. rewrite length_app. simpl.
    split; [reflexivity|lia].
Qed.

End RequestFacts.

